(** * Media service: upload / key / URL pipeline, metadata store and rate limiter

    A shallow embedding of [media-service/src/routes/media.ts],
    [services/database.ts], [services/rateLimiter.ts],
    [services/publisher.ts], [services/storage.ts],
    [middleware/rateLimit.ts] and [middleware/errorHandler.ts].

    JavaScript strings are sequences of UTF-16 code units ([list N]).
    Collaborators (PostgreSQL, S3, Redis) live in an explicit [World] that
    every handler threads through a state-and-exception monad.  Platform
    functions whose code is not part of the repository (Unicode
    normalisation, [path], [Date], [sharp], the S3 presigner) are fields of
    the class [Builtins]; every general theorem holds for all of them. *)

From Stdlib Require Import ZArith NArith Lia String Ascii DecimalString.
From stdpp Require Import base option list gmap.

Local Open Scope Z_scope.

(** ** JavaScript strings and the regular expressions of the source *)

Module JS.

(** A string literal of the source, as code units. *)
Definition lit (s : string) : list N :=
  N_of_ascii <$> list_ascii_of_string s.

Definition streq (a b : list N) : bool := bool_decide (a = b).

(** JavaScript truthiness of a string, and of an optional string. *)
Definition truthy (s : list N) : bool :=
  match s with [] => false | _ :: _ => true end.

Definition truthy_opt (o : option (list N)) : bool :=
  match o with Some s => truthy s | None => false end.

(** [x || d] on numbers: zero is falsy. *)
Definition num_or (x d : Z) : Z := if x =? 0 then d else x.

Definition is_digit (c : N) : bool := ((48 <=? c) && (c <=? 57))%N.
Definition is_upper (c : N) : bool := ((65 <=? c) && (c <=? 90))%N.
Definition is_lower (c : N) : bool := ((97 <=? c) && (c <=? 122))%N.

(** [/[a-z0-9]/i] (no [u] flag: only ASCII letters fold onto ASCII). *)
Definition is_alnum (c : N) : bool := is_digit c || is_upper c || is_lower c.

(** [\w] is [[A-Za-z0-9_]]. *)
Definition is_word (c : N) : bool := is_alnum c || (c =? 95)%N.

(** The class [[\w.\-]], that is [[A-Za-z0-9._-]]. *)
Definition is_safe (c : N) : bool := is_word c || (c =? 46)%N || (c =? 45)%N.

(** The class [[a-z0-9]]. *)
Definition is_lower_alnum (c : N) : bool := is_digit c || is_lower c.

(** [s.replace(/[^\w.\-]+/g, '_')]: every maximal run of characters
    outside the class becomes one underscore.  [in_run] tells that the
    previous character already belonged to the run being replaced. *)
Fixpoint replace_unsafe_runs (in_run : bool) (s : list N) : list N :=
  match s with
  | [] => []
  | c :: s' =>
      if is_safe c then c :: replace_unsafe_runs false s'
      else if in_run then replace_unsafe_runs true s'
      else 95%N :: replace_unsafe_runs true s'
  end.

(** [s.replace(/[^\w.\-]/g, '_')]: one underscore per character. *)
Definition replace_unsafe_each (s : list N) : list N :=
  (fun c => if is_safe c then c else 95%N) <$> s.

Fixpoint drop_leading_underscores (s : list N) : list N :=
  match s with
  | [] => []
  | c :: s' => if (c =? 95)%N then drop_leading_underscores s' else s
  end.

(** [s.replace(/^_+|_+$/g, '')]. *)
Definition trim_underscores (s : list N) : list N :=
  rev (drop_leading_underscores (rev (drop_leading_underscores s))).

(** [s.replace(/[^a-z0-9]+/g, '')]. *)
Definition keep_lower_alnum (s : list N) : list N :=
  List.filter is_lower_alnum s.

(** [s.replace(/\/$/, '')]. *)
Definition strip_trailing_slash (s : list N) : list N :=
  match rev s with
  | c :: r => if (c =? 47)%N then rev r else s
  | [] => s
  end.

(** [s.slice(0, n)] for [0 <= n]. *)
Definition slice0 (n : nat) (s : list N) : list N := take n s.

(** [parts.join(sep)]. *)
Fixpoint join (sep : list N) (parts : list (list N)) : list N :=
  match parts with
  | [] => []
  | [p] => p
  | p :: rest => p ++ sep ++ join sep rest
  end.

(** [Array.from(new Set(xs))]: first occurrences, in insertion order. *)
Fixpoint set_of (xs : list (list N)) (seen : list (list N)) : list (list N) :=
  match xs with
  | [] => []
  | x :: xs' =>
      if bool_decide (x ∈ seen) then set_of xs' seen
      else x :: set_of xs' (x :: seen)
  end.

(** The regular expression [^[A-Za-z0-9._-]+$]. *)
Definition matches_safe_name (s : list N) : bool :=
  truthy s && forallb is_safe s.

End JS.

(** ** Platform functions used by the service *)

(** Width and height reported by [sharp(...).metadata()]. *)
Record ImageMetadata := mkImageMetadata {
  meta_width : option Z;
  meta_height : option Z
}.

Class Builtins := {
  (** [String.prototype.normalize('NFKD')] *)
  String_normalize_NFKD : list N -> list N;
  (** [String.prototype.toLowerCase()] *)
  String_toLowerCase : list N -> list N;
  (** [path.extname(p)] and [path.basename(p, suffix)] *)
  path_extname : list N -> list N;
  path_basename : list N -> list N -> list N;
  (** [encodeURIComponent(s)] and [encodeURI(s)]; [inr msg] is the
      [URIError] raised on a lone surrogate, with its message. *)
  encodeURIComponent : list N -> list N + list N;
  encodeURI : list N -> list N + list N;
  (** [Buffer.from(s, 'latin1').toString('utf8')] *)
  Buffer_latin1_as_utf8 : list N -> list N;
  (** [new Date(s).getTime()], [None] for NaN; [d.toISOString()] *)
  Date_parse : list N -> option Z;
  Date_toISOString : Z -> list N;
  (** [sharp(buffer).metadata()]: metadata, or the error's message *)
  sharp_metadata : list N -> ImageMetadata + list N;
  (** [String(n)] for an integer, as used in template literals *)
  Number_toString : Z -> list N;
  (** the [n]-th identifier drawn from [uuid()] *)
  uuid_v4 : nat -> list N;
  (** [getSignedUrl] of a [GetObjectCommand] (key, disposition, ttl) and
      of a [PutObjectCommand] (key, content type, ttl) *)
  sign_get : list N -> option (list N) -> Z -> list N;
  sign_put : list N -> list N -> Z -> list N
}.

(** ** Static configuration ([config.ts]) *)

Class Config := {
  nodeEnv : list N;
  publicRead : bool;
  cdnBaseUrl : option (list N);
  storage_endpoint : option (list N);
  storage_bucket : list N;
  storage_region : list N;
  presignExpirationSeconds : Z;
  rateLimit_windowSeconds : Z;
  rateLimit_maxRequests : Z;
  maxUploadBytes : Z;
  allowedMimeTypes : list (list N)
}.

(** ** Filename normaliser and key builder ([routes/media.ts]) *)

Module Filename.
Import JS.

Section WithBuiltins.
Context `{Builtins}.

(** [normalizeUploadFilename] *)
Definition normalizeUploadFilename (originalName : list N) : list N :=
  let hasOnlyLatin1 := forallb (fun c => (c <=? 255)%N) originalName in
  if negb hasOnlyLatin1 then originalName
  else
    let decoded := Buffer_latin1_as_utf8 originalName in
    if bool_decide (65533%N ∈ decoded) then originalName else decoded.

(** [encodeRFC5987Value]: after [encodeURIComponent], the characters
    [! ' ( ) *] become [%21 %27 %28 %29 %2A]. *)
Definition percent_hex (c : N) : list N :=
  if (c =? 33)%N then lit "%21"
  else if (c =? 39)%N then lit "%27"
  else if (c =? 40)%N then lit "%28"
  else if (c =? 41)%N then lit "%29"
  else if (c =? 42)%N then lit "%2A"
  else [c].

Definition encodeRFC5987Value (value : list N) : list N + list N :=
  match encodeURIComponent value with
  | inl enc => inl (mjoin (percent_hex <$> enc))
  | inr e => inr e
  end.

(** [buildContentDisposition] *)
Definition buildContentDisposition (originalName fallbackName : list N)
  : list N + list N :=
  match encodeRFC5987Value originalName with
  | inl encoded =>
      inl (lit "inline; filename=" ++ [34%N] ++ fallbackName ++ [34%N]
           ++ lit "; filename*=UTF-8''" ++ encoded)
  | inr e => inr e
  end.

(** The table [byMime] of [extensionFrom], looked up by its own
    keys. *)
Definition byMime (mimeType : list N) : option (list N) :=
  if streq mimeType (lit "image/jpeg") then Some (lit "jpg")
  else if streq mimeType (lit "image/png") then Some (lit "png")
  else if streq mimeType (lit "image/webp") then Some (lit "webp")
  else if streq mimeType (lit "image/gif") then Some (lit "gif")
  else if streq mimeType (lit "image/avif") then Some (lit "avif")
  else None.

(** [extensionFrom]; [drop 1] is [.slice(1)], which removes the dot. *)
Definition extensionFrom (mimeType : list N) (fileName : option (list N))
  : list N :=
  match byMime mimeType with
  | Some mapped => mapped
  | None =>
      let rawExt :=
        match fileName with
        | Some f =>
            if truthy f then drop 1 (String_toLowerCase (path_extname f))
            else []
        | None => []
        end in
      keep_lower_alnum rawExt
  end.

(** [buildObjectKey] *)
Definition buildObjectKey (userId id extension : list N) : list N :=
  let suffix := if truthy extension then lit "." ++ extension else [] in
  lit "uploads/" ++ userId ++ lit "/" ++ id ++ suffix.

(** [buildAsciiFallbackFilename] *)
Definition buildAsciiFallbackFilename (originalName extension : list N)
  : list N :=
  let base := path_basename originalName (path_extname originalName) in
  let normalizedBase :=
    trim_underscores
      (replace_unsafe_runs false (String_normalize_NFKD base)) in
  let fileBase :=
    if truthy normalizedBase && existsb is_alnum normalizedBase
    then normalizedBase else lit "file" in
  let safeExt := if truthy extension then lit "." ++ extension else [] in
  slice0 180 (fileBase ++ safeExt).

(** The fallback policy in the words of the specification: every
    character outside the class is replaced by an underscore of its
    own. *)
Definition asciiFallback_spec (displayName extension : list N) : list N :=
  let base := path_basename displayName (path_extname displayName) in
  let normalizedBase :=
    trim_underscores (replace_unsafe_each (String_normalize_NFKD base)) in
  let fileBase :=
    if existsb is_alnum normalizedBase then normalizedBase
    else lit "file" in
  let safeExt := if truthy extension then lit "." ++ extension else [] in
  slice0 180 (fileBase ++ safeExt).

End WithBuiltins.
End Filename.

(** ** Metadata store ([services/database.ts], [sql/001_init.sql]) *)

Module Database.
Import JS.

Inductive MediaStatus := ACTIVE | DELETED.

Definition status_eqb (a b : MediaStatus) : bool :=
  match a, b with
  | ACTIVE, ACTIVE | DELETED, DELETED => true
  | _, _ => false
  end.

(** Timestamps ([Date], [TIMESTAMPTZ]) are milliseconds since the epoch. *)
Record MediaObject := mkMediaObject {
  id : list N;
  ownerId : list N;
  originalName : list N;
  storedKey : list N;
  mimeType : list N;
  sizeBytes : Z;
  width : option Z;
  height : option Z;
  status : MediaStatus;
  uploadedAt : Z;
  deletedAt : option Z
}.

Record CreateMediaObjectInput := mkCreateInput {
  in_id : list N;
  in_ownerId : list N;
  in_originalName : list N;
  in_storedKey : list N;
  in_mimeType : list N;
  in_sizeBytes : Z;
  in_width : option Z;
  in_height : option Z
}.

(** The table [media_objects], rows in insertion order. *)
Abbreviation Table := (list MediaObject).

(** [INSERT INTO media_objects (...) VALUES (..., 'ACTIVE') RETURNING *]:
    [uploaded_at] defaults to [NOW()], [deleted_at] to NULL; the primary
    key rejects an [id] that is already present. *)
Definition createMediaObject (now : Z) (input : CreateMediaObjectInput)
    (tbl : Table) : option (MediaObject * Table) :=
  if existsb (fun r => streq (id r) (in_id input)) tbl then None
  else
    let row := {|
      id := in_id input; ownerId := in_ownerId input;
      originalName := in_originalName input;
      storedKey := in_storedKey input; mimeType := in_mimeType input;
      sizeBytes := in_sizeBytes input;
      width := in_width input; height := in_height input;
      status := ACTIVE; uploadedAt := now; deletedAt := None |} in
    Some (row, tbl ++ [row]).

(** [ORDER BY uploaded_at DESC]: insertion sort on the timestamp; rows
    with equal timestamps (whose order SQL leaves open) keep table order. *)
Fixpoint insert_desc (r : MediaObject) (l : Table) : Table :=
  match l with
  | [] => [r]
  | x :: l' =>
      if uploadedAt x <=? uploadedAt r then r :: l
      else x :: insert_desc r l'
  end.

Definition order_by_uploaded_at_desc (l : Table) : Table :=
  foldr insert_desc [] l.

Record ListParams := mkListParams {
  lp_ownerId : option (list N);
  lp_limit : nat;
  lp_cursor : option (list N);
  lp_includeDeleted : bool
}.

Record ListResult := mkListResult {
  items : Table;
  nextCursor : option (list N)
}.

(** The [WHERE] clause assembled by [listMediaObjects]; [cursorDate] is
    the parsed cursor when one was supplied. *)
Definition list_where (params : ListParams) (cursorDate : option Z)
    (r : MediaObject) : bool :=
  (lp_includeDeleted params || status_eqb (status r) ACTIVE)
  && (if truthy_opt (lp_ownerId params)
      then streq (ownerId r) (default [] (lp_ownerId params)) else true)
  && (match cursorDate with
      | Some d => uploadedAt r <? d
      | None => true
      end).

(** The [SELECT ... WHERE ... ORDER BY uploaded_at DESC LIMIT limit + 1]. *)
Definition list_query (params : ListParams) (cursorDate : option Z)
    (tbl : Table) : Table :=
  take (lp_limit params + 1)%nat
    (order_by_uploaded_at_desc (List.filter (list_where params cursorDate) tbl)).

Section WithBuiltins.
Context `{Builtins}.

(** The page cut of [listMediaObjects], applied to the fetched rows. *)
Definition page_of (limit : nat) (rows : Table) : ListResult :=
  if (limit <? length rows)%nat then
    match rows !! limit with
    | Some r =>
        {| items := take limit rows;
           nextCursor := Some (Date_toISOString (uploadedAt r)) |}
    | None => {| items := rows; nextCursor := None |}
    end
  else {| items := rows; nextCursor := None |}.

(** [db.listMediaObjects]: [inr msg] is the thrown [Error(msg)]. *)
Definition listMediaObjects (params : ListParams) (tbl : Table)
  : ListResult + list N :=
  let parsed : option Z + list N :=
    if truthy_opt (lp_cursor params) then
      match Date_parse (default [] (lp_cursor params)) with
      | Some d => inl (Some d)
      | None => inr (lit "Invalid cursor")
      end
    else inl None in
  match parsed with
  | inr e => inr e
  | inl cursorDate =>
      inl (page_of (lp_limit params) (list_query params cursorDate tbl))
  end.
End WithBuiltins.

(** [db.getMediaObjectById]: [SELECT * FROM media_objects WHERE id = $1]. *)
Definition getMediaObjectById (ident : list N) (tbl : Table)
  : option MediaObject :=
  head (List.filter (fun r => streq (id r) ident) tbl).

(** [db.softDeleteMediaObject]:
    [UPDATE media_objects SET status = 'DELETED', deleted_at = NOW()
     WHERE id = $1 AND status != 'DELETED' RETURNING *]. *)
Definition soft_delete_hits (ident : list N) (r : MediaObject) : bool :=
  streq (id r) ident && negb (status_eqb (status r) DELETED).

Definition mark_deleted (now : Z) (r : MediaObject) : MediaObject :=
  {| id := id r; ownerId := ownerId r; originalName := originalName r;
     storedKey := storedKey r; mimeType := mimeType r;
     sizeBytes := sizeBytes r; width := width r; height := height r;
     status := DELETED; uploadedAt := uploadedAt r;
     deletedAt := Some now |}.

Definition softDeleteMediaObject (now : Z) (ident : list N) (tbl : Table)
  : option MediaObject * Table :=
  let updated := mark_deleted now <$> List.filter (soft_delete_hits ident) tbl in
  (head updated,
   (fun r => if soft_delete_hits ident r then mark_deleted now r else r) <$> tbl).

End Database.

(** ** The collaborators' state and the monad of request handlers *)

(** The Redis keyspace as far as the limiter uses it: integer keys with
    an optional expiry, and the commands INCR, TTL and EXPIRE. *)
Module Redis.

(** A counter key: its integer value and absolute expiry (ms). *)
Record Entry := mkEntry { value : Z; expireAt : option Z }.

(** A key is expired once the time is past its expiry. *)
Definition live (now : Z) (e : Entry) : bool :=
  match expireAt e with Some t => now <=? t | None => true end.

(** Expired keys are gone. *)
Definition get (now : Z) (key : list N) (db : gmap (list N) Entry)
  : option Entry :=
  match db !! key with
  | Some e => if live now e then Some e else None
  | None => None
  end.

(** [INCR key]: a missing key counts from zero and has no expiry. *)
Definition INCR (now : Z) (key : list N) (db : gmap (list N) Entry)
  : Z * gmap (list N) Entry :=
  match get now key db with
  | Some e =>
      (value e + 1, <[key := mkEntry (value e + 1) (expireAt e)]> db)
  | None => (1, <[key := mkEntry 1 None]> db)
  end.

(** [TTL key]: -2 without key, -1 without expiry, else the remaining
    time rounded to the nearest second. *)
Definition TTL (now : Z) (key : list N) (db : gmap (list N) Entry) : Z :=
  match get now key db with
  | None => -2
  | Some e =>
      match expireAt e with
      | None => -1
      | Some t => (t - now + 500) / 1000
      end
  end.

(** [EXPIRE key seconds]; a timeout that is not positive deletes the key. *)
Definition EXPIRE (now : Z) (key : list N) (seconds : Z)
    (db : gmap (list N) Entry) : gmap (list N) Entry :=
  match get now key db with
  | None => db
  | Some e =>
      if seconds <=? 0 then delete key db
      else <[key := mkEntry (value e) (Some (now + 1000 * seconds))]> db
  end.

End Redis.

Module Runtime.
Import JS Database.

(** An object held by the bucket. *)
Record StoredObject := mkStoredObject {
  so_body : list N;
  so_contentType : list N;
  so_contentDisposition : option (list N);
  so_owner : list N
}.

Inductive Action := uploaded | deleted.

(** [MediaEventPayload] of [publisher.ts] *)
Record MediaEventPayload := mkEvent {
  ev_id : list N;
  ev_ownerId : list N;
  ev_storedKey : list N;
  ev_action : Action;
  ev_timestamp : list N
}.

(** The calls a handler makes to its collaborators. *)
Inductive Call :=
| PgInsert (ident : list N)
| PgList
| PgGetById (ident : list N)
| PgSoftDelete (ident : list N)
| S3Put (key : list N)
| S3Delete (key : list N)
| S3SignGet (key : list N)
| S3SignPut (key : list N)
| RedisPublish (channel : list N) (payload : MediaEventPayload)
| RedisMulti (key : list N)
| RedisExpire (key : list N).

(** A call that completed, or one that raised. *)
Inductive Logged := Done (c : Call) | Failed (c : Call).

Record World := mkWorld {
  media_objects : list MediaObject;
  bucket : gmap (list N) StoredObject;
  published : list (list N * MediaEventPayload);
  redis : gmap (list N) Redis.Entry;
  clock : Z;
  uuids_drawn : nat;
  calls : list Logged
}.

Definition set_media_objects (t : list MediaObject) (w : World) : World :=
  mkWorld t (bucket w) (published w) (redis w) (clock w) (uuids_drawn w) (calls w).
Definition set_bucket (b : gmap (list N) StoredObject) (w : World) : World :=
  mkWorld (media_objects w) b (published w) (redis w) (clock w) (uuids_drawn w) (calls w).
Definition set_published (p : list (list N * MediaEventPayload)) (w : World) : World :=
  mkWorld (media_objects w) (bucket w) p (redis w) (clock w) (uuids_drawn w) (calls w).
Definition set_redis (r : gmap (list N) Redis.Entry) (w : World) : World :=
  mkWorld (media_objects w) (bucket w) (published w) r (clock w) (uuids_drawn w) (calls w).
Definition set_uuids_drawn (n : nat) (w : World) : World :=
  mkWorld (media_objects w) (bucket w) (published w) (redis w) (clock w) n (calls w).
Definition log (l : Logged) (w : World) : World :=
  mkWorld (media_objects w) (bucket w) (published w) (redis w) (clock w)
    (uuids_drawn w) (calls w ++ [l]).

(** Which collaborator calls raise, and with what message: any function
    of the state reached and of the call. *)
Class Faults := { fault : World -> Call -> option (list N) }.

(** A thrown [Error], with the [statusCode] some throw sites attach. *)
Record JsError := mkError { message : list N; statusCode : option Z }.

Inductive Outcome (A : Type) :=
| Returned (a : A)
| Thrown (e : JsError).
Arguments Returned {A} a.
Arguments Thrown {A} e.

(** Handlers thread the world and may throw. *)
Definition M (A : Type) : Type := World -> Outcome A * World.

Definition ret {A} (a : A) : M A := fun w => (Returned a, w).
Definition throw {A} (e : JsError) : M A := fun w => (Thrown e, w).
Definition bind {A B} (m : M A) (k : A -> M B) : M B :=
  fun w =>
    match m w with
    | (Returned a, w') => k a w'
    | (Thrown e, w') => (Thrown e, w')
    end.

(** A pure computation that may raise an [Error(msg)]. *)
Definition lift_sum {A} (r : A + list N) : M A :=
  match r with
  | inl a => ret a
  | inr msg => throw (mkError msg None)
  end.

End Runtime.

Declare Scope handler_scope.
Delimit Scope handler_scope with handler.
Notation "x <- m ;; k" := (Runtime.bind m (fun x => k))
  (at level 100, m at next level, right associativity) : handler_scope.
Notation "m ;;; k" := (Runtime.bind m (fun _ => k))
  (at level 100, right associativity) : handler_scope.

Module Collaborators.
Import JS Database Runtime.
Local Open Scope handler_scope.

Section WithEnvironment.
Context `{Builtins} `{Config} `{Faults}.

(** One collaborator call: it raises when the fault oracle says so,
    otherwise [effect] runs; either way the call is logged. *)
Definition perform {A} (c : Call) (effect : World -> Outcome A * World)
  : M A :=
  fun w =>
    match fault w c with
    | Some msg => (Thrown (mkError msg None), log (Failed c) w)
    | None =>
        match effect w with
        | (Returned a, w') => (Returned a, log (Done c) w')
        | (Thrown e, w') => (Thrown e, log (Failed c) w')
        end
    end.

(** [uuid()] *)
Definition uuid : M (list N) :=
  fun w => (Returned (uuid_v4 (uuids_drawn w)),
            set_uuids_drawn (S (uuids_drawn w)) w).

(** [new Date().toISOString()] *)
Definition now_iso : M (list N) :=
  fun w => (Returned (Date_toISOString (clock w)), w).

(** *** [services/storage.ts] *)

Definition uploadObject (key body contentType : list N)
    (contentDisposition : option (list N)) (owner : list N) : M unit :=
  perform (S3Put key) (fun w =>
    (Returned tt,
     set_bucket
       (<[key := mkStoredObject body contentType contentDisposition owner]>
          (bucket w)) w)).

Definition deleteObject (key : list N) : M unit :=
  perform (S3Delete key) (fun w =>
    (Returned tt, set_bucket (delete key (bucket w)) w)).

Definition generatePresignedUploadUrl (key contentType : list N)
    (expiresIn : Z) : M (list N) :=
  perform (S3SignPut key) (fun w =>
    (Returned (sign_put key contentType expiresIn), w)).

Definition generatePresignedDownloadUrl (key : list N) (expiresIn : Z)
    (responseContentDisposition : option (list N)) : M (list N) :=
  perform (S3SignGet key) (fun w =>
    (Returned (sign_get key responseContentDisposition expiresIn), w)).

Definition buildPublicUrl (key : list N) : list N + list N :=
  if truthy_opt cdnBaseUrl then
    inl (strip_trailing_slash (default [] cdnBaseUrl) ++ lit "/" ++ key)
  else if truthy_opt storage_endpoint then
    match encodeURI key with
    | inl enc =>
        inl (strip_trailing_slash (default [] storage_endpoint)
             ++ lit "/" ++ storage_bucket ++ lit "/" ++ enc)
    | inr e => inr e
    end
  else
    inl (lit "https://" ++ storage_bucket ++ lit ".s3." ++ storage_region
         ++ lit ".amazonaws.com/" ++ key).

(** *** [services/database.ts], run against the world's table *)

Definition db_createMediaObject (input : CreateMediaObjectInput)
  : M MediaObject :=
  perform (PgInsert (in_id input)) (fun w =>
    match createMediaObject (clock w) input (media_objects w) with
    | Some (row, tbl) => (Returned row, set_media_objects tbl w)
    | None =>
        (Thrown (mkError
           (lit "duplicate key value violates unique constraint") None), w)
    end).

Definition db_listMediaObjects (params : ListParams) : M ListResult :=
  fun w =>
    match listMediaObjects params (media_objects w) with
    | inr msg => (Thrown (mkError msg None), w)
    | inl r => perform PgList (fun w' => (Returned r, w')) w
    end.

Definition db_getMediaObjectById (ident : list N) : M (option MediaObject) :=
  perform (PgGetById ident) (fun w =>
    (Returned (getMediaObjectById ident (media_objects w)), w)).

Definition db_softDeleteMediaObject (ident : list N)
  : M (option MediaObject) :=
  perform (PgSoftDelete ident) (fun w =>
    let '(r, tbl) := softDeleteMediaObject (clock w) ident (media_objects w) in
    (Returned r, set_media_objects tbl w)).

(** *** [services/publisher.ts] *)

Definition channel_of (a : Action) : list N :=
  match a with
  | uploaded => lit "photo:uploaded"
  | deleted => lit "photo:deleted"
  end.

Definition publishMediaEvent (payload : MediaEventPayload) : M unit :=
  let channel := channel_of (ev_action payload) in
  perform (RedisPublish channel payload) (fun w =>
    (Returned tt, set_published (published w ++ [(channel, payload)]) w)).

End WithEnvironment.
End Collaborators.

(** ** Rate limiter ([services/rateLimiter.ts]) *)

Module RateLimiter.
Import JS Runtime Collaborators.
Local Open Scope handler_scope.

Section WithEnvironment.
Context `{Builtins} `{Config} `{Faults}.

(** [redis.multi().incr(k).ttl(k).exec()] *)
Definition incr_and_ttl (redisKey : list N) : M (Z * Z) :=
  perform (RedisMulti redisKey) (fun w =>
    let '(n, db) := Redis.INCR (clock w) redisKey (redis w) in
    (Returned (n, Redis.TTL (clock w) redisKey db), set_redis db w)).

(** [redis.expire(k, seconds)] *)
Definition expire (redisKey : list N) (seconds : Z) : M unit :=
  perform (RedisExpire redisKey) (fun w =>
    (Returned tt,
     set_redis (Redis.EXPIRE (clock w) redisKey seconds (redis w)) w)).

(** [RateLimiter.consume] of a limiter built with [windowSeconds] and
    [maxRequests]. *)
Definition consume (windowSeconds maxRequests : Z) (key : list N) : M unit :=
  let redisKey := lit "rate:" ++ key in
  r <- incr_and_ttl redisKey ;;
  let current := num_or (fst r) 0 in
  let ttl := num_or (snd r) (-1) in
  (if (current =? 1) || (ttl <? 0)
   then expire redisKey windowSeconds else ret tt) ;;;
  if maxRequests <? current
  then throw (mkError (lit "RATE_LIMITED") None)
  else ret tt.

(** The exported [rateLimiter]. *)
Definition rateLimiter (key : list N) : M unit :=
  consume rateLimit_windowSeconds rateLimit_maxRequests key.

End WithEnvironment.
End RateLimiter.

(** ** Request handlers ([routes/media.ts]) *)

Module Routes.
Import JS Filename Database Runtime Collaborators.
Local Open Scope handler_scope.

Record User := mkUser { user_id : list N; user_role : list N }.

(** [Express.Multer.File] *)
Record File := mkFile {
  originalname : option (list N);
  mimetype : list N;
  size : Z;
  buffer : list N
}.

(** What [upload.fields(...)] hands over, or the error it reports. *)
Inductive Multipart :=
| MulterParsed (field_file field_files : list File) (req_file : option File)
| MulterLimitFileSize
| MulterOtherError (msg : list N)
| MulterFailure (e : JsError).

(** The raw query of [GET /media], before [listSchema]. *)
Inductive RawLimit := LimitAbsent | LimitInteger (n : Z) | LimitInvalid.
Inductive RawScope := ScopeAbsent | ScopeSelf | ScopeAll | ScopeInvalid.
Inductive Scope := self | all.

Record PresignBody := mkPresignBody {
  body_fileName : list N;
  body_mimeType : list N;
  body_sizeBytes : Z
}.

(** A request past [authMiddleware].  [presign_true] and [purge_true]
    are the tests [String(req.query.x).toLowerCase() === 'true']; a body
    that is not an object of one string, one string and one integer is
    [None]. *)
Record Request := mkRequest {
  req_user : option User;
  param_id : list N;
  query_limit : RawLimit;
  query_cursor : option (list N);
  query_scope : RawScope;
  presign_true : bool;
  purge_true : bool;
  req_body : option PresignBody;
  multipart : Multipart
}.

Record UploadedItem := mkUploadedItem {
  item_record : MediaObject;
  item_url : list N
}.

Record FailedEntry := mkFailedEntry {
  fileName : option (list N);
  failure_message : list N
}.

Record ListedItem := mkListedItem {
  listed_record : MediaObject;
  listed_url : option (list N)
}.

(** The JSON bodies the routes send. *)
Inductive Body :=
| JsonMessage (msg : list N)
| JsonSchemaError
| JsonUploadRejected (msg : list N) (failed : list FailedEntry)
| JsonUploaded (item : UploadedItem)
| JsonUploadBatch (uploaded_items : list UploadedItem) (failed : list FailedEntry)
| JsonPresigned (ident uploadUrl key : list N) (expiresIn : Z)
    (owner mime : list N) (bytes : Z)
| JsonList (listed : list ListedItem) (next : option (list N))
| JsonMedia (media : MediaObject) (url presignedUrl : option (list N))
| ExpressNotFound.

Record Response := mkResponse { res_status : Z; res_body : Body }.

Section WithEnvironment.
Context `{Builtins} `{Config} `{Faults}.

(** [ensureUser] *)
Definition ensureUser (req : Request) : M User :=
  match req_user req with
  | Some u => ret u
  | None => throw (mkError (lit "Unauthorized") (Some 401))
  end.

(** [allowedMimeTypes], a [Set] built from the configured list *)
Definition allowedMimeTypeSet : list (list N) := set_of allowedMimeTypes [].

(** [assertMimeType] *)
Definition assertMimeType (mime : list N) : M unit :=
  if bool_decide (mime ∈ allowedMimeTypeSet) then ret tt
  else throw (mkError
         (lit "Unsupported mime type. Allowed: "
          ++ join (lit ", ") allowedMimeTypeSet) (Some 400)).

(** The content disposition both download paths compute from the
    stored display name. *)
Definition dispositionFor (originalName : list N) : list N + list N :=
  buildContentDisposition originalName
    (buildAsciiFallbackFilename originalName
       (extensionFrom (lit "application/octet-stream") (Some originalName))).

(** [buildDownloadUrl] *)
Definition buildDownloadUrl (key : list N) (originalName : option (list N))
  : M (list N) :=
  if publicRead && truthy_opt cdnBaseUrl then lift_sum (buildPublicUrl key)
  else
    responseContentDisposition <-
      (match originalName with
       | Some n =>
           if truthy n then
             d <- lift_sum (dispositionFor n) ;; ret (Some d)
           else ret None
       | None => ret None
       end) ;;
    generatePresignedDownloadUrl key presignExpirationSeconds
      responseContentDisposition.

(** The image probe of the upload loop, with its own [try]/[catch]. *)
Definition probeImage (file : File) : M ImageMetadata :=
  match sharp_metadata (buffer file) with
  | inl metadata => ret metadata
  | inr details =>
      throw (mkError
        (if streq nodeEnv (lit "production") then lit "Invalid image file"
         else lit "Invalid image file: " ++ details) None)
  end.

(** The body of the [try] block of the upload loop, for one file. *)
Definition storeFile (user : User) (file : File) : M MediaObject :=
  assertMimeType (mimetype file) ;;;
  metadata <- probeImage file ;;
  ident <- uuid ;;
  let originalNameRaw := default (lit "unknown") (originalname file) in
  let originalName := normalizeUploadFilename originalNameRaw in
  let extension := extensionFrom (mimetype file) (Some originalName) in
  let key := buildObjectKey (user_id user) ident extension in
  let fallbackFilename := buildAsciiFallbackFilename originalName extension in
  contentDisposition <-
    lift_sum (buildContentDisposition originalName fallbackFilename) ;;
  uploadObject key (buffer file) (mimetype file) (Some contentDisposition)
    (user_id user) ;;;
  db_createMediaObject
    (mkCreateInput ident (user_id user) originalName key (mimetype file)
       (size file) (meta_width metadata) (meta_height metadata)).

Definition announceUpload (record : MediaObject) : M unit :=
  timestamp <- now_iso ;;
  publishMediaEvent
    (mkEvent (id record) (ownerId record) (storedKey record) uploaded timestamp).

Definition uploadOne (user : User) (file : File) : M UploadedItem :=
  record <- storeFile user file ;;
  announceUpload record ;;;
  downloadUrl <- buildDownloadUrl (storedKey record) (Some (originalName record)) ;;
  ret (mkUploadedItem record downloadUrl).

(** The [for (const file of files)] loop with its [catch]. *)
Fixpoint uploadLoop (user : User) (files : list File)
    (uploaded_items : list UploadedItem) (failed : list FailedEntry) (w : World)
  : list UploadedItem * list FailedEntry * World :=
  match files with
  | [] => (uploaded_items, failed, w)
  | file :: rest =>
      match uploadOne user file w with
      | (Returned item, w') =>
          uploadLoop user rest (uploaded_items ++ [item]) failed w'
      | (Thrown error, w') =>
          uploadLoop user rest uploaded_items
            (failed ++ [mkFailedEntry (originalname file) (message error)]) w'
      end
  end.

(** The files gathered from [req.files] and [req.file]. *)
Definition gatherFiles (field_file field_files : list File)
    (req_file : option File) : list File :=
  (match field_file with f :: _ => [f] | [] => [] end)
  ++ field_files
  ++ (match req_file with Some f => [f] | None => [] end).

(** The shape of the upload response. *)
Definition uploadResponse (uploaded_items : list UploadedItem)
    (failed : list FailedEntry) : Response :=
  match uploaded_items with
  | [] =>
      let first :=
        match failed with
        | f :: _ => if truthy (failure_message f) then failure_message f
                    else lit "Upload failed"
        | [] => lit "Upload failed"
        end in
      mkResponse 400 (JsonUploadRejected first failed)
  | [item] =>
      match failed with
      | [] => mkResponse 201 (JsonUploaded item)
      | _ :: _ => mkResponse 201 (JsonUploadBatch uploaded_items failed)
      end
  | _ :: _ :: _ => mkResponse 201 (JsonUploadBatch uploaded_items failed)
  end.

(** Handler of [POST /media/upload]. *)
Definition uploadHandler (req : Request) : M Response :=
  user <- ensureUser req ;;
  let files :=
    match multipart req with
    | MulterParsed field_file field_files req_file =>
        gatherFiles field_file field_files req_file
    | _ => []
    end in
  match files with
  | [] => ret (mkResponse 400 (JsonMessage (lit "file field is required")))
  | _ :: _ =>
      fun w =>
        let '(uploaded_items, failed, w') := uploadLoop user files [] [] w in
        (Returned (uploadResponse uploaded_items failed), w')
  end.

(** [presignSchema.safeParse] *)
Definition presignSchema (body : option PresignBody) : option PresignBody :=
  match body with
  | Some b =>
      if truthy (body_fileName b) && truthy (body_mimeType b)
         && (0 <? body_sizeBytes b)
      then Some b else None
  | None => None
  end.

(** Handler of [POST /media/presign]. *)
Definition presignHandler (req : Request) : M Response :=
  user <- ensureUser req ;;
  match presignSchema (req_body req) with
  | None => ret (mkResponse 400 JsonSchemaError)
  | Some data =>
      assertMimeType (body_mimeType data) ;;;
      if maxUploadBytes <? body_sizeBytes data then
        ret (mkResponse 400 (JsonMessage (lit "File exceeds size limit")))
      else
        uploadId <- uuid ;;
        let extension :=
          extensionFrom (body_mimeType data) (Some (body_fileName data)) in
        let key := buildObjectKey (user_id user) uploadId extension in
        uploadUrl <- generatePresignedUploadUrl key (body_mimeType data)
                       presignExpirationSeconds ;;
        ret (mkResponse 201
               (JsonPresigned uploadId uploadUrl key presignExpirationSeconds
                  (user_id user) (body_mimeType data) (body_sizeBytes data)))
  end.

(** [listSchema.safeParse]: limit 1..50 (default 20), scope (default
    self). *)
Definition listSchema (req : Request) : option (nat * option (list N) * Scope) :=
  let limit :=
    match query_limit req with
    | LimitAbsent => Some 20%nat
    | LimitInteger n =>
        if (1 <=? n) && (n <=? 50) then Some (Z.to_nat n) else None
    | LimitInvalid => None
    end in
  let scope :=
    match query_scope req with
    | ScopeAbsent | ScopeSelf => Some self
    | ScopeAll => Some all
    | ScopeInvalid => None
    end in
  match limit, scope with
  | Some l, Some s => Some (l, query_cursor req, s)
  | _, _ => None
  end.

Definition is_admin (u : User) : bool := streq (user_role u) (lit "ADMIN").

(** The [url] field of a listed or fetched record. *)
Definition urlOf (item : MediaObject) : M (option (list N)) :=
  match status item with
  | ACTIVE =>
      u <- buildDownloadUrl (storedKey item) (Some (originalName item)) ;;
      ret (Some u)
  | DELETED => ret None
  end.

(** [Promise.all(result.items.map(async (item) => ...))], the items
    resolved in order. *)
Fixpoint itemsWithUrls (rows : list MediaObject) : M (list ListedItem) :=
  match rows with
  | [] => ret []
  | item :: rest =>
      url <- urlOf item ;;
      others <- itemsWithUrls rest ;;
      ret (mkListedItem item url :: others)
  end.

(** Handler of [GET /media]. *)
Definition listHandler (req : Request) : M Response :=
  user <- ensureUser req ;;
  match listSchema req with
  | None => ret (mkResponse 400 JsonSchemaError)
  | Some (limit, cursor, scope) =>
      let owner :=
        match scope with
        | self => Some (user_id user)
        | all => if is_admin user then None else Some (user_id user)
        end in
      let includeDeleted :=
        match scope with all => is_admin user | self => false end in
      result <- db_listMediaObjects
                  (mkListParams owner limit cursor includeDeleted) ;;
      listed <- itemsWithUrls (items result) ;;
      ret (mkResponse 200 (JsonList listed (nextCursor result)))
  end.

(** Handler of [GET /media/:id]. *)
Definition getHandler (req : Request) : M Response :=
  user <- ensureUser req ;;
  found <- db_getMediaObjectById (param_id req) ;;
  match found with
  | None => ret (mkResponse 404 (JsonMessage (lit "Not found")))
  | Some media =>
      if negb (streq (ownerId media) (user_id user)) && negb (is_admin user)
      then ret (mkResponse 403 (JsonMessage (lit "Forbidden")))
      else
        presignedUrl <-
          (if presign_true req then
             responseContentDisposition <-
               lift_sum (dispositionFor (originalName media)) ;;
             u <- generatePresignedDownloadUrl (storedKey media)
                    presignExpirationSeconds
                    (Some responseContentDisposition) ;;
             ret (Some u)
           else ret None) ;;
        url <- urlOf media ;;
        ret (mkResponse 200 (JsonMedia media url presignedUrl))
  end.

(** Handler of [DELETE /media/:id]. *)
Definition deleteHandler (req : Request) : M Response :=
  user <- ensureUser req ;;
  found <- db_getMediaObjectById (param_id req) ;;
  match found with
  | None => ret (mkResponse 404 (JsonMessage (lit "Not found")))
  | Some target =>
      if negb (streq (ownerId target) (user_id user)) && negb (is_admin user)
      then ret (mkResponse 403 (JsonMessage (lit "Forbidden")))
      else
        removed <- db_softDeleteMediaObject (id target) ;;
        (match removed with
         | Some record =>
             timestamp <- now_iso ;;
             publishMediaEvent
               (mkEvent (id record) (ownerId record) (storedKey record)
                  deleted timestamp)
         | None => ret tt
         end) ;;;
        (if purge_true req then deleteObject (storedKey target) else ret tt) ;;;
        ret (mkResponse 200 (JsonMessage (lit "Deleted")))
  end.

End WithEnvironment.
End Routes.

(** ** Middleware and the route table *)

Module Router.
Import JS Runtime Collaborators Routes.
Local Open Scope handler_scope.

Inductive Method := GET | POST | DELETE.

(** The path patterns registered on the router. *)
Inductive Pattern :=
| path_media_upload     (* /media/upload  *)
| path_media_presign    (* /media/presign *)
| path_media            (* /media         *)
| path_media_id.        (* /media/:id     *)

Inductive Middleware := rateLimitMiddleware | uploadMultipleFiles.

Inductive Handler :=
| upload_handler | presign_handler | list_handler | get_handler | delete_handler.

Record Route := mkRoute {
  route_method : Method;
  route_pattern : Pattern;
  route_chain : list Middleware;
  route_handler : Handler
}.

(** The five [router.<method>(path, ...)] registrations, in order. *)
Definition routes : list Route :=
  [ mkRoute POST path_media_upload [rateLimitMiddleware; uploadMultipleFiles]
      upload_handler;
    mkRoute POST path_media_presign [rateLimitMiddleware] presign_handler;
    mkRoute GET path_media [] list_handler;
    mkRoute GET path_media_id [] get_handler;
    mkRoute DELETE path_media_id [rateLimitMiddleware] delete_handler ].

Definition method_eqb (a b : Method) : bool :=
  match a, b with
  | GET, GET | POST, POST | DELETE, DELETE => true
  | _, _ => false
  end.

Definition pattern_eqb (a b : Pattern) : bool :=
  match a, b with
  | path_media_upload, path_media_upload
  | path_media_presign, path_media_presign
  | path_media, path_media
  | path_media_id, path_media_id => true
  | _, _ => false
  end.

Definition middleware_eqb (a b : Middleware) : bool :=
  match a, b with
  | rateLimitMiddleware, rateLimitMiddleware
  | uploadMultipleFiles, uploadMultipleFiles => true
  | _, _ => false
  end.

Definition uses_rate_limiter (r : Route) : bool :=
  existsb (middleware_eqb rateLimitMiddleware) (route_chain r).

Section WithEnvironment.
Context `{Builtins} `{Config} `{Faults}.

(** [rateLimitMiddleware] of [middleware/rateLimit.ts]: [None] is
    [next()], a thrown error is [next(error)]. *)
Definition run_rateLimitMiddleware (req : Request) : M (option Response) :=
  let userId :=
    match req_user req with
    | Some u => user_id u
    | None => lit "anonymous"
    end in
  fun w =>
    match RateLimiter.rateLimiter userId w with
    | (Returned _, w') => (Returned None, w')
    | (Thrown error, w') =>
        if streq (message error) (lit "RATE_LIMITED")
        then (Returned
                (Some (mkResponse 429 (JsonMessage (lit "Too many requests")))),
              w')
        else (Thrown error, w')
    end.

(** [uploadMultipleFiles] *)
Definition run_uploadMultipleFiles (req : Request) : M (option Response) :=
  match multipart req with
  | MulterParsed _ _ _ => ret None
  | MulterLimitFileSize =>
      ret (Some (mkResponse 413
             (JsonMessage (lit "File exceeds size limit ("
                           ++ Number_toString maxUploadBytes
                           ++ lit " bytes)"))))
  | MulterOtherError msg => ret (Some (mkResponse 400 (JsonMessage msg)))
  | MulterFailure e => throw e
  end.

Definition run_middleware (m : Middleware) (req : Request)
  : M (option Response) :=
  match m with
  | rateLimitMiddleware => run_rateLimitMiddleware req
  | uploadMultipleFiles => run_uploadMultipleFiles req
  end.

Definition run_handler (h : Handler) (req : Request) : M Response :=
  match h with
  | upload_handler => uploadHandler req
  | presign_handler => presignHandler req
  | list_handler => listHandler req
  | get_handler => getHandler req
  | delete_handler => deleteHandler req
  end.

(** A route's chain: each middleware answers or passes on. *)
Fixpoint run_chain (chain : list Middleware) (h : Handler) (req : Request)
  : M Response :=
  match chain with
  | [] => run_handler h req
  | m :: rest =>
      answered <- run_middleware m req ;;
      match answered with
      | Some response => ret response
      | None => run_chain rest h req
      end
  end.

(** [errorHandler] of [middleware/errorHandler.ts] *)
Definition errorHandler (err : JsError) : Response :=
  mkResponse (default 500 (statusCode err))
    (JsonMessage (if truthy (message err) then message err
                  else lit "Internal server error")).

(** The router followed by the error handler, for a request whose
    method and path matched [pattern]. *)
Definition serve (method : Method) (pattern : Pattern) (req : Request)
  : World -> Response * World :=
  fun w =>
    match List.find (fun r => method_eqb (route_method r) method
                              && pattern_eqb (route_pattern r) pattern) routes with
    | None => (mkResponse 404 ExpressNotFound, w)
    | Some r =>
        match run_chain (route_chain r) (route_handler r) req w with
        | (Returned response, w') => (response, w')
        | (Thrown err, w') => (errorHandler err, w')
        end
    end.

End WithEnvironment.
End Router.

(** ** A concrete environment for running the model

    ASCII-only stand-ins for the platform functions, used to evaluate the
    handlers on concrete requests.  Timestamps print as decimal
    milliseconds. *)

Module Sample.
Import JS Database Runtime Routes.

Definition text_of (s : list N) : string :=
  string_of_list_ascii (ascii_of_N <$> s).

Definition decimal (z : Z) : list N :=
  lit (NilZero.string_of_int (Z.to_int z)).

Definition parse_decimal (s : list N) : option Z :=
  Z.of_int <$> NilZero.int_of_string (text_of s).

Definition lower (c : N) : N := if is_upper c then (c + 32)%N else c.

(** Index of the last [c] in [s]. *)
Fixpoint last_index (c : N) (s : list N) (i : nat) (found : option nat)
  : option nat :=
  match s with
  | [] => found
  | x :: s' =>
      last_index c s' (S i) (if (x =? c)%N then Some i else found)
  end.

Definition last_segment (p : list N) : list N :=
  match last_index 47 p 0 None with
  | Some i => drop (S i) p
  | None => p
  end.

(** Extension of a file name without trailing slash: from the last dot
    of the last segment, unless that dot leads the segment. *)
Definition extname (p : list N) : list N :=
  let seg := last_segment p in
  match last_index 46 seg 0 None with
  | Some (S i) => drop (S i) seg
  | _ => []
  end.

Definition basename (p suffix : list N) : list N :=
  let seg := last_segment p in
  let n := (length seg - length suffix)%nat in
  if truthy suffix && bool_decide (drop n seg = suffix)
     && negb (bool_decide (seg = suffix))
  then take n seg else seg.

#[export] Instance builtins : Builtins := {|
  String_normalize_NFKD := fun s => s;
  String_toLowerCase := fun s => lower <$> s;
  path_extname := extname;
  path_basename := basename;
  encodeURIComponent := fun s => inl s;
  encodeURI := fun s => inl s;
  Buffer_latin1_as_utf8 := fun s => s;
  Date_parse := parse_decimal;
  Date_toISOString := decimal;
  sharp_metadata := fun b =>
    match b with
    | [] => inr (lit "Input Buffer is empty")
    | _ :: _ => inl (mkImageMetadata (Some 1) (Some 1))
    end;
  Number_toString := decimal;
  uuid_v4 := fun n => lit "id-" ++ decimal (Z.of_nat n);
  sign_get := fun key _ _ => lit "https://s3.test/" ++ key ++ lit "?X-Amz-Signature=get";
  sign_put := fun key _ _ => lit "https://s3.test/" ++ key ++ lit "?X-Amz-Signature=put"
|}.

(** Window of 10 s, at most 2 requests; signed URLs. *)
#[export] Instance config : Config := {|
  nodeEnv := lit "production";
  publicRead := false;
  cdnBaseUrl := None;
  storage_endpoint := None;
  storage_bucket := lit "media-uploads";
  storage_region := lit "us-east-1";
  presignExpirationSeconds := 900;
  rateLimit_windowSeconds := 10;
  rateLimit_maxRequests := 2;
  maxUploadBytes := 10485760;
  allowedMimeTypes :=
    [lit "image/jpeg"; lit "image/png"; lit "image/webp"; lit "image/gif";
     lit "image/avif"]
|}.

(** No collaborator call fails. *)
Definition healthy : Faults := {| fault := fun _ _ => None |}.

(** Every publish to Redis fails; everything else works. *)
Definition publisher_down : Faults := {|
  fault := fun _ c =>
    match c with
    | RedisPublish _ _ => Some (lit "Connection is closed.")
    | _ => None
    end
|}.

Definition empty_world : World := mkWorld [] ∅ [] ∅ 0 0 [].

Definition alice : User := mkUser (lit "alice") (lit "USER").

Definition photo (name mime : string) : File :=
  mkFile (Some (lit name)) (lit mime) 3 [255; 216; 255]%N.

Definition row (ident owner : string) (st : MediaStatus) (at_ms : Z)
  : MediaObject :=
  mkMediaObject (lit ident) (lit owner) (lit (ident ++ ".png"))
    (lit ("uploads/" ++ owner ++ "/" ++ ident ++ ".png")) (lit "image/png")
    3 (Some 1) (Some 1) st at_ms
    (match st with DELETED => Some (at_ms + 1) | ACTIVE => None end).

Definition request (u : User) : Request :=
  mkRequest (Some u) [] LimitAbsent None ScopeAbsent false false None
    (MulterParsed [] [] None).

End Sample.

(** ** Allowed MIME types of the environment ([config.ts]) *)

Module Settings.
Import JS.

(** White space and line terminators, the code units
    [String.prototype.trim] removes. *)
Definition is_space (c : N) : bool :=
  ((9 <=? c) && (c <=? 13) || (c =? 32) || (c =? 160) || (c =? 5760)
   || (8192 <=? c) && (c <=? 8202) || (c =? 8232) || (c =? 8233)
   || (c =? 8239) || (c =? 8287) || (c =? 12288) || (c =? 65279))%N.

Fixpoint drop_leading_space (s : list N) : list N :=
  match s with
  | [] => []
  | c :: s' => if is_space c then drop_leading_space s' else s
  end.

(** [s.trim()]. *)
Definition trim (s : list N) : list N :=
  rev (drop_leading_space (rev (drop_leading_space s))).

(** [s.split(sep)] for a separator of one code unit: the pieces between
    the separators, empty ones included. *)
Fixpoint split (sep : N) (s : list N) : list (list N) :=
  match s with
  | [] => [[]]
  | c :: s' =>
      if (c =? sep)%N then [] :: split sep s'
      else
        match split sep s' with
        | piece :: pieces => (c :: piece) :: pieces
        | [] => [[c]]
        end
  end.

Definition DEFAULT_ALLOWED_TYPES : list (list N) :=
  [lit "image/jpeg"; lit "image/png"; lit "image/webp"; lit "image/gif";
   lit "image/avif"].

(** [allowedTypes]: the value of [ALLOWED_MIME_TYPES], split at commas,
    each piece trimmed, empty pieces dropped; the default list when the
    variable is not set. *)
Definition allowedTypes (ALLOWED_MIME_TYPES : option (list N))
  : list (list N) :=
  match ALLOWED_MIME_TYPES with
  | Some raw => List.filter truthy (trim <$> split 44 raw)
  | None => DEFAULT_ALLOWED_TYPES
  end.

End Settings.

(** ** Authentication middleware ([middleware/auth.ts]) and the
    application's pipeline ([server.ts]) *)

Module Auth.
Import JS Runtime Routes Router.

(** The claims [authMiddleware] reads from a verified token;
    [payload.sub as string] is taken to be the string it is cast to. *)
Record JwtPayload := mkJwtPayload {
  payload_sub : list N;
  payload_role : option (list N)
}.

(** The [jwt] section of the configuration, [jwt.verify] with the
    options the middleware passes ([None] when it throws), and
    [String.prototype.toUpperCase]. *)
Class AuthEnvironment := {
  jwt_publicKey : option (list N);
  jwt_audience : option (list N);
  jwt_issuer : option (list N);
  jwt_verify : list N -> list N -> option (list N) -> option (list N)
               -> option JwtPayload;
  String_toUpperCase : list N -> list N
}.

(** The three headers the middleware reads. *)
Record Headers := mkHeaders {
  x_user_id : option (list N);
  x_user_role : option (list N);
  authorization : option (list N)
}.

(** [next()] with [req.user] set, or the response sent instead. *)
Inductive AuthResult :=
| Next (user : User)
| Rejected (response : Response).

Section WithEnvironment.
Context `{Builtins} `{AuthEnvironment}.

(** [extractToken] *)
Definition extractToken (authorizationHeader : option (list N))
  : option (list N) :=
  if negb (truthy_opt authorizationHeader) then None
  else
    let pieces := Settings.split 32 (default [] authorizationHeader) in
    let scheme := pieces !! 0%nat in
    let token := pieces !! 1%nat in
    if negb (bool_decide (String_toLowerCase <$> scheme = Some (lit "bearer")))
       || negb (truthy_opt token)
    then None
    else token.

(** [authMiddleware] *)
Definition authMiddleware (headers : Headers) : AuthResult :=
  let xUserId := x_user_id headers in
  let xUserRole := default (lit "USER") (x_user_role headers) in
  if negb (truthy_opt xUserId) && truthy_opt jwt_publicKey then
    match extractToken (authorization headers) with
    | None =>
        Rejected (mkResponse 401 (JsonMessage (lit "Missing authorization")))
    | Some token =>
        match jwt_verify token (default [] jwt_publicKey) jwt_audience
                jwt_issuer with
        | Some payload =>
            Next (mkUser (payload_sub payload)
                    (default (lit "USER") (payload_role payload)))
        | None =>
            Rejected (mkResponse 401 (JsonMessage (lit "Invalid token")))
        end
    end
  else if negb (truthy_opt xUserId) then
    Rejected (mkResponse 401 (JsonMessage (lit "Missing x-user-id header")))
  else
    Next (mkUser (default [] xUserId) (String_toUpperCase xUserRole)).

(** [req.user = ...] *)
Definition with_user (user : User) (req : Request) : Request :=
  mkRequest (Some user) (param_id req) (query_limit req) (query_cursor req)
    (query_scope req) (presign_true req) (purge_true req) (req_body req)
    (multipart req).

Context `{Config} `{Faults}.

(** [app.use(authMiddleware); app.use(mediaRouter);
    app.use(errorHandler)], for a request whose method and path matched
    [pattern]. *)
Definition app (method : Method) (pattern : Pattern) (headers : Headers)
    (req : Request) : World -> Response * World :=
  fun w =>
    match authMiddleware headers with
    | Rejected response => (response, w)
    | Next user => serve method pattern (with_user user req) w
    end.

End WithEnvironment.
End Auth.

(** * Properties *)

(** ** Key builder and filename normaliser *)

Module FilenameFacts.
Import JS Filename.

(** Two strings that agree beyond the first occurrence of a separator
    agree before it too. *)
Lemma split_at_first (c : N) (x y a b : list N) :
  c ∉ x -> c ∉ y -> x ++ c :: a = y ++ c :: b -> x = y /\ a = b.
Proof.
  revert y. induction x as [|h x IH]; intros [|k y] Hx Hy E; simpl in E.
  - by inversion E.
  - inversion E; subst. exfalso. apply Hy. by left.
  - inversion E; subst. exfalso. apply Hx. by left.
  - inversion E; subst.
    destruct (IH y) as [-> ->]; [| |done|done].
    + intros ?. apply Hx. by right.
    + intros ?. apply Hy. by right.
Qed.

(** The same, cutting at the last occurrence. *)
Lemma split_at_last (c : N) (x y a b : list N) :
  c ∉ a -> c ∉ b -> x ++ c :: a = y ++ c :: b -> x = y /\ a = b.
Proof.
  intros Ha Hb E.
  apply (f_equal (@rev N)) in E. rewrite !rev_app_distr in E. simpl in E.
  rewrite <- !app_assoc in E. simpl in E.
  apply split_at_first in E as [E1 E2].
  - split.
    + by rewrite <- (rev_involutive x), E2, rev_involutive.
    + by rewrite <- (rev_involutive a), E1, rev_involutive.
  - by rewrite list_elem_of_In, <- in_rev, <- list_elem_of_In.
  - by rewrite list_elem_of_In, <- in_rev, <- list_elem_of_In.
Qed.

Definition suffix_of (extension : list N) : list N :=
  if truthy extension then lit "." ++ extension else [].

Lemma suffix_of_cases (e : list N) :
  (e = [] /\ suffix_of e = []) \/ (e <> [] /\ suffix_of e = 46%N :: e).
Proof. destruct e; [left|right]; done. Qed.

Lemma buildObjectKey_unfold (u i e : list N) :
  buildObjectKey u i e = lit "uploads" ++ 47%N :: u ++ 47%N :: i ++ suffix_of e.
Proof. reflexivity. Qed.

(** An identifier without dot determines where the suffix starts. *)
Lemma id_and_suffix (i1 i2 e1 e2 : list N) :
  46%N ∉ i1 -> 46%N ∉ i2 ->
  i1 ++ suffix_of e1 = i2 ++ suffix_of e2 -> i1 = i2 /\ e1 = e2.
Proof.
  intros H1 H2 E.
  destruct (suffix_of_cases e1) as [[-> S1]|[N1 S1]],
           (suffix_of_cases e2) as [[-> S2]|[N2 S2]];
    rewrite ?S1, ?S2 in E.
  - rewrite !app_nil_r in E. done.
  - rewrite app_nil_r in E. subst i1. exfalso. apply H1.
    apply elem_of_app. right. by left.
  - rewrite app_nil_r in E. subst i2. exfalso. apply H2.
    apply elem_of_app. right. by left.
  - by apply split_at_first in E.
Qed.

Lemma not_in_suffix (e : list N) : 47%N ∉ e -> 47%N ∉ suffix_of e.
Proof.
  intros He. destruct (suffix_of_cases e) as [[_ ->]|[_ ->]].
  - apply not_elem_of_nil.
  - intros [?|?]%elem_of_cons; [done|by apply He].
Qed.

(** C8 (as the code has it).  For all arguments [buildObjectKey]
    returns [uploads/{ownerId}/{id}], followed by [.{ext}] exactly when
    [ext] is not empty; and when the identifiers contain neither [/] nor
    [.] (as the generated UUIDs do) and the extensions contain no [/],
    equal keys come from equal owner, identifier and extension. *)
Theorem buildObjectKey_format_and_injectivity :
  forall owner1 id1 ext1 owner2 id2 ext2 : list N,
    (ext1 = [] ->
     buildObjectKey owner1 id1 ext1 = lit "uploads/" ++ owner1 ++ lit "/" ++ id1)
    /\ (ext1 <> [] ->
        buildObjectKey owner1 id1 ext1
        = lit "uploads/" ++ owner1 ++ lit "/" ++ id1 ++ lit "." ++ ext1)
    /\ (47%N ∉ id1 -> 46%N ∉ id1 -> 47%N ∉ ext1 ->
        47%N ∉ id2 -> 46%N ∉ id2 -> 47%N ∉ ext2 ->
        buildObjectKey owner1 id1 ext1 = buildObjectKey owner2 id2 ext2 ->
        owner1 = owner2 /\ id1 = id2 /\ ext1 = ext2).
Proof.
  intros u1 i1 e1 u2 i2 e2.
  split; [|split].
  - intros ->. unfold buildObjectKey. simpl. by rewrite app_nil_r.
  - intros Hne. unfold buildObjectKey. by destruct e1.
  - intros Hs1 Hd1 He1 Hs2 Hd2 He2.
    rewrite !buildObjectKey_unfold. intros E.
    apply app_inv_head in E.
    change (47%N :: u1 ++ 47%N :: i1 ++ suffix_of e1)
      with ((47%N :: u1) ++ 47%N :: (i1 ++ suffix_of e1)) in E.
    change (47%N :: u2 ++ 47%N :: i2 ++ suffix_of e2)
      with ((47%N :: u2) ++ 47%N :: (i2 ++ suffix_of e2)) in E.
    apply split_at_last in E as [Eu Ei].
    + inversion Eu; subst. apply id_and_suffix in Ei as [-> ->]; done.
    + intros [?|?%not_in_suffix]%elem_of_app; done.
    + intros [?|?%not_in_suffix]%elem_of_app; done.
Qed.

Lemma buildObjectKey_format_and_injectivity_witness :
  (47%N ∉ lit "0f8fad5b-d9cb") /\ (46%N ∉ lit "0f8fad5b-d9cb")
  /\ (47%N ∉ lit "png")
  /\ (buildObjectKey (lit "alice") (lit "0f8fad5b-d9cb") (lit "png")
      = lit "uploads/alice/0f8fad5b-d9cb.png")
  /\ (buildObjectKey (lit "alice") (lit "0f8fad5b-d9cb") (lit "png")
      = buildObjectKey (lit "alice") (lit "0f8fad5b-d9cb") (lit "png") ->
      lit "alice" = lit "alice").
Proof.
  assert (H1 : 47%N ∉ lit "0f8fad5b-d9cb") by compute_done.
  assert (H2 : 46%N ∉ lit "0f8fad5b-d9cb") by compute_done.
  assert (H3 : 47%N ∉ lit "png") by compute_done.
  destruct (buildObjectKey_format_and_injectivity
              (lit "alice") (lit "0f8fad5b-d9cb") (lit "png")
              (lit "alice") (lit "0f8fad5b-d9cb") (lit "png"))
    as (_ & F & I).
  assert (Hne : lit "png" <> []) by discriminate.
  exact (conj H1 (conj H2 (conj H3
           (conj (F Hne) (fun E => proj1 (I H1 H2 H3 H1 H2 H3 E)))))).
Defined.

(** C8, as stated, fails: an owner and an identifier that share a slash
    differently, or an identifier that already ends in what looks like an
    extension, give the same key. *)
Lemma buildObjectKey_collision :
  buildObjectKey (lit "a/b") (lit "c") (lit "")
  = buildObjectKey (lit "a") (lit "b/c") (lit "")
  /\ (lit "a/b", lit "c") <> (lit "a", lit "b/c")
  /\ buildObjectKey (lit "a") (lit "x.png") (lit "")
     = buildObjectKey (lit "a") (lit "x") (lit "png")
  /\ (lit "a", lit "x.png") <> (lit "a", lit "x").
Proof. repeat split; discriminate. Qed.

(** *** The ASCII fallback name *)

Lemma replace_unsafe_runs_safe (in_run : bool) (s : list N) :
  forallb is_safe (replace_unsafe_runs in_run s) = true.
Proof.
  revert in_run. induction s as [|c s IH]; intros in_run; simpl; [done|].
  destruct (is_safe c) eqn:Hc; simpl.
  - by rewrite Hc, IH.
  - destruct in_run; simpl; by rewrite ?IH.
Qed.

Lemma drop_leading_underscores_safe (s : list N) :
  forallb is_safe s = true -> forallb is_safe (drop_leading_underscores s) = true.
Proof.
  induction s as [|c s IH]; simpl; [done|].
  intros [Hc Hs]%andb_prop. destruct (c =? 95)%N; [by apply IH|].
  simpl. by rewrite Hc, Hs.
Qed.

Lemma forallb_rev (f : N -> bool) (s : list N) :
  forallb f s = true -> forallb f (rev s) = true.
Proof.
  rewrite !forallb_forall. intros Hs x Hx. apply Hs. by apply in_rev.
Qed.

Lemma trim_underscores_safe (s : list N) :
  forallb is_safe s = true -> forallb is_safe (trim_underscores s) = true.
Proof.
  intros Hs. unfold trim_underscores.
  by apply forallb_rev, drop_leading_underscores_safe, forallb_rev,
    drop_leading_underscores_safe.
Qed.

Lemma forallb_take (f : N -> bool) (n : nat) (s : list N) :
  forallb f s = true -> forallb f (take n s) = true.
Proof.
  rewrite !forallb_forall. intros Hs x Hx. apply Hs.
  apply list_elem_of_In. apply list_elem_of_In in Hx.
  by apply (subseteq_take n s).
Qed.

Lemma last_rev (s : list N) : last (rev s) = head s.
Proof. rewrite rev_alt. apply last_reverse. Qed.

Lemma head_rev (s : list N) : head (rev s) = last s.
Proof. rewrite rev_alt. apply head_reverse. Qed.

Lemma drop_leading_underscores_head (s : list N) :
  head (drop_leading_underscores s) <> Some 95%N.
Proof.
  induction s as [|c s IH]; simpl; [done|].
  destruct (c =? 95)%N eqn:Hc; [done|].
  simpl. intros [= ->]. done.
Qed.

Lemma drop_leading_underscores_suffix (s : list N) :
  exists n, drop_leading_underscores s = drop n s.
Proof.
  induction s as [|c s [n IH]]; simpl.
  - by exists 0%nat.
  - destruct (c =? 95)%N; [by exists (S n)|by exists 0%nat].
Qed.

Lemma last_drop_nonempty (n : nat) (s : list N) :
  drop n s <> [] -> last (drop n s) = last s.
Proof.
  revert s. induction n as [|n IH]; intros s Hne; [by rewrite drop_0|].
  destruct s as [|c s]; [done|]. simpl in *.
  rewrite IH by done. destruct s; [by rewrite drop_nil in Hne|done].
Qed.

(** The trimmed name neither starts nor ends with an underscore. *)
Lemma trim_underscores_ends (s : list N) :
  head (trim_underscores s) <> Some 95%N
  /\ last (trim_underscores s) <> Some 95%N.
Proof.
  unfold trim_underscores.
  set (a := drop_leading_underscores s).
  set (b := drop_leading_underscores (rev a)).
  split.
  - rewrite head_rev.
    destruct (drop_leading_underscores_suffix (rev a)) as [n Hn].
    fold b in Hn. destruct b as [|x b'] eqn:Eb; [done|].
    rewrite Hn, last_drop_nonempty by (by rewrite <- Hn).
    rewrite last_rev. apply drop_leading_underscores_head.
  - rewrite last_rev. apply drop_leading_underscores_head.
Qed.

Section Fallback.
Context `{Builtins}.

(** The sanitised base name of [buildAsciiFallbackFilename]. *)
Definition cleaned_base (originalName : list N) : list N :=
  trim_underscores
    (replace_unsafe_runs false
       (String_normalize_NFKD
          (path_basename originalName (path_extname originalName)))).

Lemma cleaned_base_safe (originalName : list N) :
  forallb is_safe (cleaned_base originalName) = true.
Proof. apply trim_underscores_safe, replace_unsafe_runs_safe. Qed.

Lemma existsb_truthy (f : N -> bool) (s : list N) :
  truthy s && existsb f s = existsb f s.
Proof. by destruct s. Qed.

(** C9 (as the code has it).  For every display name and extension
    the fallback name is not empty and has at most 180 characters, and
    for every extension made of characters of [[A-Za-z0-9._-]] only
    (every inferred extension is) it matches [^[A-Za-z0-9._-]+$].  It
    is the first 180 characters of the base followed by [.ext] when
    [ext] is not empty, where the base is the display name without its
    extension, NFKD-decomposed, each maximal run of characters outside
    the class replaced by one underscore, leading and trailing
    underscores removed, and is the literal [file] when no letter or
    digit is left. *)
Theorem buildAsciiFallbackFilename_safe :
  forall originalName extension : list N,
    let result := buildAsciiFallbackFilename originalName extension in
    let cleaned := cleaned_base originalName in
    result <> []
    /\ (length result <= 180)%nat
    /\ result
       = take 180
           ((if existsb is_alnum cleaned then cleaned else lit "file")
            ++ (if truthy extension then 46%N :: extension else []))
    /\ forallb is_safe cleaned = true
    /\ head cleaned <> Some 95%N /\ last cleaned <> Some 95%N
    /\ (forallb is_safe extension = true ->
        matches_safe_name result = true).
Proof.
  intros name ext result cleaned.
  assert (Hshape : result
       = take 180
           ((if existsb is_alnum cleaned then cleaned else lit "file")
            ++ (if truthy ext then 46%N :: ext else []))).
  { subst result cleaned. unfold buildAsciiFallbackFilename, cleaned_base, slice0.
    by rewrite existsb_truthy. }
  set (fileBase := if existsb is_alnum cleaned then cleaned else lit "file")
    in Hshape.
  assert (Hbase_safe : forallb is_safe fileBase = true).
  { subst fileBase. destruct (existsb is_alnum cleaned); [|done].
    apply cleaned_base_safe. }
  assert (Hbase_ne : fileBase <> []).
  { subst fileBase. destruct (existsb is_alnum cleaned) eqn:Hex; [|done].
    intros E. by rewrite E in Hex. }
  assert (Hne : result <> []).
  { rewrite Hshape. destruct fileBase as [|c fb]; [done|]. done. }
  split; [done|]. split.
  { rewrite Hshape, length_take. lia. }
  split; [done|]. split; [apply cleaned_base_safe|].
  split; [apply trim_underscores_ends|].
  split; [apply trim_underscores_ends|].
  intros Hext.
  assert (Hsuffix_safe :
    forallb is_safe (if truthy ext then 46%N :: ext else []) = true).
  { destruct (truthy ext); [|done]. simpl. by rewrite Hext. }
  assert (Hall : forallb is_safe result = true).
  { rewrite Hshape. apply forallb_take. rewrite forallb_app.
    by rewrite Hbase_safe, Hsuffix_safe. }
  unfold matches_safe_name. rewrite Hall.
  destruct result; [done|done].
Qed.

(** The inferred extension is made of lower-case letters and digits,
    hence of characters of the class. *)
Lemma extensionFrom_safe (mime : list N) (fileName : option (list N)) :
  forallb is_safe (extensionFrom mime fileName) = true.
Proof.
  unfold extensionFrom, byMime.
  repeat (match goal with |- context [streq ?a ?b] => destruct (streq a b) end;
          [done|]).
  apply forallb_forall. intros c Hc.
  apply filter_In in Hc as [_ Hc].
  unfold is_safe, is_word, is_alnum. unfold is_lower_alnum in Hc.
  apply orb_prop in Hc as [->| ->]; by rewrite ?orb_true_r.
Qed.

End Fallback.

Section Runs.
Import Sample.

Lemma buildAsciiFallbackFilename_safe_witness :
  forallb is_safe (lit "png") = true
  /\ buildAsciiFallbackFilename (lit "holiday photo (1).PNG") (lit "png")
     = lit "holiday_photo_1.png"
  /\ matches_safe_name
       (buildAsciiFallbackFilename (lit "holiday photo (1).PNG") (lit "png"))
     = true.
Proof.
  assert (Hext : forallb is_safe (lit "png") = true) by reflexivity.
  destruct (buildAsciiFallbackFilename_safe
              (lit "holiday photo (1).PNG") (lit "png"))
    as (_ & _ & Hs & _ & _ & _ & Hm).
  exact (conj Hext (conj Hs (Hm Hext))).
Defined.

(** C9, as stated, fails: for an arbitrary extension the result can
    leave the class, and a run of several characters outside the class
    is replaced by one underscore, not by one underscore each. *)
Lemma buildAsciiFallbackFilename_unsafe_extension :
  buildAsciiFallbackFilename (lit "a.txt") (lit "j pg") = lit "a.j pg"
  /\ matches_safe_name (buildAsciiFallbackFilename (lit "a.txt") (lit "j pg"))
     = false
  /\ buildAsciiFallbackFilename (lit "a  b.png") (lit "png") = lit "a_b.png"
  /\ asciiFallback_spec (lit "a  b.png") (lit "png") = lit "a__b.png".
Proof. repeat split. Qed.


End Runs.

End FilenameFacts.
(** ** Reasoning about handlers *)

Module HandlerLogic.
Import Runtime Collaborators.

(** [m] relates the worlds before and after by [R], returns values in
    [P] and throws errors in [E]. *)
Definition spec {A} (R : World -> World -> Prop) (E : JsError -> Prop)
    (P : A -> Prop) (m : M A) : Prop :=
  forall w, R w (m w).2
            /\ match (m w).1 with Returned a => P a | Thrown e => E e end.

Section Rules.
Variable R : World -> World -> Prop.
Variable E : JsError -> Prop.
Hypothesis R_refl : forall w, R w w.
Hypothesis R_trans : forall w1 w2 w3, R w1 w2 -> R w2 w3 -> R w1 w3.

Lemma spec_ret {A} (P : A -> Prop) (a : A) : P a -> spec R E P (ret a).
Proof. intros Ha w. by split. Qed.

Lemma spec_throw {A} (P : A -> Prop) (e : JsError) :
  E e -> spec R E P (throw e).
Proof. intros He w. by split. Qed.

Lemma spec_bind {A B} (P : A -> Prop) (Q : B -> Prop) (m : M A)
    (k : A -> M B) :
  spec R E P m -> (forall a, P a -> spec R E Q (k a)) ->
  spec R E Q (bind m k).
Proof.
  intros Hm Hk w. specialize (Hm w). unfold bind.
  destruct (m w) as [[a|e] w1]; simpl in *.
  - destruct Hm as [HR Ha]. specialize (Hk a Ha w1).
    destruct (k a w1) as [o w2]; simpl in *.
    destruct Hk as [HR2 Ho]. split; [by eapply R_trans|done].
  - done.
Qed.

Lemma spec_weaken {A} (P Q : A -> Prop) (m : M A) :
  spec R E P m -> (forall a, P a -> Q a) -> spec R E Q m.
Proof.
  intros Hm HPQ w. specialize (Hm w).
  destruct (m w) as [[a|e] w1]; simpl in *; [|done].
  destruct Hm. split; [done|by apply HPQ].
Qed.

Lemma spec_lift_sum {A} (r : A + list N) :
  (forall msg, E (mkError msg None)) ->
  spec R E (fun _ => True) (lift_sum r).
Proof.
  intros HE. destruct r; [by apply spec_ret|by apply spec_throw].
Qed.

(** A collaborator call whose effect, and whose logging, respect [R]. *)
Lemma spec_perform `{Faults} {A} (P : A -> Prop) (c : Call)
    (effect : World -> Outcome A * World) :
  (forall msg, E (mkError msg None)) ->
  (forall w, R w (log (Failed c) w)) ->
  (forall w, match effect w with
             | (Returned a, w') => R w (log (Done c) w') /\ P a
             | (Thrown e, w') => R w (log (Failed c) w') /\ E e
             end) ->
  spec R E P (perform c effect).
Proof.
  intros HE Hfail Heff w. unfold perform.
  destruct (fault w c); simpl; [by split|].
  specialize (Heff w). by destruct (effect w) as [[a|e] w'].
Qed.
End Rules.
End HandlerLogic.

(** ** Metadata store *)

Module DatabaseFacts.
Import JS Database.

Lemma streq_eq (a b : list N) : streq a b = true <-> a = b.
Proof. unfold streq. apply bool_decide_eq_true. Qed.

Lemma streq_refl (a : list N) : streq a a = true.
Proof. by apply streq_eq. Qed.

Lemma streq_neq (a b : list N) : streq a b = false <-> a <> b.
Proof. unfold streq. apply bool_decide_eq_false. Qed.

(** *** Soft delete *)

Lemma mark_deleted_not_hit (now : Z) (ident : list N) (r : MediaObject) :
  soft_delete_hits ident (mark_deleted now r) = false.
Proof. unfold soft_delete_hits. simpl. apply andb_false_r. Qed.

Lemma softDelete_no_hit (now : Z) (ident : list N) (tbl : Table) :
  (forall r, r ∈ tbl -> soft_delete_hits ident r = false) ->
  softDeleteMediaObject now ident tbl = (None, tbl).
Proof.
  intros Hno. unfold softDeleteMediaObject.
  assert (E1 : List.filter (soft_delete_hits ident) tbl = []).
  { induction tbl as [|x tbl IH]; [done|]. simpl.
    rewrite (Hno x) by (by left). apply IH.
    intros r Hr. apply Hno. by right. }
  assert (E2 : (fun r => if soft_delete_hits ident r then mark_deleted now r else r)
                 <$> tbl = tbl).
  { induction tbl as [|x tbl IH]; [done|]. rewrite fmap_cons.
    rewrite (Hno x) by (by left). f_equal. apply IH.
    - intros r Hr. apply Hno. by right.
    - simpl in E1. rewrite (Hno x) in E1 by (by left). done. }
  by rewrite E1, E2.
Qed.

Lemma softDelete_leaves_no_hit (now : Z) (ident : list N) (tbl : Table) (r : MediaObject) :
  r ∈ (softDeleteMediaObject now ident tbl).2 -> soft_delete_hits ident r = false.
Proof.
  unfold softDeleteMediaObject. simpl.
  intros (x & -> & _)%list_elem_of_fmap.
  destruct (soft_delete_hits ident x) eqn:Hx; [|done].
  apply mark_deleted_not_hit.
Qed.

(** The primary key is an invariant of the two statements that write. *)
Lemma createMediaObject_keeps_primary_key (now : Z)
    (input : CreateMediaObjectInput) (tbl tbl' : Table) (row : MediaObject) :
  NoDup (id <$> tbl) ->
  createMediaObject now input tbl = Some (row, tbl') ->
  NoDup (id <$> tbl') /\ row ∈ tbl' /\ status row = ACTIVE
  /\ id row = in_id input.
Proof.
  unfold createMediaObject. intros Hnd Hc.
  destruct (existsb _ tbl) eqn:Hex; [done|].
  injection Hc as <- <-. split; [|split; [|done]].
  - rewrite fmap_app. apply NoDup_app. split; [done|]. split.
    + intros x Hx [Hin|Hin]%elem_of_cons; [|by apply elem_of_nil in Hin].
      simpl in Hin. subst x.
      apply list_elem_of_fmap in Hx as (r & Hr & Hin).
      assert (existsb (fun r => streq (id r) (in_id input)) tbl = true).
      { apply existsb_exists. exists r.
        split; [by apply list_elem_of_In|]. by apply streq_eq. }
      congruence.
    + apply NoDup_singleton.
  - apply elem_of_app. right. by left.
Qed.

Lemma softDelete_keeps_primary_key (now : Z) (ident : list N) (tbl : Table) :
  NoDup (id <$> tbl) -> NoDup (id <$> (softDeleteMediaObject now ident tbl).2).
Proof.
  intros Hnd. unfold softDeleteMediaObject. simpl.
  rewrite <- list_fmap_compose.
  erewrite list_fmap_ext; [exact Hnd|].
  intros i r _. simpl. by destruct (soft_delete_hits ident r).
Qed.

(** After a soft delete every row of that identifier is DELETED. *)
Lemma softDelete_marks_target (now : Z) (ident : list N) (tbl : Table)
    (r : MediaObject) :
  r ∈ (softDeleteMediaObject now ident tbl).2 -> id r = ident ->
  status r = DELETED.
Proof.
  intros Hr Hid. apply softDelete_leaves_no_hit in Hr.
  unfold soft_delete_hits in Hr. rewrite Hid, streq_refl in Hr.
  by destruct (status r).
Qed.

(** Under the primary key, [WHERE id = $1] selects one row. *)
Lemma select_by_id_unique (f : MediaObject -> MediaObject) (tbl : Table)
    (r : MediaObject) :
  (forall x, id (f x) = id x) ->
  NoDup (id <$> tbl) -> r ∈ tbl ->
  List.filter (fun x => streq (id x) (id r)) (f <$> tbl) = [f r].
Proof.
  intros Hf. induction tbl as [|x tbl IH]; intros Hnd Hr.
  - by apply elem_of_nil in Hr.
  - rewrite fmap_cons in Hnd. apply NoDup_cons in Hnd as [Hx Hnd].
    assert (Hnone : forall t : Table,
               id r ∉ id <$> t ->
               List.filter (fun y => streq (id y) (id r)) (f <$> t) = []).
    { clear -Hf. intros t. induction t as [|y t IHt]; [done|].
      intros Hy. rewrite fmap_cons in Hy. apply not_elem_of_cons in Hy as [Hy1 Hy2].
      simpl. rewrite Hf.
      destruct (streq (id y) (id r)) eqn:E.
      - apply streq_eq in E. congruence.
      - by apply IHt. }
    apply elem_of_cons in Hr as [->|Hr]; simpl; rewrite Hf.
    + rewrite streq_refl. by rewrite Hnone.
    + destruct (streq (id x) (id r)) eqn:E.
      * apply streq_eq in E. exfalso. apply Hx. rewrite E.
        by apply list_elem_of_fmap_2.
      * by apply IH.
Qed.

Lemma softDelete_returns (now : Z) (tbl : Table) (r : MediaObject) :
  NoDup (id <$> tbl) -> r ∈ tbl -> status r = ACTIVE ->
  (softDeleteMediaObject now (id r) tbl).1 = Some (mark_deleted now r).
Proof.
  intros Hnd Hr Hact. unfold softDeleteMediaObject. simpl.
  assert (E : List.filter (soft_delete_hits (id r)) tbl = [r]).
  { clear now. induction tbl as [|x tbl IH]; [by apply elem_of_nil in Hr|].
    rewrite fmap_cons in Hnd. apply NoDup_cons in Hnd as [Hx Hnd].
    assert (Hnone : forall t : Table,
               id r ∉ id <$> t -> List.filter (soft_delete_hits (id r)) t = []).
    { clear. intros t. induction t as [|y t IHt]; [done|].
      intros Hy. rewrite fmap_cons in Hy. apply not_elem_of_cons in Hy as [Hy1 Hy2].
      simpl. unfold soft_delete_hits at 1.
      destruct (streq (id y) (id r)) eqn:E.
      - apply streq_eq in E. congruence.
      - by apply IHt. }
    apply elem_of_cons in Hr as [->|Hr]; simpl; unfold soft_delete_hits at 1.
    - rewrite streq_refl, Hact. simpl. by rewrite Hnone.
    - destruct (streq (id x) (id r)) eqn:E.
      + apply streq_eq in E. exfalso. apply Hx. rewrite E.
        by apply list_elem_of_fmap_2.
      + simpl. by apply IH. }
  by rewrite E.
Qed.

Lemma getMediaObjectById_after_softDelete (now : Z) (tbl : Table) (r : MediaObject) :
  NoDup (id <$> tbl) -> r ∈ tbl -> status r = ACTIVE ->
  getMediaObjectById (id r) (softDeleteMediaObject now (id r) tbl).2
  = Some (mark_deleted now r).
Proof.
  intros Hnd Hr Hact. unfold getMediaObjectById, softDeleteMediaObject. simpl.
  rewrite (select_by_id_unique
             (fun x => if soft_delete_hits (id r) x then mark_deleted now x else x)
             tbl r); [|by intros x; destruct (soft_delete_hits (id r) x)|done|done].
  unfold soft_delete_hits. by rewrite streq_refl, Hact.
Qed.

Lemma getMediaObjectById_none (ident : list N) (tbl : Table) :
  getMediaObjectById ident tbl = None -> forall r, r ∈ tbl -> id r <> ident.
Proof.
  unfold getMediaObjectById. intros Hnone r Hr E.
  assert (Hin : In r (List.filter (fun x => streq (id x) ident) tbl)).
  { apply filter_In. split; [by apply list_elem_of_In|by apply streq_eq]. }
  destruct (List.filter (fun x => streq (id x) ident) tbl); [done|discriminate].
Qed.

(** Soft delete called again and again on the same identifier. *)
Fixpoint softDelete_again (times : list Z) (ident : list N) (tbl : Table)
  : list (option MediaObject) * Table :=
  match times with
  | [] => ([], tbl)
  | t :: rest =>
      let '(r, tbl1) := softDeleteMediaObject t ident tbl in
      let '(rs, tbl2) := softDelete_again rest ident tbl1 in
      (r :: rs, tbl2)
  end.

Lemma softDelete_again_not_found (times : list Z) (ident : list N) (tbl : Table) :
  (forall r, r ∈ tbl -> soft_delete_hits ident r = false) ->
  softDelete_again times ident tbl = (replicate (length times) None, tbl).
Proof.
  intros Hno. induction times as [|t times IH]; [done|].
  cbn [softDelete_again length]. rewrite softDelete_no_hit by done.
  by rewrite IH.
Qed.

(** C4.  On a table with its primary key, the first soft delete of an
    ACTIVE record marks it DELETED (stamping [deleted_at]) and returns it;
    every later soft delete of the same identifier returns null and
    changes nothing, in any table where the record is DELETED; and so
    does a soft delete of an identifier that no row carries. *)
Theorem softDelete_once_then_not_found :
  forall (now : Z) (tbl : Table) (r : MediaObject),
    NoDup (id <$> tbl) -> r ∈ tbl -> status r = ACTIVE ->
    let first := softDeleteMediaObject now (id r) tbl in
    first.1 = Some (mark_deleted now r)
    /\ status (mark_deleted now r) = DELETED
    /\ deletedAt (mark_deleted now r) = Some now
    /\ getMediaObjectById (id r) first.2 = Some (mark_deleted now r)
    /\ (forall later : list Z,
          softDelete_again later (id r) first.2
          = (replicate (length later) None, first.2))
    /\ (forall (t : Z) (tbl0 : Table),
          (forall x, x ∈ tbl0 -> id x = id r -> status x = DELETED) ->
          softDeleteMediaObject t (id r) tbl0 = (None, tbl0))
    /\ (forall (t : Z) (other : list N) (tbl0 : Table),
          getMediaObjectById other tbl0 = None ->
          softDeleteMediaObject t other tbl0 = (None, tbl0)).
Proof.
  intros now tbl r Hnd Hr Hact first. subst first.
  split; [by apply softDelete_returns|].
  split; [done|]. split; [done|].
  split; [by apply getMediaObjectById_after_softDelete|].
  split; [|split].
  - intros later. apply softDelete_again_not_found.
    intros x Hx. by eapply softDelete_leaves_no_hit.
  - intros t tbl0 Hdel. apply softDelete_no_hit.
    intros x Hx. unfold soft_delete_hits.
    destruct (streq (id x) (id r)) eqn:E; [|done].
    apply streq_eq in E. by rewrite (Hdel x Hx E).
  - intros t other tbl0 Hnone. apply softDelete_no_hit.
    intros x Hx. unfold soft_delete_hits.
    pose proof (getMediaObjectById_none other tbl0 Hnone x Hx) as Hne.
    apply streq_neq in Hne. by rewrite Hne.
Qed.

(** *** Listing *)

Lemma insert_desc_perm (r : MediaObject) (l : Table) :
  insert_desc r l ≡ₚ r :: l.
Proof.
  induction l as [|x l IH]; simpl; [done|].
  destruct (uploadedAt x <=? uploadedAt r); [done|].
  rewrite IH. apply Permutation_swap.
Qed.

Lemma order_by_perm (l : Table) : order_by_uploaded_at_desc l ≡ₚ l.
Proof.
  unfold order_by_uploaded_at_desc.
  induction l as [|x l IH]; simpl; [done|].
  by rewrite insert_desc_perm, IH.
Qed.

(** Newest first: each row is at least as recent as all that follow. *)
Definition newest_first (l : Table) : Prop :=
  forall i j a b, (i <= j)%nat -> l !! i = Some a -> l !! j = Some b ->
                  uploadedAt b <= uploadedAt a.

Lemma newest_first_cons (x : MediaObject) (l : Table) :
  newest_first l ->
  (forall y, y ∈ l -> uploadedAt y <= uploadedAt x) ->
  newest_first (x :: l).
Proof.
  intros Hl Hx i j a b Hij Ha Hb.
  destruct i as [|i], j as [|j]; simpl in *; simplify_eq; try lia.
  - apply Hx. by eapply list_elem_of_lookup_2.
  - eapply (Hl i j); eauto. lia.
Qed.

Lemma newest_first_tail (x : MediaObject) (l : Table) :
  newest_first (x :: l) ->
  newest_first l /\ (forall y, y ∈ l -> uploadedAt y <= uploadedAt x).
Proof.
  intros H. split.
  - intros i j a b Hij Ha Hb. apply (H (S i) (S j)); simpl; auto. lia.
  - intros y [j Hj]%list_elem_of_lookup_1.
    apply (H 0%nat (S j)); simpl; auto. lia.
Qed.

Lemma insert_desc_sorted (r : MediaObject) (l : Table) :
  newest_first l -> newest_first (insert_desc r l).
Proof.
  induction l as [|x l IH]; intros Hl; simpl.
  - apply newest_first_cons; [done|]. intros y Hy. by apply elem_of_nil in Hy.
  - destruct (uploadedAt x <=? uploadedAt r) eqn:E.
    + apply Z.leb_le in E. apply newest_first_cons; [done|].
      apply newest_first_tail in Hl as [_ Hx].
      intros y [->|Hy]%elem_of_cons; [done|]. specialize (Hx y Hy). lia.
    + apply Z.leb_gt in E. apply newest_first_tail in Hl as [Hl Hx].
      apply newest_first_cons; [by apply IH|].
      intros y Hy. rewrite insert_desc_perm in Hy.
      apply elem_of_cons in Hy as [->|Hy]; [lia|by apply Hx].
Qed.

Lemma order_by_sorted (l : Table) : newest_first (order_by_uploaded_at_desc l).
Proof.
  unfold order_by_uploaded_at_desc.
  induction l as [|x l IH]; simpl.
  - intros i j a b _ Ha. by rewrite lookup_nil in Ha.
  - by apply insert_desc_sorted.
Qed.

Lemma newest_first_take (n : nat) (l : Table) :
  newest_first l -> newest_first (take n l).
Proof.
  intros H i j a b Hij Ha Hb.
  apply lookup_take_Some in Ha as [Ha _]. apply lookup_take_Some in Hb as [Hb _].
  by eapply H.
Qed.

Lemma list_query_spec (params : ListParams) (d : option Z) (tbl : Table)
    (r : MediaObject) :
  r ∈ list_query params d tbl -> r ∈ tbl /\ list_where params d r = true.
Proof.
  unfold list_query. intros Hr.
  apply (subseteq_take _ _) in Hr. rewrite order_by_perm in Hr.
  apply list_elem_of_In, filter_In in Hr as [Hr Hw].
  split; [by apply list_elem_of_In|done].
Qed.

Lemma list_query_NoDup (params : ListParams) (d : option Z) (tbl : Table) :
  NoDup tbl -> NoDup (list_query params d tbl).
Proof.
  intros Hnd. unfold list_query.
  eapply sublist_NoDup; [|apply sublist_take].
  rewrite order_by_perm. apply NoDup_ListNoDup, List.NoDup_filter.
  by apply NoDup_ListNoDup.
Qed.

Lemma NoDup_lookup_not_in_take {A} (l : list A) (n : nat) (x : A) :
  NoDup l -> l !! n = Some x -> x ∉ take n l.
Proof.
  intros Hnd Hx Hin.
  rewrite <- (take_drop_middle l n x Hx) in Hnd.
  apply NoDup_app in Hnd as (_ & Hdisj & _).
  apply (Hdisj x Hin). by left.
Qed.

Section Paging.
Context `{Builtins}.

(** What a page consists of: the rows fetched are the first
    [limit + 1] of the matching rows, newest first; the page returns
    the first [limit] of them, and the cursor is the timestamp of the
    row at index [limit], issued exactly when that row exists. *)
Lemma listMediaObjects_page (params : ListParams) (tbl : Table)
    (page : ListResult) :
  listMediaObjects params tbl = inl page ->
  exists (cursorDate : option Z),
    let rows := list_query params cursorDate tbl in
    (length rows <= lp_limit params + 1)%nat
    /\ newest_first rows
    /\ items page = take (lp_limit params) rows
    /\ (length (items page) <= lp_limit params)%nat
    /\ nextCursor page
       = (fun r => Date_toISOString (uploadedAt r)) <$> rows !! lp_limit params.
Proof.
  unfold listMediaObjects. intros Hpage.
  assert (Hex : exists d, page = page_of (lp_limit params) (list_query params d tbl)).
  { destruct (truthy_opt (lp_cursor params)).
    - destruct (Date_parse _) as [d|]; [|done]. exists (Some d). congruence.
    - exists None. congruence. }
  destruct Hex as [d ->]. exists d. cbv zeta.
  set (rows := list_query params d tbl).
  assert (Hlen : (length rows <= lp_limit params + 1)%nat).
  { subst rows. unfold list_query. rewrite length_take. lia. }
  split; [done|]. split.
  { subst rows. unfold list_query.
    apply newest_first_take, order_by_sorted. }
  unfold page_of.
  destruct (lp_limit params <? length rows)%nat eqn:E.
  - apply Nat.ltb_lt in E.
    destruct (rows !! lp_limit params) as [r|] eqn:Hr.
    + simpl. split; [done|]. split; [rewrite length_take; lia|done].
    + apply lookup_ge_None in Hr. lia.
  - apply Nat.ltb_ge in E. simpl.
    split; [by rewrite take_ge|]. split; [done|].
    by rewrite (proj2 (lookup_ge_None rows (lp_limit params)) E).
Qed.

(** The row whose timestamp becomes the cursor matches the query, is
    left out of the page that issues the cursor, and is left out of the
    page fetched with that cursor: following [nextCursor] never
    returns it. *)
Lemma cursor_row_is_skipped (params : ListParams) (tbl : Table)
    (page : ListResult) (cursor : list N) :
  (forall t, Date_parse (Date_toISOString t) = Some t) ->
  (forall t, truthy (Date_toISOString t) = true) ->
  NoDup tbl ->
  listMediaObjects params tbl = inl page ->
  nextCursor page = Some cursor ->
  exists r,
    r ∈ tbl
    /\ (exists d, list_where params d r = true)
    /\ cursor = Date_toISOString (uploadedAt r)
    /\ (r ∉ items page)
    /\ forall page',
         listMediaObjects
           (mkListParams (lp_ownerId params) (lp_limit params) (Some cursor)
              (lp_includeDeleted params)) tbl = inl page' ->
         r ∉ items page'.
Proof.
  intros Hround Htruthy Hnd Hpage Hcur.
  destruct (listMediaObjects_page params tbl page Hpage)
    as (d & _ & _ & Hitems & _ & Hnext).
  rewrite Hcur in Hnext.
  destruct (list_query params d tbl !! lp_limit params) as [r|] eqn:Hr;
    [|done].
  injection Hnext as ->.
  exists r.
  destruct (list_query_spec params d tbl r) as [Hin Hw];
    [by eapply list_elem_of_lookup_2|].
  split; [done|]. split; [by exists d|]. split; [done|]. split.
  - rewrite Hitems. apply NoDup_lookup_not_in_take; [|done].
    by apply list_query_NoDup.
  - intros page' Hpage'.
    destruct (listMediaObjects_page _ tbl page' Hpage')
      as (d' & _ & _ & Hitems' & _).
    unfold listMediaObjects in Hpage'. simpl in Hpage', Hitems'.
    rewrite Htruthy, Hround in Hpage'.
    intros Hin'.
    assert (Hq : r ∈ list_query
                   (mkListParams (lp_ownerId params) (lp_limit params)
                      (Some (Date_toISOString (uploadedAt r)))
                      (lp_includeDeleted params))
                   (Some (uploadedAt r)) tbl).
    { injection Hpage' as <-. unfold page_of in Hin'.
      repeat case_match; simpl in Hin'; try done.
      by apply (subseteq_take _ _) in Hin'. }
    apply list_query_spec in Hq as [_ Hq].
    unfold list_where in Hq. simpl in Hq.
    apply andb_prop in Hq as [_ Hq]. apply Z.ltb_lt in Hq. lia.
Qed.

End Paging.

Section Runs.
Import Sample.

Lemma softDelete_once_then_not_found_witness :
  let tbl := [row "m1" "alice" ACTIVE 1000; row "m2" "bob" ACTIVE 2000] in
  let r := row "m1" "alice" ACTIVE 1000 in
  NoDup (id <$> tbl) /\ r ∈ tbl /\ status r = ACTIVE
  /\ (softDeleteMediaObject 5000 (id r) tbl).1 = Some (mark_deleted 5000 r)
  /\ softDelete_again [6000; 7000] (id r) (softDeleteMediaObject 5000 (id r) tbl).2
     = ([None; None], (softDeleteMediaObject 5000 (id r) tbl).2).
Proof.
  intros tbl r.
  assert (H1 : NoDup (id <$> tbl)) by compute_done.
  assert (H2 : r ∈ tbl) by (by left).
  assert (H3 : status r = ACTIVE) by reflexivity.
  destruct (softDelete_once_then_not_found 5000 tbl r H1 H2 H3)
    as (F & _ & _ & _ & L & _ & _).
  exact (conj H1 (conj H2 (conj H3 (conj F (L [6000; 7000]))))).
Defined.

(** C5 at a table of three of alice's records uploaded at 1000, 2000
    and 3000 ms, page size 1: the first page returns the record of 3000
    and the cursor of the record of 2000; the page fetched with that
    cursor returns the record of 1000 and no cursor.  The record of 2000
    is on neither page. *)
Theorem pagination_skips_cursor_row :
  let tbl := [row "m1" "alice" ACTIVE 1000; row "m2" "alice" ACTIVE 2000;
              row "m3" "alice" ACTIVE 3000] in
  listMediaObjects (mkListParams (Some (lit "alice")) 1 None false) tbl
  = inl (mkListResult [row "m3" "alice" ACTIVE 3000] (Some (lit "2000")))
  /\ listMediaObjects
       (mkListParams (Some (lit "alice")) 1 (Some (lit "2000")) false) tbl
     = inl (mkListResult [row "m1" "alice" ACTIVE 1000] None)
  /\ list_where (mkListParams (Some (lit "alice")) 1 None false) None
       (row "m2" "alice" ACTIVE 2000) = true.
Proof. repeat split. Qed.

End Runs.

End DatabaseFacts.
(** ** Rate limiter *)

Module RateLimiterFacts.
Import JS Runtime Collaborators RateLimiter.

(** The stores the limiter has no business with. *)
Definition same_stores (w w' : World) : Prop :=
  media_objects w' = media_objects w /\ bucket w' = bucket w
  /\ published w' = published w /\ uuids_drawn w' = uuids_drawn w
  /\ clock w' = clock w.

Lemma same_stores_refl (w : World) : same_stores w w.
Proof. by repeat split. Qed.

Lemma same_stores_trans (w1 w2 w3 : World) :
  same_stores w1 w2 -> same_stores w2 w3 -> same_stores w1 w3.
Proof.
  unfold same_stores. intros (?&?&?&?&?) (?&?&?&?&?).
  repeat split; congruence.
Qed.


Definition counter_key (key : list N) : list N := lit "rate:" ++ key.

Section Limiter.
Context `{Builtins} `{Config} `{Faults}.


(** Whatever the collaborators do, [consume] touches the counters and
    the call log only. *)
Lemma consume_frame (windowSeconds maxRequests : Z) (key : list N) (w : World) :
  same_stores w (consume windowSeconds maxRequests key w).2
  /\ (forall other, other <> counter_key key ->
        redis (consume windowSeconds maxRequests key w).2 !! other
        = redis w !! other).
Proof.
  unfold consume, incr_and_ttl, expire, perform, bind, ret, throw.
  fold (counter_key key). set (rk := counter_key key).
  destruct (fault w (RedisMulti rk)); simpl; [by split|].
  destruct (Redis.INCR (clock w) rk (redis w)) as [n db] eqn:Hincr. simpl.
  assert (Hdb : forall other, other <> rk -> db !! other = redis w !! other).
  { intros other Hne. unfold Redis.INCR in Hincr.
    destruct (Redis.get _ _ _); injection Hincr as <- <-;
      by rewrite lookup_insert_ne. }
  destruct ((num_or n 0 =? 1) || (num_or (Redis.TTL (clock w) rk db) (-1) <? 0)).
  - match goal with |- context [fault ?w' (RedisExpire rk)] =>
      destruct (fault w' (RedisExpire rk)) end; simpl.
    + by split.
    + destruct (maxRequests <? num_or n 0); simpl; (split; [done|]);
        intros other Hne; unfold Redis.EXPIRE;
        repeat case_match; rewrite ?lookup_insert_ne, ?lookup_delete_ne by done;
        by apply Hdb.
  - destruct (maxRequests <? num_or n 0); simpl; by split.
Qed.

Hypothesis redis_up :
  forall w key, fault w (RedisMulti key) = None
                /\ fault w (RedisExpire key) = None.











End Limiter.

Section Runs.
Import Sample.
#[local] Existing Instance healthy.




(** In the last half second of a window Redis reports a TTL of 0, which
    [Number(ttl) || -1] reads as -1: the request re-arms the expiry. *)
Lemma expiry_rearmed_in_last_half_second :
  redis
    (consume 10 2 (lit "alice")
       (mkWorld [] ∅ []
          {[ counter_key (lit "alice") := Redis.mkEntry 1 (Some 10000) ]}
          9600 0 [])).2
  !! counter_key (lit "alice")
  = Some (Redis.mkEntry 2 (Some 19600)).
Proof. vm_compute. reflexivity. Qed.


End Runs.

End RateLimiterFacts.
(** ** Upload orchestrator *)

Module UploadFacts.
Import JS Filename Database Runtime Collaborators Routes.

Section Upload.
Context `{Builtins} `{Config} `{Faults}.

(** The entry reported for a file whose pipeline threw [error]. *)
Definition failure_of (file : File) (error : JsError) : FailedEntry :=
  mkFailedEntry (originalname file) (message error).

Definition unsupported_mime_message : list N :=
  lit "Unsupported mime type. Allowed: " ++ join (lit ", ") allowedMimeTypeSet.

Lemma uploadLoop_cons (user : User) (file : File) (rest : list File)
    (its : list UploadedItem) (fl : list FailedEntry) (w : World) :
  uploadLoop user (file :: rest) its fl w
  = match uploadOne user file w with
    | (Returned item, w') => uploadLoop user rest (its ++ [item]) fl w'
    | (Thrown error, w') =>
        uploadLoop user rest its (fl ++ [failure_of file error]) w'
    end.
Proof. reflexivity. Qed.

(** Whatever the earlier files did, the loop goes on with the rest. *)
Lemma uploadLoop_app (user : User) (fs1 fs2 : list File)
    (its : list UploadedItem) (fl : list FailedEntry) (w : World) :
  uploadLoop user (fs1 ++ fs2) its fl w
  = let '(a, b, w1) := uploadLoop user fs1 its fl w in
    uploadLoop user fs2 a b w1.
Proof.
  revert its fl w. induction fs1 as [|f fs1 IH]; intros its fl w.
  - simpl. done.
  - rewrite <- app_comm_cons, !uploadLoop_cons.
    destruct (uploadOne user f w) as [[item|error] w']; apply IH.
Qed.

(** The accumulators only grow. *)
Lemma uploadLoop_acc (user : User) (fs : list File)
    (its : list UploadedItem) (fl : list FailedEntry) (w : World) :
  uploadLoop user fs its fl w
  = let '(a, b, w1) := uploadLoop user fs [] [] w in
    (its ++ a, fl ++ b, w1).
Proof.
  revert its fl w. induction fs as [|f fs IH]; intros its fl w.
  - simpl. by rewrite !app_nil_r.
  - rewrite !uploadLoop_cons.
    destruct (uploadOne user f w) as [[item|error] w'].
    + rewrite (IH (its ++ [item])), (IH ([] ++ [item])).
      destruct (uploadLoop user fs [] [] w') as [[a b] w1].
      by rewrite <- !app_assoc.
    + rewrite (IH its (fl ++ _)), (IH [] ([] ++ _)).
      destruct (uploadLoop user fs [] [] w') as [[a b] w1].
      by rewrite <- !app_assoc.
Qed.

(** Every file of the batch ends as one item or one failure. *)
Lemma uploadLoop_count (user : User) (fs : list File) (w : World) :
  let '(a, b, _) := uploadLoop user fs [] [] w in
  (length a + length b = length fs)%nat.
Proof.
  revert w. induction fs as [|f fs IH]; intros w; [done|].
  rewrite uploadLoop_cons.
  destruct (uploadOne user f w) as [[item|error] w'];
    rewrite uploadLoop_acc; specialize (IH w');
    destruct (uploadLoop user fs [] [] w') as [[a b] w1];
    rewrite !length_app; simpl; lia.
Qed.

(** A file outside the allow-list fails before any collaborator is
    called. *)
Lemma uploadOne_unsupported_mime (user : User) (file : File) (w : World) :
  mimetype file ∉ allowedMimeTypeSet ->
  uploadOne user file w
  = (Thrown (mkError unsupported_mime_message (Some 400)), w).
Proof.
  intros Hmime. unfold uploadOne, storeFile, assertMimeType, bind.
  rewrite bool_decide_eq_false_2 by done. done.
Qed.

(** C3.  The upload loop handles the files of a batch one by one: a
    batch split in two is processed as the first part followed by the
    second, whatever failed in the first, and every file ends as
    exactly one item or one failure entry.  For a batch of three files
    of which the second has a MIME type outside the allow-list while
    the first and third upload successfully, the response is 201 with
    the two items and one failure entry carrying the second file's name
    and the unsupported-MIME message.  Each file is put through its own
    pipeline in the world the files before it left, whatever was
    collected so far: when the pipeline returns, its item is appended
    and the loop goes on with the rest; when it throws, a failure entry
    with the file's name and the error's message is appended and the
    loop goes on with the rest all the same.  So a file whose pipeline
    succeeds after any number of failed files is answered as an item,
    and the files after a failed file are processed as they would be
    without it. *)
Theorem upload_batch_files_independent :
  (forall (user : User) (fs1 fs2 : list File) (its : list UploadedItem)
          (fl : list FailedEntry) (w : World),
      uploadLoop user (fs1 ++ fs2) its fl w
      = let '(a, b, w1) := uploadLoop user fs1 its fl w in
        uploadLoop user fs2 a b w1)
  /\ (forall (user : User) (fs : list File) (w : World),
        let '(a, b, _) := uploadLoop user fs [] [] w in
        (length a + length b = length fs)%nat)
  /\ (forall (user : User) (f1 f2 f3 : File) (w w1 w3 : World)
             (i1 i3 : UploadedItem) (req : Request),
        mimetype f2 ∉ allowedMimeTypeSet ->
        uploadOne user f1 w = (Returned i1, w1) ->
        uploadOne user f3 w1 = (Returned i3, w3) ->
        req_user req = Some user ->
        multipart req = MulterParsed [] [f1; f2; f3] None ->
        uploadHandler req w
        = (Returned
             (mkResponse 201
                (JsonUploadBatch [i1; i3]
                   [mkFailedEntry (originalname f2) unsupported_mime_message])),
           w3))
  /\ (forall (user : User) (its : list UploadedItem) (fl : list FailedEntry)
             (w : World),
        uploadLoop user [] its fl w = (its, fl, w))
  /\ (forall (user : User) (file : File) (rest : list File)
             (its : list UploadedItem) (fl : list FailedEntry) (w : World),
        uploadLoop user (file :: rest) its fl w
        = match uploadOne user file w with
          | (Returned item, w') =>
              uploadLoop user rest (its ++ [item]) fl w'
          | (Thrown error, w') =>
              uploadLoop user rest its
                (fl ++ [mkFailedEntry (originalname file) (message error)]) w'
          end)
  /\ (forall (user : User) (before : list File) (file : File)
             (after : list File) (w w1 w2 : World)
             (its : list UploadedItem) (fl : list FailedEntry)
             (outcome : Outcome UploadedItem),
        uploadLoop user before [] [] w = (its, fl, w1) ->
        uploadOne user file w1 = (outcome, w2) ->
        exists (its' : list UploadedItem) (fl' : list FailedEntry)
               (w3 : World),
          uploadLoop user after [] [] w2 = (its', fl', w3)
          /\ uploadLoop user (before ++ file :: after) [] [] w
             = match outcome with
               | Returned item => (its ++ item :: its', fl ++ fl', w3)
               | Thrown error =>
                   (its ++ its',
                    fl ++ mkFailedEntry (originalname file) (message error)
                          :: fl',
                    w3)
               end).
Proof.
  split; [exact uploadLoop_app|]. split; [exact uploadLoop_count|].
  split.
  { intros user f1 f2 f3 w w1 w3 i1 i3 req Hmime Hf1 Hf3 Huser Hfiles.
    unfold uploadHandler, ensureUser, bind. rewrite Huser, Hfiles.
    cbn [gatherFiles app ret].
    rewrite uploadLoop_cons, Hf1, uploadLoop_cons,
      (uploadOne_unsupported_mime user f2 w1 Hmime), uploadLoop_cons, Hf3.
    reflexivity. }
  split; [reflexivity|]. split; [exact uploadLoop_cons|].
  intros user before file after w w1 w2 its fl outcome Hbefore Hfile.
  destruct (uploadLoop user after [] [] w2) as [[its' fl'] w3] eqn:Hafter.
  exists its', fl', w3. split; [done|].
  rewrite uploadLoop_app, Hbefore, uploadLoop_cons, Hfile.
  destruct outcome as [item|error]; rewrite uploadLoop_acc, Hafter;
    by rewrite <- !app_assoc.
Qed.

(** The event announced for a freshly stored record. *)
Definition upload_event (record : MediaObject) (w : World) : Call :=
  RedisPublish (lit "photo:uploaded")
    (mkEvent (id record) (ownerId record) (storedKey record) uploaded
       (Date_toISOString (clock w))).

Lemma uploadResponse_status (its : list UploadedItem) (fl : list FailedEntry) :
  res_status (uploadResponse its fl)
  = match its with [] => 400 | _ :: _ => 201 end.
Proof. destruct its as [|? [|? ?]]; destruct fl; done. Qed.

(** C2 (as the code has it).  When a file's MIME check, image probe,
    object write and metadata insert have succeeded and the publish
    that follows fails, the failure is caught by the file's [catch]:
    the file gets no item and is reported in [failed] with the publish
    error's message; the object and the row stay stored; the loop goes
    on with the remaining files; a batch of that single file is answered
    400 with that message; and in general the status is 400 when no file
    produced an item and 201 otherwise. *)
Theorem publish_failure_fails_the_file :
  forall (user : User) (file : File) (record : MediaObject) (w w1 : World)
         (msg : list N),
    storeFile user file w = (Returned record, w1) ->
    fault w1 (upload_event record w1) = Some msg ->
    let w2 := log (Failed (upload_event record w1)) w1 in
    uploadOne user file w = (Thrown (mkError msg None), w2)
    /\ media_objects w2 = media_objects w1
    /\ bucket w2 = bucket w1
    /\ (forall (rest : list File) (its : list UploadedItem)
               (fl : list FailedEntry),
          uploadLoop user (file :: rest) its fl w
          = uploadLoop user rest its
              (fl ++ [mkFailedEntry (originalname file) msg]) w2)
    /\ (forall req : Request,
          req_user req = Some user ->
          multipart req = MulterParsed [file] [] None ->
          uploadHandler req w
          = (Returned
               (mkResponse 400
                  (JsonUploadRejected
                     (if truthy msg then msg else lit "Upload failed")
                     [mkFailedEntry (originalname file) msg])),
             w2))
    /\ (forall (its : list UploadedItem) (fl : list FailedEntry),
          res_status (uploadResponse its fl)
          = match its with [] => 400 | _ :: _ => 201 end).
Proof.
  intros user file record w w1 msg Hstore Hfault w2.
  assert (Hone : uploadOne user file w = (Thrown (mkError msg None), w2)).
  { unfold uploadOne, bind at 1. rewrite Hstore.
    unfold announceUpload, now_iso, publishMediaEvent, perform, bind.
    cbn [channel_of ev_action]. fold (upload_event record w1).
    by rewrite Hfault. }
  split; [done|]. split; [done|]. split; [done|]. split.
  - intros rest its fl. by rewrite uploadLoop_cons, Hone.
  - split; [|exact uploadResponse_status].
    intros req Huser Hfiles.
    unfold uploadHandler, ensureUser, bind. rewrite Huser, Hfiles.
    cbn [gatherFiles app ret]. rewrite uploadLoop_cons, Hone. reflexivity.
Qed.

End Upload.

Section Runs.
Import Sample.

Definition three_files : list File :=
  [photo "a.png" "image/png"; photo "b.pdf" "application/pdf";
   photo "c.png" "image/png"].

Definition upload_request (files : list File) : Request :=
  mkRequest (Some alice) [] LimitAbsent None ScopeAbsent false false None
    (MulterParsed [] files None).

Definition single_upload_request : Request :=
  mkRequest (Some alice) [] LimitAbsent None ScopeAbsent false false None
    (MulterParsed [photo "cat.png" "image/png"] [] None).

Lemma upload_batch_files_independent_witness :
  (lit "application/pdf" ∉ allowedMimeTypeSet)
  /\ (exists i1 i3 w3,
        @uploadHandler builtins config healthy (upload_request three_files)
          empty_world
        = (Returned
             (mkResponse 201
                (JsonUploadBatch [i1; i3]
                   [mkFailedEntry (Some (lit "b.pdf"))
                      unsupported_mime_message])),
           w3))
  /\ (exists its fl w1 item w2,
        @uploadLoop builtins config healthy alice
          [photo "a.png" "image/png"; photo "b.pdf" "application/pdf";
           photo "c.pdf" "application/pdf"] [] [] empty_world
        = (its, fl, w1)
        /\ length fl = 2%nat
        /\ @uploadOne builtins config healthy alice
             (photo "d.png" "image/png") w1 = (Returned item, w2)
        /\ @uploadLoop builtins config healthy alice
             ([photo "a.png" "image/png"; photo "b.pdf" "application/pdf";
               photo "c.pdf" "application/pdf"]
              ++ [photo "d.png" "image/png"]) [] [] empty_world
           = (its ++ [item], fl ++ [], w2)).
Proof.
  assert (Hmime : mimetype (photo "b.pdf" "application/pdf")
                  ∉ allowedMimeTypeSet) by compute_done.
  split; [exact Hmime|]. split.
  - destruct (@uploadOne builtins config healthy alice
                (photo "a.png" "image/png") empty_world)
      as [[i1|e1] w1] eqn:E1; [|vm_compute in E1; discriminate E1].
    destruct (@uploadOne builtins config healthy alice
                (photo "c.png" "image/png") w1)
      as [[i3|e3] w3] eqn:E3.
    + exists i1, i3, w3.
      exact (proj1 (proj2 (proj2
               (@upload_batch_files_independent builtins config healthy)))
               alice (photo "a.png" "image/png")
               (photo "b.pdf" "application/pdf") (photo "c.png" "image/png")
               empty_world w1 w3 i1 i3 (upload_request three_files)
               Hmime E1 E3 eq_refl eq_refl).
    + exfalso. vm_compute in E1. injection E1 as _ <-.
      vm_compute in E3. discriminate E3.
  - destruct (@uploadLoop builtins config healthy alice
                [photo "a.png" "image/png"; photo "b.pdf" "application/pdf";
                 photo "c.pdf" "application/pdf"] [] [] empty_world)
      as [[its fl] w1] eqn:Ebefore.
    assert (Hfl : length fl = 2%nat).
    { vm_compute in Ebefore. by injection Ebefore as _ <- _. }
    destruct (@uploadOne builtins config healthy alice
                (photo "d.png" "image/png") w1)
      as [[item|e] w2] eqn:Efile.
    + exists its, fl, w1, item, w2.
      destruct (proj2 (proj2 (proj2 (proj2 (proj2
                  (@upload_batch_files_independent builtins config healthy)))))
                  alice _ (photo "d.png" "image/png") [] empty_world w1 w2
                  its fl (Returned item) Ebefore Efile)
        as (its' & fl' & w3 & Hafter & Hall).
      injection Hafter as <- <- <-.
      exact (conj eq_refl (conj Hfl (conj Efile Hall))).
    + exfalso. vm_compute in Ebefore. injection Ebefore as _ _ <-.
      vm_compute in Efile. discriminate Efile.
Defined.

Lemma publish_failure_fails_the_file_witness :
  exists record w1 w2,
    @storeFile builtins config publisher_down alice
      (photo "cat.png" "image/png") empty_world = (Returned record, w1)
    /\ @uploadOne builtins config publisher_down alice
         (photo "cat.png" "image/png") empty_world
       = (Thrown (mkError (lit "Connection is closed.") None), w2).
Proof.
  destruct (@storeFile builtins config publisher_down alice
              (photo "cat.png" "image/png") empty_world)
    as [[record|e] w1] eqn:E; [|vm_compute in E; discriminate E].
  exists record, w1,
    (log (Failed (@upload_event builtins record w1)) w1).
  split; [reflexivity|].
  exact (proj1 (@publish_failure_fails_the_file builtins config publisher_down
                  alice (photo "cat.png" "image/png") record empty_world w1
                  (lit "Connection is closed.") E eq_refl)).
Defined.

(** C2, as stated, fails.  With a publisher that is down, the upload
    of one valid image is answered 400 with the publisher's error
    message and the file listed in [failed], although the object and the
    metadata row were stored; with a healthy publisher the same request
    is answered 201. *)
Lemma publish_failure_reported_to_client :
  (@uploadHandler builtins config publisher_down single_upload_request
     empty_world).1
  = Returned
      (mkResponse 400
         (JsonUploadRejected (lit "Connection is closed.")
            [mkFailedEntry (Some (lit "cat.png"))
               (lit "Connection is closed.")]))
  /\ length (media_objects
               (@uploadHandler builtins config publisher_down
                  single_upload_request empty_world).2) = 1%nat
  /\ base.size (bucket
             (@uploadHandler builtins config publisher_down
                single_upload_request empty_world).2) = 1%nat
  /\ exists item,
       (@uploadHandler builtins config healthy single_upload_request
          empty_world).1
       = Returned (mkResponse 201 (JsonUploaded item)).
Proof.
  split; [vm_compute; reflexivity|].
  split; [vm_compute; reflexivity|].
  split; [vm_compute; reflexivity|].
  eexists. vm_compute. reflexivity.
Qed.

End Runs.
End UploadFacts.

(** ** Listing, retrieval and the routes that are rate limited *)

Module RetrievalFacts.
Import JS Filename Database Runtime Collaborators Routes Router HandlerLogic.

Definition call_of (l : Logged) : Call :=
  match l with Done c | Failed c => c end.

Definition is_limiter_call (l : Logged) : bool :=
  match call_of l with
  | RedisMulti _ | RedisExpire _ => true
  | _ => false
  end.

(** The limiter's calls among those logged so far. *)
Definition limiter_calls (w : World) : list Logged :=
  List.filter is_limiter_call (calls w).

(** Neither the counters nor the log of limiter calls changed. *)
Definition limiter_untouched (w w' : World) : Prop :=
  redis w' = redis w /\ limiter_calls w' = limiter_calls w.

Definition not_429 (e : JsError) : Prop := statusCode e <> Some 429.

(** The [url] of a record follows its status. *)
Definition url_follows_status (record : MediaObject) (url : option (list N))
  : Prop :=
  (status record = DELETED -> url = None)
  /\ (status record = ACTIVE -> is_Some url).

(** What the two GET routes may answer. *)
Definition good_response (r : Response) : Prop :=
  res_status r <> 429
  /\ match res_body r with
     | JsonList listed _ =>
         Forall (fun li => url_follows_status (listed_record li) (listed_url li))
           listed
     | JsonMedia media url _ => url_follows_status media url
     | _ => True
     end.

Lemma limiter_untouched_refl (w : World) : limiter_untouched w w.
Proof. by split. Qed.

Lemma limiter_untouched_trans (w1 w2 w3 : World) :
  limiter_untouched w1 w2 -> limiter_untouched w2 w3 -> limiter_untouched w1 w3.
Proof. unfold limiter_untouched. intros [? ?] [? ?]. split; congruence. Qed.

Lemma limiter_untouched_log (l : Logged) (w : World) :
  is_limiter_call l = false -> limiter_untouched w (log l w).
Proof.
  intros Hl. split; [done|]. unfold limiter_calls, log. simpl.
  rewrite List.filter_app. simpl. rewrite Hl. by rewrite app_nil_r.
Qed.

Lemma not_429_plain (msg : list N) : not_429 (mkError msg None).
Proof. done. Qed.

Create HintDb handlers.
#[local] Hint Resolve limiter_untouched_refl limiter_untouched_trans
  not_429_plain : handlers.

Section Handlers.
Context `{Builtins} `{Config} `{Faults}.

Abbreviation quiet := (spec limiter_untouched not_429).

Ltac quiet_bind P :=
  eapply (spec_bind _ _ limiter_untouched_trans P).

Lemma quiet_ret {A} (P : A -> Prop) (a : A) : P a -> quiet P (ret a).
Proof. by apply spec_ret; auto with handlers. Qed.

Lemma quiet_lift_sum {A} (r : A + list N) : quiet (fun _ => True) (lift_sum r).
Proof. apply spec_lift_sum; auto with handlers. Qed.

Lemma quiet_generatePresignedDownloadUrl (key : list N) (ttl : Z)
    (disposition : option (list N)) :
  quiet (fun _ => True) (generatePresignedDownloadUrl key ttl disposition).
Proof.
  apply spec_perform; auto with handlers.
  - intros w. by apply limiter_untouched_log.
  - intros w. split; [by apply limiter_untouched_log|done].
Qed.

Lemma quiet_db_getMediaObjectById (ident : list N) :
  quiet (fun _ => True) (db_getMediaObjectById ident).
Proof.
  apply spec_perform; auto with handlers.
  - intros w. by apply limiter_untouched_log.
  - intros w. split; [by apply limiter_untouched_log|done].
Qed.

Lemma quiet_db_listMediaObjects (params : ListParams) :
  quiet (fun _ => True) (db_listMediaObjects params).
Proof.
  intros w. unfold db_listMediaObjects.
  destruct (listMediaObjects params (media_objects w)) as [r|msg].
  - apply (spec_perform limiter_untouched not_429 (fun _ => True) PgList);
      auto with handlers.
    + intros w'. by apply limiter_untouched_log.
    + intros w'. split; [by apply limiter_untouched_log|done].
  - simpl. split; auto with handlers.
Qed.

Lemma quiet_buildDownloadUrl (key : list N) (name : option (list N)) :
  quiet (fun _ => True) (buildDownloadUrl key name).
Proof.
  unfold buildDownloadUrl.
  destruct (publicRead && truthy_opt cdnBaseUrl); [apply quiet_lift_sum|].
  quiet_bind (fun _ : option (list N) => True).
  - destruct name as [n|]; [|by apply quiet_ret].
    destruct (truthy n); [|by apply quiet_ret].
    quiet_bind (fun _ : list N => True); [apply quiet_lift_sum|].
    intros d _. by apply quiet_ret.
  - intros d _. apply quiet_generatePresignedDownloadUrl.
Qed.

Lemma quiet_urlOf (item : MediaObject) :
  quiet (url_follows_status item) (urlOf item).
Proof.
  unfold urlOf, url_follows_status. destruct (status item) eqn:Hs.
  - quiet_bind (fun _ : list N => True); [apply quiet_buildDownloadUrl|].
    intros u _. apply quiet_ret. split; [done|]. by eexists.
  - apply quiet_ret. by split.
Qed.

Lemma quiet_itemsWithUrls (rows : list MediaObject) :
  quiet (fun listed =>
           listed_record <$> listed = rows
           /\ Forall (fun li => url_follows_status (listed_record li)
                                  (listed_url li)) listed)
    (itemsWithUrls rows).
Proof.
  induction rows as [|item rows IH]; simpl.
  - apply quiet_ret. by split.
  - quiet_bind (url_follows_status item); [apply quiet_urlOf|].
    intros url Hurl.
    eapply (spec_bind _ _ limiter_untouched_trans); [exact IH|].
    intros others [Hrec Hall]. apply quiet_ret. split.
    + rewrite fmap_cons. simpl. by rewrite Hrec.
    + by constructor.
Qed.

Lemma quiet_ensureUser (req : Request) :
  quiet (fun _ => True) (ensureUser req).
Proof.
  unfold ensureUser. destruct (req_user req); [by apply quiet_ret|].
  apply spec_throw; [auto with handlers|]. unfold not_429. simpl. intros [=].
Qed.

Lemma quiet_listHandler (req : Request) : quiet good_response (listHandler req).
Proof.
  unfold listHandler.
  quiet_bind (fun _ : User => True); [apply quiet_ensureUser|].
  intros user _. destruct (listSchema req) as [[[limit cursor] scope]|].
  - quiet_bind (fun _ : ListResult => True); [apply quiet_db_listMediaObjects|].
    intros result _.
    eapply (spec_bind _ _ limiter_untouched_trans);
      [apply quiet_itemsWithUrls|].
    intros listed [_ Hall]. apply quiet_ret. by split.
  - apply quiet_ret. by split.
Qed.

Lemma quiet_getHandler (req : Request) : quiet good_response (getHandler req).
Proof.
  unfold getHandler.
  quiet_bind (fun _ : User => True); [apply quiet_ensureUser|].
  intros user _.
  quiet_bind (fun _ : option MediaObject => True);
    [apply quiet_db_getMediaObjectById|].
  intros [media|] _; [|apply quiet_ret; by split].
  destruct (negb (streq (ownerId media) (user_id user)) && negb (is_admin user));
    [apply quiet_ret; by split|].
  quiet_bind (fun _ : option (list N) => True).
  - destruct (presign_true req); [|by apply quiet_ret].
    quiet_bind (fun _ : list N => True); [apply quiet_lift_sum|].
    intros d _.
    quiet_bind (fun _ : list N => True);
      [apply quiet_generatePresignedDownloadUrl|].
    intros u _. by apply quiet_ret.
  - intros presignedUrl _.
    quiet_bind (url_follows_status media); [apply quiet_urlOf|].
    intros url Hurl. apply quiet_ret. by split.
Qed.

Lemma errorHandler_not_429 (e : JsError) :
  not_429 e -> res_status (errorHandler e) <> 429.
Proof.
  unfold not_429, errorHandler. simpl.
  destruct (statusCode e) as [c|]; simpl; [congruence|done].
Qed.

(** Both GET routes, served through the router: the answer is never
    429, the [url] of every record answered follows its status, and the
    limiter's counters and calls are as before. *)
Lemma get_routes_quiet (pattern : Pattern) (req : Request) (w : World) :
  pattern = path_media \/ pattern = path_media_id ->
  let served := serve GET pattern req w in
  good_response served.1 /\ limiter_untouched w served.2.
Proof.
  intros Hp served. subst served. unfold serve.
  assert (Hq : exists h,
             List.find (fun r => method_eqb (route_method r) GET
                                 && pattern_eqb (route_pattern r) pattern)
               routes
             = Some (mkRoute GET pattern [] h)
             /\ quiet good_response (run_handler h req)).
  { destruct Hp as [-> | ->].
    - exists list_handler. split; [done|apply quiet_listHandler].
    - exists get_handler. split; [done|apply quiet_getHandler]. }
  destruct Hq as (h & -> & Hh). cbn [route_chain route_handler run_chain].
  specialize (Hh w).
  destruct (run_handler h req w) as [[response|err] w']; simpl in *.
  - destruct Hh. by split.
  - destruct Hh as [HR He]. split; [|done].
    split; [by apply errorHandler_not_429|done].
Qed.

Definition requester (req : Request) : list N :=
  match req_user req with
  | Some u => user_id u
  | None => lit "anonymous"
  end.

(** C10.  Of the five routes, exactly POST /media/upload, POST
    /media/presign and DELETE /media/:id carry the rate-limit
    middleware, and it runs first on each of them: a request the
    limiter rejects is answered 429 there.  For every request and
    world, GET /media and GET /media/:id answer with a status other than
    429 and leave the limiter's counters and its call log untouched. *)
Theorem rate_limited_routes :
  (forall r, r ∈ routes ->
     uses_rate_limiter r = true
     <-> (route_method r, route_pattern r)
         ∈ [(POST, path_media_upload); (POST, path_media_presign);
            (DELETE, path_media_id)])
  /\ (forall (method : Method) (pattern : Pattern) (req : Request)
             (w w1 : World) (e : JsError),
        (method, pattern)
        ∈ [(POST, path_media_upload); (POST, path_media_presign);
           (DELETE, path_media_id)] ->
        RateLimiter.rateLimiter (requester req) w = (Thrown e, w1) ->
        message e = lit "RATE_LIMITED" ->
        serve method pattern req w
        = (mkResponse 429 (JsonMessage (lit "Too many requests")), w1))
  /\ (forall (pattern : Pattern) (req : Request) (w : World),
        pattern = path_media \/ pattern = path_media_id ->
        let served := serve GET pattern req w in
        res_status served.1 <> 429
        /\ redis served.2 = redis w
        /\ limiter_calls served.2 = limiter_calls w).
Proof.
  split; [|split].
  - intros r Hr. unfold routes in Hr.
    repeat (apply elem_of_cons in Hr as [->|Hr]);
      [..|by apply elem_of_nil in Hr]; simpl; split; intros Hx;
      try done; try (repeat constructor; fail);
      repeat (apply elem_of_cons in Hx as [Hx|Hx]; [discriminate Hx|]);
      by apply elem_of_nil in Hx.
  - intros method pattern req w w1 e Hroute Hrej Hmsg.
    assert (Hserve : forall chain h,
               (let '(o, w') := run_chain (rateLimitMiddleware :: chain) h req w in
                match o with
                | Returned response => (response, w')
                | Thrown err => (errorHandler err, w')
                end)
               = (mkResponse 429 (JsonMessage (lit "Too many requests")), w1)).
    { intros chain h. cbn [run_chain run_middleware].
      unfold bind, run_rateLimitMiddleware. fold (requester req).
      by rewrite Hrej, Hmsg. }
    repeat (apply elem_of_cons in Hroute as [Hroute|Hroute];
            [injection Hroute as -> ->; unfold serve; simpl List.find;
             cbn [route_chain route_handler]; apply Hserve|]).
    by apply elem_of_nil in Hroute.
  - intros pattern req w Hp served.
    destruct (get_routes_quiet pattern req w Hp) as [[Hs _] [Hr Hc]].
    by repeat split.
Qed.

(** The part of C1 that holds: on both GET routes the [url] field of
    a DELETED record is null and that of an ACTIVE record is a URL. *)
Lemma url_field_follows_status (pattern : Pattern) (req : Request) (w : World) :
  pattern = path_media \/ pattern = path_media_id ->
  match res_body (serve GET pattern req w).1 with
  | JsonList listed _ =>
      Forall (fun li => url_follows_status (listed_record li) (listed_url li))
        listed
  | JsonMedia media url _ => url_follows_status media url
  | _ => True
  end.
Proof.
  intros Hp. destruct (get_routes_quiet pattern req w Hp) as [[_ Hb] _].
  exact Hb.
Qed.

(** The presigned URL of [GET /media/:id?presign=true] is issued
    without looking at the status: for a DELETED record the owner (or an
    administrator) still receives a signed download URL, next to a null
    [url]. *)
Lemma presign_ignores_status (req : Request) (w : World) (user : User)
    (media : MediaObject) (disposition : list N) :
  (forall w' c, fault w' c = None) ->
  req_user req = Some user ->
  getMediaObjectById (param_id req) (media_objects w) = Some media ->
  negb (streq (ownerId media) (user_id user)) && negb (is_admin user) = false ->
  presign_true req = true ->
  dispositionFor (originalName media) = inl disposition ->
  status media = DELETED ->
  (getHandler req w).1
  = Returned
      (mkResponse 200
         (JsonMedia media None
            (Some (sign_get (storedKey media) (Some disposition)
                     presignExpirationSeconds)))).
Proof.
  intros Hok Huser Hfound Hauth Hflag Hdisp Hdel.
  unfold getHandler, ensureUser, db_getMediaObjectById,
    generatePresignedDownloadUrl, urlOf, perform, bind, ret.
  rewrite Huser, Hok, Hfound, Hauth, Hflag, Hdisp. simpl.
  rewrite Hok, Hdel. reflexivity.
Qed.

End Handlers.

Section Runs.
Import Sample.
#[local] Existing Instance healthy.

Definition deleted_row : MediaObject := row "m1" "alice" DELETED 1000.

Definition world_with_deleted_row : World :=
  mkWorld [deleted_row] ∅ [] ∅ 5000 0 [].

Definition presign_request : Request :=
  mkRequest (Some alice) (lit "m1") LimitAbsent None ScopeAbsent true false
    None (MulterParsed [] [] None).

(** C1 at a DELETED record fetched by its owner with [presign=true]:
    the answer is 200, its [url] is null, and its [presignedUrl] is a
    freshly signed download URL of the stored object. *)
Theorem deleted_record_gets_presigned_url :
  (serve GET path_media_id presign_request world_with_deleted_row).1
  = mkResponse 200
      (JsonMedia deleted_row None
         (Some (lit "https://s3.test/uploads/alice/m1.png?X-Amz-Signature=get")))
  /\ status deleted_row = DELETED.
Proof. split; [vm_compute; reflexivity|reflexivity]. Qed.

End Runs.
End RetrievalFacts.

(** ** Deletion orchestrator *)

Module DeletionFacts.
Import JS Database Runtime Collaborators Routes.

Definition is_publish (l : Logged) : bool :=
  match l with
  | Done (RedisPublish _ _) | Failed (RedisPublish _ _) => true
  | _ => false
  end.

Definition is_purge (l : Logged) : bool :=
  match l with
  | Done (S3Delete _) | Failed (S3Delete _) => true
  | _ => false
  end.

(** A monitor over a handler's calls: publishes and purges are allowed
    only once a soft delete has completed. *)
Fixpoint ordered (soft_deleted : bool) (trace : list Logged) : bool :=
  match trace with
  | [] => true
  | Done (PgSoftDelete _) :: rest => ordered true rest
  | l :: rest =>
      (if is_publish l || is_purge l then soft_deleted else true)
      && ordered soft_deleted rest
  end.

Lemma ordered_sound (trace : list Logged) :
  forall (soft_deleted : bool) (before : list Logged) (l : Logged)
         (after : list Logged),
    ordered soft_deleted trace = true ->
    trace = before ++ l :: after ->
    is_publish l || is_purge l = true ->
    soft_deleted = true \/ exists ident, Done (PgSoftDelete ident) ∈ before.
Proof.
  induction trace as [|x trace IH]; intros b before l after Hord Hsplit Hl.
  - by destruct before.
  - destruct before as [|y before].
    + injection Hsplit as -> ->. left.
      destruct l as [[]|[]]; simpl in *; try done;
        by apply andb_prop in Hord as [? _].
    + injection Hsplit as -> ->.
      assert (Hcases :
        (exists ident, y = Done (PgSoftDelete ident) /\ ordered true (before ++ l :: after) = true)
        \/ ordered b (before ++ l :: after) = true).
      { destruct y as [[]|[]]; simpl in Hord;
          try (right;
               first [exact Hord | by apply andb_prop in Hord as [_ ?]]).
        left. by eexists. }
      destruct Hcases as [(ident & -> & Hord')|Hord'].
      * right. exists ident. by left.
      * destruct (IH b before l after Hord' eq_refl Hl) as [?|[ident Hin]];
          [by left|].
        right. exists ident. by right.
Qed.

Section Deletion.
Context `{Builtins} `{Config} `{Faults}.

(** C7.  The calls [DELETE /media/:id] makes extend the log by a
    trace in which every publish and every purge comes after a soft
    delete that completed.  A publish is attempted only when that soft
    delete returned the record it had just marked DELETED, and it
    announces that record; a purge is attempted only when [purge=true],
    for the target's key, with the table left by the soft delete, in
    which the target is DELETED. *)
Theorem deletion_order :
  forall (req : Request) (w : World),
    let served := deleteHandler req w in
    exists trace : list Logged,
      calls served.2 = calls w ++ trace
      /\ (forall before l after,
            trace = before ++ l :: after ->
            is_publish l || is_purge l = true ->
            exists ident, Done (PgSoftDelete ident) ∈ before)
      /\ (forall l channel payload,
            l ∈ trace ->
            l = Done (RedisPublish channel payload)
            \/ l = Failed (RedisPublish channel payload) ->
            exists target record,
              getMediaObjectById (param_id req) (media_objects w) = Some target
              /\ softDeleteMediaObject (clock w) (id target) (media_objects w)
                 = (Some record, media_objects served.2)
              /\ ev_id payload = id record
              /\ ev_action payload = deleted)
      /\ (forall l key,
            l ∈ trace ->
            l = Done (S3Delete key) \/ l = Failed (S3Delete key) ->
            exists target,
              getMediaObjectById (param_id req) (media_objects w) = Some target
              /\ key = storedKey target
              /\ purge_true req = true
              /\ media_objects served.2
                 = (softDeleteMediaObject (clock w) (id target)
                      (media_objects w)).2
              /\ forall r, r ∈ media_objects served.2 ->
                           id r = id target -> status r = DELETED).
Proof.
  intros req w served. subst served.
  unfold deleteHandler, ensureUser, db_getMediaObjectById,
    db_softDeleteMediaObject, publishMediaEvent, deleteObject, now_iso,
    perform, bind, ret, throw.
  repeat case_match; simplify_eq; simpl in *.
  all: eexists.
  all: (split; [rewrite <- ?app_assoc;
                first [reflexivity | symmetry; apply app_nil_r]|]).
  all: split;
    [intros before l' after Hsplit Hl;
     match type of Hsplit with
     | ?t = _ =>
         destruct (ordered_sound t false before l' after eq_refl Hsplit Hl)
           as [Hf|Hex]; [discriminate Hf|exact Hex]
     end|].
  all: split;
    [intros l' channel payload Hin Hl|intros l' key Hin Hl].
  all: rewrite ?elem_of_app, ?elem_of_cons, ?elem_of_nil in Hin.
  all: destruct_or!; simplify_eq.
  all: try (eexists _, _; split; [eassumption|];
            split; [eassumption|done]).
  all: eexists; split; [eassumption|]; split; [done|]; split; [done|].
  all: match goal with
       | Hsd : softDeleteMediaObject ?now ?ident ?tbl = (_, ?l) |- _ =>
           replace l with (softDeleteMediaObject now ident tbl).2
             by (by rewrite Hsd)
       end.
  all: split; [done|].
  all: intros r Hr Hid; by eapply DatabaseFacts.softDelete_marks_target.
Qed.

End Deletion.

Section Runs.
Import Sample.
#[local] Existing Instance healthy.

Definition delete_request : Request :=
  mkRequest (Some alice) (lit "m1") LimitAbsent None ScopeAbsent false false
    None (MulterParsed [] [] None).

(** A DELETE repeated on a record that is already DELETED: the
    handler finds the row, the soft delete returns null, nothing is
    published, and the answer is again 200 "Deleted". *)
Lemma repeated_delete_answers_200 :
  let w := mkWorld [row "m1" "alice" DELETED 1000] ∅ [] ∅ 5000 0 [] in
  (deleteHandler delete_request w).1
  = Returned (mkResponse 200 (JsonMessage (lit "Deleted")))
  /\ published (deleteHandler delete_request w).2 = []
  /\ media_objects (deleteHandler delete_request w).2 = media_objects w
  /\ calls (deleteHandler delete_request w).2
     = [Done (PgGetById (lit "m1")); Done (PgSoftDelete (lit "m1"))].
Proof. repeat split. Qed.

End Runs.
End DeletionFacts.

(** ** End-to-end runs of the model *)

Module Scenarios.
Import JS Filename Database Runtime Collaborators Routes Router.

Section Runs.
Import Sample.
#[local] Existing Instance healthy.

Definition after_upload : World :=
  (serve POST path_media_upload UploadFacts.single_upload_request
     empty_world).2.

Definition get_request (ident : list N) (presign : bool) : Request :=
  mkRequest (Some alice) ident LimitAbsent None ScopeAbsent presign false
    None (MulterParsed [] [] None).

Definition listed_statuses (r : Response) : list (MediaStatus * bool) :=
  match res_body r with
  | JsonList listed _ =>
      (fun li => (status (listed_record li),
                  bool_decide (is_Some (listed_url li)))) <$> listed
  | _ => []
  end.

(** One valid image uploaded by alice: 201 with the record and a
    signed URL; the object is stored under [uploads/alice/id-0.png]. *)
Example upload_one_image :
  (serve POST path_media_upload UploadFacts.single_upload_request
     empty_world).1
  = mkResponse 201
      (JsonUploaded
         (mkUploadedItem
            (mkMediaObject (lit "id-0") (lit "alice") (lit "cat.png")
               (lit "uploads/alice/id-0.png") (lit "image/png") 3
               (Some 1) (Some 1) ACTIVE 0 None)
            (lit "https://s3.test/uploads/alice/id-0.png?X-Amz-Signature=get")))
  /\ is_Some (bucket after_upload !! lit "uploads/alice/id-0.png")
  /\ calls after_upload
     = [Done (RedisMulti (lit "rate:alice"));
        Done (RedisExpire (lit "rate:alice"));
        Done (S3Put (lit "uploads/alice/id-0.png"));
        Done (PgInsert (lit "id-0"));
        Done (RedisPublish (lit "photo:uploaded")
                (mkEvent (lit "id-0") (lit "alice")
                   (lit "uploads/alice/id-0.png") uploaded (lit "0")));
        Done (S3SignGet (lit "uploads/alice/id-0.png"))].
Proof. split_and!; vm_compute; eauto. Qed.

(** Listing afterwards shows the record with a URL; after a DELETE it
    is listed no more, and fetching it by id gives a null [url]. *)
Example upload_list_delete_list :
  let listed := serve GET path_media (get_request [] false) after_upload in
  let removed :=
    serve DELETE path_media_id (get_request (lit "id-0") false) listed.2 in
  let listed_again := serve GET path_media (get_request [] false) removed.2 in
  let fetched :=
    serve GET path_media_id (get_request (lit "id-0") false) listed_again.2 in
  listed_statuses listed.1 = [(ACTIVE, true)]
  /\ removed.1 = mkResponse 200 (JsonMessage (lit "Deleted"))
  /\ published removed.2
     = [(lit "photo:uploaded",
         mkEvent (lit "id-0") (lit "alice") (lit "uploads/alice/id-0.png")
           uploaded (lit "0"));
        (lit "photo:deleted",
         mkEvent (lit "id-0") (lit "alice") (lit "uploads/alice/id-0.png")
           deleted (lit "0"))]
  /\ listed_statuses listed_again.1 = []
  /\ res_status fetched.1 = 200
  /\ match res_body fetched.1 with
     | JsonMedia media url _ => status media = DELETED /\ url = None
     | _ => False
     end.
Proof. cbv zeta. split_and!; vm_compute; try reflexivity. by split. Qed.

(** The third upload within the window of two requests is answered
    429 and stores nothing. *)
Example third_request_rejected :
  let once :=
    serve POST path_media_upload UploadFacts.single_upload_request
      empty_world in
  let twice :=
    serve POST path_media_upload UploadFacts.single_upload_request once.2 in
  let thrice :=
    serve POST path_media_upload UploadFacts.single_upload_request twice.2 in
  res_status once.1 = 201 /\ res_status twice.1 = 201
  /\ thrice.1 = mkResponse 429 (JsonMessage (lit "Too many requests"))
  /\ media_objects thrice.2 = media_objects twice.2
  /\ bucket thrice.2 = bucket twice.2.
Proof. cbv zeta. split_and!; vm_compute; reflexivity. Qed.

(** The inferred extension: from the MIME table, else from the file
    name. *)
Example extensionFrom_examples :
  extensionFrom (lit "image/jpeg") (Some (lit "photo.PNG")) = lit "jpg"
  /\ extensionFrom (lit "application/octet-stream") (Some (lit "photo.PNG"))
     = lit "png"
  /\ extensionFrom (lit "application/octet-stream") (Some (lit "archive.tar.g-z"))
     = lit "gz"
  /\ extensionFrom (lit "application/octet-stream") (Some (lit "README")) = [].
Proof. repeat split. Qed.

End Runs.
End Scenarios.

(** * Further properties of the code *)

(** ** Header encoding, extensions and upload names *)

Module FilenameExtras.
Import JS Filename.

(** The characters [! ' ( ) *] that [encodeRFC5987Value] escapes. *)
Definition rfc5987_escaped : list N := [33; 39; 40; 41; 42]%N.

Lemma percent_hex_clean (c : N) :
  Forall (fun x => x ∉ rfc5987_escaped) (percent_hex c).
Proof.
  unfold percent_hex.
  repeat match goal with
         | |- context [if (?a =? ?b)%N then _ else _] =>
             destruct (a =? b)%N eqn:?; [compute_done|]
         end.
  constructor; [|constructor].
  unfold rfc5987_escaped. rewrite !not_elem_of_cons.
  repeat split; try apply not_elem_of_nil;
    intros ->; rewrite N.eqb_refl in *; done.
Qed.

Lemma mjoin_percent_hex_clean (s : list N) :
  Forall (fun x => x ∉ rfc5987_escaped) (mjoin (percent_hex <$> s)).
Proof.
  induction s as [|c s IH]; [constructor|].
  rewrite fmap_cons. simpl. apply Forall_app. split; [apply percent_hex_clean|done].
Qed.

Lemma percent_hex_id (c : N) : c ∉ rfc5987_escaped -> percent_hex c = [c].
Proof.
  unfold rfc5987_escaped. rewrite !not_elem_of_cons.
  intros (?&?&?&?&?&_). unfold percent_hex.
  repeat match goal with
         | |- context [if (?a =? ?b)%N then _ else _] =>
             destruct (a =? b)%N eqn:E; [apply N.eqb_eq in E; done|clear E]
         end.
  done.
Qed.

Section WithBuiltins.
Context `{Builtins}.

Lemma encodeRFC5987Value_clean (value encoded : list N) :
  encodeRFC5987Value value = inl encoded ->
  Forall (fun c => c ∉ rfc5987_escaped) encoded.
Proof.
  unfold encodeRFC5987Value.
  destruct (encodeURIComponent value) as [raw|e]; [|done].
  intros [= <-]. apply mjoin_percent_hex_clean.
Qed.

Lemma encodeRFC5987Value_error (value e : list N) :
  encodeRFC5987Value value = inr e -> encodeURIComponent value = inr e.
Proof.
  unfold encodeRFC5987Value.
  destruct (encodeURIComponent value) as [raw|e']; [done|]. by intros [= <-].
Qed.

(** X1.  Whatever [encodeURIComponent] returns, the value produced by
    [encodeRFC5987Value] contains none of [! ' ( ) *]; a value that had
    none of them comes out as [encodeURIComponent] gave it; and the only
    failure is the [URIError] of [encodeURIComponent]. *)
Theorem encodeRFC5987Value_escapes :
  forall value : list N,
    match encodeRFC5987Value value with
    | inl encoded =>
        Forall (fun c => c ∉ rfc5987_escaped) encoded
        /\ exists raw, encodeURIComponent value = inl raw
             /\ (Forall (fun c => c ∉ rfc5987_escaped) raw -> encoded = raw)
    | inr e => encodeURIComponent value = inr e
    end.
Proof.
  intros value. unfold encodeRFC5987Value.
  destruct (encodeURIComponent value) as [raw|e]; [|done].
  split; [apply mjoin_percent_hex_clean|].
  exists raw. split; [done|].
  induction 1 as [|c raw Hc _ IH]; [done|].
  rewrite fmap_cons. simpl. by rewrite percent_hex_id, IH.
Qed.

Lemma fallback_matches_safe_name (originalName extension : list N) :
  forallb is_safe extension = true ->
  matches_safe_name (buildAsciiFallbackFilename originalName extension) = true.
Proof.
  intros Hext. unfold buildAsciiFallbackFilename, slice0.
  fold (FilenameFacts.cleaned_base originalName).
  rewrite FilenameFacts.existsb_truthy.
  set (cleaned := FilenameFacts.cleaned_base originalName).
  set (fileBase := if existsb is_alnum cleaned then cleaned else lit "file").
  assert (Hbase_safe : forallb is_safe fileBase = true).
  { subst fileBase. destruct (existsb is_alnum cleaned); [|done].
    apply FilenameFacts.cleaned_base_safe. }
  assert (Hbase_ne : fileBase <> []).
  { subst fileBase. destruct (existsb is_alnum cleaned) eqn:Hex; [|done].
    intros E. by rewrite E in Hex. }
  unfold matches_safe_name. apply andb_true_intro. split.
  - destruct fileBase; [done|done].
  - apply FilenameFacts.forallb_take. rewrite forallb_app, Hbase_safe.
    destruct (truthy extension); [|done]. simpl. by rewrite Hext.
Qed.

(** X2.  The [Content-Disposition] value built for an upload (and for
    a signed download, where the MIME type is [application/octet-stream])
    is [inline; filename="F"; filename*=UTF-8''E] where the quoted
    fallback [F] matches [^[A-Za-z0-9._-]+$], so it holds no quote,
    backslash, semicolon, CR or LF, and [E] holds none of [! ' ( ) *];
    it fails only with the [URIError] of [encodeURIComponent].  This is
    for a MIME type with a slash, as every type/subtype has: the lookup
    [byMime[mimeType]] of the source would answer for the inherited
    property names of an object, which have none. *)
Theorem content_disposition_is_header_safe :
  forall (mimeType originalName : list N),
    47%N ∈ mimeType ->
    let fallback :=
      buildAsciiFallbackFilename originalName
        (extensionFrom mimeType (Some originalName)) in
    matches_safe_name fallback = true
    /\ Forall (fun c => c ∉ [34; 92; 59; 13; 10]%N) fallback
    /\ match buildContentDisposition originalName fallback with
       | inl header =>
           exists encoded,
             header = lit "inline; filename=" ++ [34%N] ++ fallback ++ [34%N]
                      ++ lit "; filename*=UTF-8''" ++ encoded
             /\ Forall (fun c => c ∉ rfc5987_escaped) encoded
       | inr e => encodeURIComponent originalName = inr e
       end.
Proof.
  intros mime name _ fallback.
  assert (Hsafe : matches_safe_name fallback = true).
  { apply fallback_matches_safe_name, FilenameFacts.extensionFrom_safe. }
  split; [done|]. split.
  - unfold matches_safe_name in Hsafe. apply andb_prop in Hsafe as [_ Hall].
    apply Forall_forall. intros c Hc.
    rewrite forallb_forall in Hall.
    specialize (Hall c (proj1 (list_elem_of_In _ _) Hc)).
    rewrite !not_elem_of_cons.
    repeat split; try apply not_elem_of_nil; intros ->; done.
  - unfold buildContentDisposition.
    destruct (encodeRFC5987Value name) as [enc|e] eqn:E.
    + exists enc. split; [done|by eapply encodeRFC5987Value_clean].
    + by apply encodeRFC5987Value_error.
Qed.

(** X3.  For a MIME type with a slash (as every type/subtype has; the
    lookup [byMime[mimeType]] of the source would otherwise reach the
    inherited properties of the table object), the extension
    [extensionFrom] infers is made of lower-case letters and digits only,
    whatever the platform functions return; for a MIME type of the table
    the file name plays no role; with an unknown MIME type and no (or an
    empty) file name it is empty.  Hence the object key of an upload
    ends in the identifier, or in the identifier, a dot and such an
    extension. *)
Theorem extensionFrom_lower_alnum :
  forall (mimeType : list N),
    47%N ∈ mimeType ->
    (forall fileName,
       forallb is_lower_alnum (extensionFrom mimeType fileName) = true)
    /\ (forall fileName fileName',
          byMime mimeType <> None ->
          extensionFrom mimeType fileName = extensionFrom mimeType fileName')
    /\ (byMime mimeType = None ->
        extensionFrom mimeType None = []
        /\ extensionFrom mimeType (Some []) = [])
    /\ (forall userId ident fileName,
          exists suffix,
            buildObjectKey userId ident (extensionFrom mimeType fileName)
            = lit "uploads/" ++ userId ++ lit "/" ++ ident ++ suffix
            /\ (suffix = []
                \/ exists ext, suffix = 46%N :: ext /\ ext <> []
                     /\ forallb is_lower_alnum ext = true)).
Proof.
  intros mime _.
  assert (Hall : forall fileName,
             forallb is_lower_alnum (extensionFrom mime fileName) = true).
  { intros f. unfold extensionFrom, byMime.
    repeat (match goal with |- context [streq ?a ?b] => destruct (streq a b) end;
            [done|]).
    apply forallb_forall. intros c Hc. by apply filter_In in Hc as [_ Hc]. }
  split; [done|]. split.
  { intros f f' Hm. unfold extensionFrom.
    by destruct (byMime mime). }
  split.
  { intros Hm. unfold extensionFrom. by rewrite Hm. }
  intros user ident f. unfold buildObjectKey.
  specialize (Hall f).
  destruct (extensionFrom mime f) as [|c ext] eqn:E.
  - exists []. split; [done|by left].
  - exists (46%N :: c :: ext). split; [done|]. right. by exists (c :: ext).
Qed.

(** X4.  [normalizeUploadFilename] returns either the name it was
    given or its re-decoding as UTF-8, and the latter only when every
    character of the name is below U+0100 and the decoding holds no
    replacement character U+FFFD.  So a name with a character above
    U+00FF is never touched, and the function never introduces
    U+FFFD. *)
Theorem normalizeUploadFilename_cases :
  forall originalName : list N,
    let result := normalizeUploadFilename originalName in
    (result = originalName
     \/ (result = Buffer_latin1_as_utf8 originalName
         /\ Forall (fun c => (c <= 255)%N) originalName
         /\ 65533%N ∉ result))
    /\ (Exists (fun c => (255 < c)%N) originalName -> result = originalName)
    /\ (65533%N ∈ result -> 65533%N ∈ originalName).
Proof.
  intros name result. subst result. unfold normalizeUploadFilename.
  destruct (forallb _ name) eqn:Hlatin; simpl.
  - assert (Hall : Forall (fun c => (c <= 255)%N) name).
    { apply Forall_forall. intros c Hc. rewrite forallb_forall in Hlatin.
      apply N.leb_le, Hlatin. by apply list_elem_of_In. }
    case_bool_decide as Hbad.
    + split; [by left|]. split; [done|]. intros Hin.
      rewrite Forall_forall in Hall. specialize (Hall _ Hin). lia.
    + split; [right; done|]. split; [|done].
      intros Hex. apply Exists_exists in Hex as (c & Hc & Hgt).
      rewrite Forall_forall in Hall. specialize (Hall _ Hc). lia.
  - split; [by left|]. done.
Qed.
End WithBuiltins.

Section Runs.
Import Sample.

Lemma content_disposition_is_header_safe_witness :
  (47%N ∈ lit "image/png")
  /\ buildAsciiFallbackFilename (lit "holiday photo (1).PNG")
       (extensionFrom (lit "image/png") (Some (lit "holiday photo (1).PNG")))
     = lit "holiday_photo_1.png"
  /\ matches_safe_name
       (buildAsciiFallbackFilename (lit "holiday photo (1).PNG")
          (extensionFrom (lit "image/png")
             (Some (lit "holiday photo (1).PNG")))) = true.
Proof.
  assert (Hslash : 47%N ∈ lit "image/png") by compute_done.
  exact (conj Hslash (conj eq_refl
           (proj1 (content_disposition_is_header_safe (lit "image/png")
                     (lit "holiday photo (1).PNG") Hslash)))).
Defined.

Lemma extensionFrom_lower_alnum_witness :
  (47%N ∈ lit "application/octet-stream")
  /\ extensionFrom (lit "application/octet-stream") (Some (lit "notes.TXT"))
     = lit "txt"
  /\ forallb is_lower_alnum
       (extensionFrom (lit "application/octet-stream")
          (Some (lit "notes.TXT"))) = true.
Proof.
  assert (Hslash : 47%N ∈ lit "application/octet-stream") by compute_done.
  exact (conj Hslash (conj eq_refl
           (proj1 (extensionFrom_lower_alnum (lit "application/octet-stream")
                     Hslash) (Some (lit "notes.TXT"))))).
Defined.
End Runs.
End FilenameExtras.
(** ** Metadata store: writes, lookups and pages *)

Module DatabaseExtras.
Import JS Database DatabaseFacts.

Lemma getMediaObjectById_app (ident : list N) (tbl tbl2 : Table) :
  getMediaObjectById ident (tbl ++ tbl2)
  = match getMediaObjectById ident tbl with
    | Some r => Some r
    | None => getMediaObjectById ident tbl2
    end.
Proof.
  unfold getMediaObjectById. rewrite List.filter_app.
  by destruct (List.filter _ tbl).
Qed.

Lemma getMediaObjectById_Some (ident : list N) (tbl : Table) (r : MediaObject) :
  getMediaObjectById ident tbl = Some r -> r ∈ tbl /\ id r = ident.
Proof.
  unfold getMediaObjectById. intros Hr.
  assert (Hin : In r (List.filter (fun x => streq (id x) ident) tbl)).
  { destruct (List.filter _ tbl); [done|]. injection Hr as ->. by left. }
  apply filter_In in Hin as [Hin E].
  split; [by apply list_elem_of_In|by apply streq_eq].
Qed.

Lemma existsb_id_get (ident : list N) (tbl : Table) :
  existsb (fun r => streq (id r) ident) tbl
  = bool_decide (getMediaObjectById ident tbl <> None).
Proof.
  unfold getMediaObjectById.
  induction tbl as [|x tbl IH]; [done|]. simpl.
  destruct (streq (id x) ident); [done|]. by rewrite IH.
Qed.

(** X5.  [createMediaObject] followed by [getMediaObjectById]: an insert
    succeeds exactly when no row has the identifier yet; the row it returns
    is ACTIVE, stamped with the current time, and is what a lookup of the
    identifier returns afterwards; the lookup of every other identifier is
    unchanged.  An identifier already present makes the insert fail and
    leaves the row that is there. *)
Theorem createMediaObject_then_get :
  forall (now : Z) (input : CreateMediaObjectInput) (tbl : Table),
    match createMediaObject now input tbl with
    | Some (row, tbl') =>
        getMediaObjectById (in_id input) tbl = None
        /\ getMediaObjectById (in_id input) tbl' = Some row
        /\ tbl' = tbl ++ [row]
        /\ id row = in_id input /\ ownerId row = in_ownerId input
        /\ storedKey row = in_storedKey input
        /\ status row = ACTIVE /\ uploadedAt row = now /\ deletedAt row = None
        /\ (forall other, other <> in_id input ->
              getMediaObjectById other tbl' = getMediaObjectById other tbl)
    | None => exists r, getMediaObjectById (in_id input) tbl = Some r
    end.
Proof.
  intros now input tbl. unfold createMediaObject.
  rewrite existsb_id_get. case_bool_decide as Hget.
  - destruct (getMediaObjectById (in_id input) tbl) as [r|]; [by exists r|done].
  - assert (Hnone : getMediaObjectById (in_id input) tbl = None).
    { destruct (getMediaObjectById (in_id input) tbl) as [r|]; [|done].
      first [done | exfalso; by apply Hget]. }
    split; [done|]. split.
    { rewrite getMediaObjectById_app, Hnone.
      unfold getMediaObjectById. simpl. by rewrite streq_refl. }
    do 7 (split; [done|]).
    intros other Hother. rewrite getMediaObjectById_app.
    destruct (getMediaObjectById other tbl); [done|].
    unfold getMediaObjectById. simpl.
    by rewrite (proj2 (streq_neq _ _)) by done.
Qed.

(** A soft delete leaves the lookup of every other identifier as it
    was. *)
Lemma getMediaObjectById_softDelete_other (now : Z) (ident other : list N)
    (tbl : Table) :
  other <> ident ->
  getMediaObjectById other (softDeleteMediaObject now ident tbl).2
  = getMediaObjectById other tbl.
Proof.
  intros Hother. unfold getMediaObjectById, softDeleteMediaObject. cbn [snd].
  set (f := fun r => if soft_delete_hits ident r then mark_deleted now r else r).
  induction tbl as [|x tbl IH]; [done|]. rewrite fmap_cons. simpl.
  assert (Hid : id (f x) = id x).
  { subst f. cbv beta. by destruct (soft_delete_hits ident x). }
  rewrite Hid. destruct (streq (id x) other) eqn:E; [|apply IH].
  simpl. f_equal. subst f. cbv beta. unfold soft_delete_hits.
  apply streq_eq in E. rewrite E.
  by rewrite (proj2 (streq_neq other ident)) by done.
Qed.

(** X6.  [softDeleteMediaObject] rewrites rows in place: the table keeps
    its length; each row keeps every column but [status] and
    [deleted_at]; a row of another identifier, and a row that is already
    DELETED (with the [deleted_at] it has), stays as it is; an ACTIVE row
    of the identifier becomes DELETED at the current time.  The call
    returns null exactly when it changed nothing, and otherwise a row of
    the new table. *)
Theorem softDelete_touches_only_target :
  forall (now : Z) (ident : list N) (tbl : Table),
    let result := softDeleteMediaObject now ident tbl in
    length result.2 = length tbl
    /\ (forall i r, tbl !! i = Some r ->
          exists r', result.2 !! i = Some r'
            /\ id r' = id r /\ ownerId r' = ownerId r
            /\ originalName r' = originalName r /\ storedKey r' = storedKey r
            /\ mimeType r' = mimeType r /\ sizeBytes r' = sizeBytes r
            /\ width r' = width r /\ height r' = height r
            /\ uploadedAt r' = uploadedAt r
            /\ (id r <> ident \/ status r = DELETED -> r' = r)
            /\ (id r = ident -> status r = ACTIVE ->
                status r' = DELETED /\ deletedAt r' = Some now))
    /\ (forall other, other <> ident ->
          getMediaObjectById other result.2 = getMediaObjectById other tbl)
    /\ match result.1 with
       | Some r => r ∈ result.2 /\ id r = ident /\ status r = DELETED
                   /\ deletedAt r = Some now /\ result.2 <> tbl
       | None => result.2 = tbl
       end.
Proof.
  intros now ident tbl result. subst result. unfold softDeleteMediaObject.
  cbn [fst snd].
  set (f := fun r => if soft_delete_hits ident r then mark_deleted now r else r).
  split; [by rewrite length_fmap|]. split; [|split].
  - intros i r Hr. exists (f r). rewrite list_lookup_fmap, Hr.
    split; [done|]. subst f. cbv beta. unfold soft_delete_hits.
    destruct (streq (id r) ident) eqn:Eid, (status r) eqn:Est; simpl;
      repeat split; try done.
    + intros [Hne|?]; [|done]. apply streq_eq in Eid. done.
    + apply streq_neq in Eid. done.
    + apply streq_neq in Eid. done.
  - intros other Hother. by apply getMediaObjectById_softDelete_other.
  - destruct (List.filter (soft_delete_hits ident) tbl) as [|x hits] eqn:Ehits.
    + simpl.
      assert (Hno : forall r, r ∈ tbl -> soft_delete_hits ident r = false).
      { intros r Hr. destruct (soft_delete_hits ident r) eqn:E; [|done].
        assert (Hin : In r (List.filter (soft_delete_hits ident) tbl)).
        { apply filter_In. split; [by apply list_elem_of_In|done]. }
        by rewrite Ehits in Hin. }
      apply (f_equal snd (softDelete_no_hit now ident tbl Hno)).
    + simpl.
      assert (Hx : In x (List.filter (soft_delete_hits ident) tbl)).
      { rewrite Ehits. by left. }
      apply filter_In in Hx as [Hx Hhit].
      apply list_elem_of_In in Hx.
      split.
      { apply list_elem_of_fmap. exists x. split; [|done].
        subst f. cbv beta. by rewrite Hhit. }
      unfold soft_delete_hits in Hhit. apply andb_prop in Hhit as [Hid Hst].
      apply streq_eq in Hid. split; [done|]. split; [done|]. split; [done|].
      intros Heq. apply list_elem_of_lookup_1 in Hx as [i Hi].
      apply (f_equal (fun t => t !! i)) in Heq.
      rewrite list_lookup_fmap, Hi in Heq. simpl in Heq.
      injection Heq as Heq. subst f. cbv beta in Heq.
      unfold soft_delete_hits in Heq. rewrite Hid, streq_refl, Hst in Heq.
      simpl in Heq. rewrite <- Heq in Hst. done.
Qed.

Section Paging.
Context `{Builtins}.

(** The timestamp bound a cursor parameter stands for. *)
Definition cursor_date (params : ListParams) : option Z :=
  if truthy_opt (lp_cursor params)
  then Date_parse (default [] (lp_cursor params)) else None.

Lemma listMediaObjects_inl (params : ListParams) (tbl : Table)
    (page : ListResult) :
  listMediaObjects params tbl = inl page ->
  page = page_of (lp_limit params) (list_query params (cursor_date params) tbl).
Proof.
  unfold listMediaObjects, cursor_date.
  destruct (truthy_opt (lp_cursor params)).
  - destruct (Date_parse _) as [d|]; [|done]. congruence.
  - congruence.
Qed.

Lemma page_of_items (limit : nat) (rows : Table) :
  items (page_of limit rows) = take limit rows.
Proof.
  unfold page_of. destruct (limit <? length rows)%nat eqn:E.
  - destruct (rows !! limit) eqn:El; [done|]. simpl.
    apply lookup_ge_None in El. by rewrite take_ge.
  - apply Nat.ltb_ge in E. simpl. by rewrite take_ge.
Qed.

Lemma page_of_nextCursor (limit : nat) (rows : Table) :
  nextCursor (page_of limit rows)
  = (fun r => Date_toISOString (uploadedAt r)) <$> rows !! limit.
Proof.
  unfold page_of. destruct (limit <? length rows)%nat eqn:E.
  - by destruct (rows !! limit).
  - apply Nat.ltb_ge in E. simpl.
    by rewrite (proj2 (lookup_ge_None rows limit) E).
Qed.

(** X7.  A page returned by [listMediaObjects] holds at most [limit]
    rows, newest first, each a row of the table; without
    [includeDeleted] each is ACTIVE, and with a non-empty owner each
    belongs to that owner; rows of a duplicate-free table are not
    repeated; and a page without [nextCursor] holds every row that
    matches the query. *)
Theorem listMediaObjects_page_sound :
  forall (params : ListParams) (tbl : Table) (page : ListResult),
    listMediaObjects params tbl = inl page ->
    (length (items page) <= lp_limit params)%nat
    /\ newest_first (items page)
    /\ (forall r, r ∈ items page ->
          r ∈ tbl
          /\ (lp_includeDeleted params = false -> status r = ACTIVE)
          /\ (forall owner, lp_ownerId params = Some owner -> owner <> [] ->
                ownerId r = owner))
    /\ (NoDup tbl -> NoDup (items page))
    /\ (nextCursor page = None ->
        forall r, r ∈ tbl -> list_where params (cursor_date params) r = true ->
                  r ∈ items page).
Proof.
  intros params tbl page Hpage.
  apply listMediaObjects_inl in Hpage as ->.
  rewrite page_of_items, page_of_nextCursor.
  set (rows := list_query params (cursor_date params) tbl).
  split; [rewrite length_take; lia|]. split.
  { apply newest_first_take. subst rows. unfold list_query.
    apply newest_first_take, order_by_sorted. }
  split.
  { intros r Hr. apply (subseteq_take _ _) in Hr.
    apply list_query_spec in Hr as [Hin Hw]. split; [done|].
    unfold list_where in Hw.
    apply andb_prop in Hw as [[Hst Hown]%andb_prop _]. split.
    - intros Hdel. rewrite Hdel in Hst. simpl in Hst. by destruct (status r).
    - intros owner Ho Hne. rewrite Ho in Hown. simpl in Hown.
      destruct owner; [done|]. simpl in Hown. by apply streq_eq in Hown. }
  split.
  { intros Hnd. eapply sublist_NoDup; [|apply sublist_take].
    by apply list_query_NoDup. }
  intros Hnone r Hr Hw.
  destruct (rows !! lp_limit params) eqn:Elim; [done|].
  apply lookup_ge_None in Elim.
  rewrite take_ge by done.
  assert (Hlen : (length (order_by_uploaded_at_desc
                    (List.filter (list_where params (cursor_date params)) tbl))
                  <= lp_limit params)%nat).
  { subst rows. unfold list_query in Elim. rewrite length_take in Elim. lia. }
  subst rows. unfold list_query. rewrite take_ge by lia.
  rewrite order_by_perm. apply list_elem_of_In, filter_In.
  split; [by apply list_elem_of_In|done].
Qed.

(** X8.  Following [nextCursor] never repeats a record: when the
    cursor a page returned is passed back with the same filters, and
    the timestamps of the table's rows survive
    [toISOString]/[new Date], every row of the next page is strictly
    older than every row of the page that issued the cursor. *)
Theorem next_page_is_strictly_older :
  forall (params : ListParams) (tbl : Table) (page page' : ListResult)
         (cursor : list N),
    (forall r, r ∈ tbl ->
       Date_parse (Date_toISOString (uploadedAt r)) = Some (uploadedAt r)
       /\ truthy (Date_toISOString (uploadedAt r)) = true) ->
    listMediaObjects params tbl = inl page ->
    nextCursor page = Some cursor ->
    listMediaObjects
      (mkListParams (lp_ownerId params) (lp_limit params) (Some cursor)
         (lp_includeDeleted params)) tbl = inl page' ->
    forall a b, a ∈ items page -> b ∈ items page' ->
                uploadedAt b < uploadedAt a.
Proof.
  intros params tbl page page' cursor Hcodec Hpage Hcur Hpage' a b Ha Hb.
  apply listMediaObjects_inl in Hpage as ->.
  apply listMediaObjects_inl in Hpage' as ->.
  rewrite page_of_items in Ha, Hb. rewrite page_of_nextCursor in Hcur.
  cbn [lp_limit] in Hb.
  set (rows := list_query params (cursor_date params) tbl) in *.
  destruct (rows !! lp_limit params) as [r|] eqn:Hr; [|done].
  injection Hcur as <-.
  assert (Hrin : r ∈ tbl).
  { eapply list_query_spec, list_elem_of_lookup_2, Hr. }
  destruct (Hcodec r Hrin) as [Hparse Htruthy].
  assert (Hsorted : newest_first rows).
  { subst rows. unfold list_query. apply newest_first_take, order_by_sorted. }
  assert (Hra : uploadedAt r <= uploadedAt a).
  { apply list_elem_of_lookup_1 in Ha as [i Hi].
    apply lookup_take_Some in Hi as [Hi Hlt].
    apply (Hsorted i (lp_limit params) a r); [lia|done|done]. }
  apply (subseteq_take _ _) in Hb. apply list_query_spec in Hb as [_ Hw].
  unfold cursor_date in Hw. cbn [lp_cursor default truthy_opt] in Hw.
  unfold Datatypes.id in Hw.
  rewrite Htruthy, Hparse in Hw. unfold list_where in Hw.
  apply andb_prop in Hw as [_ Hw]. apply Z.ltb_lt in Hw. lia.
Qed.

(** A cursor that is not empty and that [new Date] cannot read makes
    [listMediaObjects] throw [Invalid cursor] whatever the table holds;
    one it can read bounds the page from above; an empty cursor is
    ignored, as is a missing one. *)
Lemma listMediaObjects_cursor_validation :
  forall (params : ListParams) (tbl : Table),
    match lp_cursor params with
    | Some (c :: cursor) =>
        match Date_parse (c :: cursor) with
        | None => listMediaObjects params tbl = inr (lit "Invalid cursor")
        | Some d =>
            exists page, listMediaObjects params tbl = inl page
              /\ forall r, r ∈ items page -> uploadedAt r < d
        end
    | _ =>
        listMediaObjects params tbl
        = listMediaObjects
            (mkListParams (lp_ownerId params) (lp_limit params) None
               (lp_includeDeleted params)) tbl
    end.
Proof.
  intros params tbl. unfold listMediaObjects.
  destruct (lp_cursor params) as [[|c cursor]|] eqn:Ecur; simpl; try done.
  destruct (Date_parse (c :: cursor)) as [d|]; [|done].
  eexists. split; [done|]. intros r Hr. rewrite page_of_items in Hr.
  apply (subseteq_take _ _) in Hr. apply list_query_spec in Hr as [_ Hw].
  unfold list_where in Hw. apply andb_prop in Hw as [_ Hw].
  by apply Z.ltb_lt in Hw.
Qed.
End Paging.

Section Runs.
Import Sample.

Lemma listMediaObjects_page_sound_witness :
  let tbl := [row "m1" "alice" ACTIVE 1000; row "m2" "bob" ACTIVE 2000;
              row "m3" "alice" DELETED 3000; row "m4" "alice" ACTIVE 4000] in
  let params := mkListParams (Some (lit "alice")) 5 None false in
  let page := mkListResult [row "m4" "alice" ACTIVE 4000;
                            row "m1" "alice" ACTIVE 1000] None in
  listMediaObjects params tbl = inl page
  /\ (length (items page) <= 5)%nat
  /\ newest_first (items page).
Proof.
  intros tbl params page.
  assert (Hpage : listMediaObjects params tbl = inl page) by reflexivity.
  destruct (listMediaObjects_page_sound params tbl page Hpage)
    as (Hlen & Hsorted & _).
  exact (conj Hpage (conj Hlen Hsorted)).
Defined.

Lemma next_page_is_strictly_older_witness :
  let tbl := [row "m1" "alice" ACTIVE 1000; row "m2" "alice" ACTIVE 2000;
              row "m3" "alice" ACTIVE 3000; row "m4" "alice" ACTIVE 4000] in
  let params := mkListParams (Some (lit "alice")) 2 None false in
  let page := mkListResult [row "m4" "alice" ACTIVE 4000;
                            row "m3" "alice" ACTIVE 3000] (Some (lit "2000")) in
  let page' := mkListResult [row "m1" "alice" ACTIVE 1000] None in
  listMediaObjects params tbl = inl page
  /\ listMediaObjects
       (mkListParams (Some (lit "alice")) 2 (Some (lit "2000")) false) tbl
     = inl page'
  /\ uploadedAt (row "m1" "alice" ACTIVE 1000)
     < uploadedAt (row "m3" "alice" ACTIVE 3000).
Proof.
  intros tbl params page page'.
  assert (Hcodec : forall r, r ∈ tbl ->
            Date_parse (Date_toISOString (uploadedAt r)) = Some (uploadedAt r)
            /\ truthy (Date_toISOString (uploadedAt r)) = true).
  { intros r Hr. subst tbl. rewrite !elem_of_cons in Hr.
    destruct Hr as [->|[->|[->|[->|Hr]]]]; [done..|].
    by apply elem_of_nil in Hr. }
  assert (Hpage : listMediaObjects params tbl = inl page) by reflexivity.
  assert (Hpage' : listMediaObjects
            (mkListParams (lp_ownerId params) (lp_limit params)
               (Some (lit "2000")) (lp_includeDeleted params)) tbl
          = inl page') by reflexivity.
  assert (Ha : row "m3" "alice" ACTIVE 3000 ∈ items page)
    by (right; left).
  assert (Hb : row "m1" "alice" ACTIVE 1000 ∈ items page') by left.
  exact (conj Hpage (conj Hpage'
           (next_page_is_strictly_older params tbl page page' (lit "2000")
              Hcodec Hpage eq_refl Hpage' _ _ Ha Hb))).
Defined.
End Runs.

End DatabaseExtras.
(** ** Handlers: what they read, write and answer *)

(** Weakest preconditions for the handler monad: [wp m Q w] says that
    running [m] in world [w] ends in an outcome and a world related by
    [Q]. *)
Module Wp.
Import Runtime Collaborators.

Definition wp {A} (m : M A) (Q : Outcome A -> World -> Prop) (w : World)
  : Prop :=
  Q (m w).1 (m w).2.

Lemma wp_ret {A} (a : A) (Q : Outcome A -> World -> Prop) (w : World) :
  Q (Returned a) w -> wp (ret a) Q w.
Proof. done. Qed.

Lemma wp_throw {A} (e : JsError) (Q : Outcome A -> World -> Prop) (w : World) :
  Q (Thrown e) w -> wp (throw e) Q w.
Proof. done. Qed.

Lemma wp_bind {A B} (m : M A) (k : A -> M B)
    (Q : Outcome B -> World -> Prop) (w : World) :
  wp m (fun o w1 =>
          match o with
          | Returned a => wp (k a) Q w1
          | Thrown e => Q (Thrown e) w1
          end) w ->
  wp (bind m k) Q w.
Proof. unfold wp, bind. by destruct (m w) as [[a|e] w1]. Qed.

Lemma wp_mono {A} (m : M A) (Q Q' : Outcome A -> World -> Prop) (w : World) :
  wp m Q w -> (forall o w', Q o w' -> Q' o w') -> wp m Q' w.
Proof. unfold wp. auto. Qed.

Lemma wp_lift_sum {A} (r : A + list N) (Q : Outcome A -> World -> Prop)
    (w : World) :
  (forall a, r = inl a -> Q (Returned a) w) ->
  (forall msg, r = inr msg -> Q (Thrown (mkError msg None)) w) ->
  wp (lift_sum r) Q w.
Proof. destruct r; unfold wp; simpl; auto. Qed.

Lemma wp_perform `{Faults} {A} (c : Call)
    (effect : World -> Outcome A * World)
    (Q : Outcome A -> World -> Prop) (w : World) :
  (forall msg, fault w c = Some msg ->
               Q (Thrown (mkError msg None)) (log (Failed c) w)) ->
  (fault w c = None ->
   match effect w with
   | (Returned a, w') => Q (Returned a) (log (Done c) w')
   | (Thrown e, w') => Q (Thrown e) (log (Failed c) w')
   end) ->
  wp (perform c effect) Q w.
Proof.
  intros Hfail Hok. unfold wp, perform.
  destruct (fault w c) as [msg|]; [by apply Hfail|].
  specialize (Hok eq_refl). by destruct (effect w) as [[a|e] w'].
Qed.

(** A specification in the style of [HandlerLogic.spec] gives a weakest
    precondition. *)
Lemma wp_of_spec {A} (R : World -> World -> Prop) (E : JsError -> Prop)
    (P : A -> Prop) (m : M A) (Q : Outcome A -> World -> Prop) (w : World) :
  HandlerLogic.spec R E P m ->
  (forall o w', R w w' ->
                match o with Returned a => P a | Thrown e => E e end ->
                Q o w') ->
  wp m Q w.
Proof. intros Hm HQ. unfold wp. destruct (Hm w). by apply HQ. Qed.
End Wp.

Module HandlerExtras.
Import JS Filename Database Runtime Collaborators Routes Router HandlerLogic Wp.
Import DatabaseFacts DatabaseExtras.

(** Nothing changed but the log of calls, which only grew. *)
Definition only_logged (w w' : World) : Prop :=
  media_objects w' = media_objects w /\ bucket w' = bucket w
  /\ published w' = published w /\ redis w' = redis w
  /\ clock w' = clock w /\ uuids_drawn w' = uuids_drawn w
  /\ calls w `prefix_of` calls w'.

Lemma only_logged_refl (w : World) : only_logged w w.
Proof. by repeat split. Qed.

Lemma only_logged_trans (w1 w2 w3 : World) :
  only_logged w1 w2 -> only_logged w2 w3 -> only_logged w1 w3.
Proof.
  unfold only_logged. intros (?&?&?&?&?&?&?) (?&?&?&?&?&?&?).
  repeat split; try congruence. by etrans.
Qed.

Lemma only_logged_log (l : Logged) (w : World) : only_logged w (log l w).
Proof. repeat split. simpl. by apply prefix_app_r. Qed.

Lemma only_logged_log_trans (l : Logged) (w0 w : World) :
  only_logged w0 w -> only_logged w0 (log l w).
Proof. intros Hw. eapply only_logged_trans; [done|apply only_logged_log]. Qed.

(** An error without [statusCode], as the collaborators raise them. *)
Definition plain_error (e : JsError) : Prop := statusCode e = None.

Lemma plain_error_plain (msg : list N) : plain_error (mkError msg None).
Proof. done. Qed.

#[local] Hint Resolve only_logged_refl only_logged_trans only_logged_log
  only_logged_log_trans plain_error_plain : handlers.

Section Handlers.
Context `{Builtins} `{Config} `{Faults}.

Abbreviation reads := (spec only_logged plain_error).

Ltac reads_bind P :=
  eapply (spec_bind _ _ only_logged_trans P).

Lemma reads_ret {A} (P : A -> Prop) (a : A) : P a -> reads P (ret a).
Proof. by apply spec_ret; auto with handlers. Qed.

Lemma reads_lift_sum {A} (r : A + list N) : reads (fun _ => True) (lift_sum r).
Proof. by apply spec_lift_sum; auto with handlers. Qed.

Lemma reads_generatePresignedDownloadUrl (key : list N) (ttl : Z)
    (disposition : option (list N)) :
  reads (fun _ => True) (generatePresignedDownloadUrl key ttl disposition).
Proof.
  apply spec_perform; auto with handlers;
    intros w; split; auto with handlers.
Qed.

Lemma reads_buildDownloadUrl (key : list N) (name : option (list N)) :
  reads (fun _ => True) (buildDownloadUrl key name).
Proof.
  unfold buildDownloadUrl.
  destruct (publicRead && truthy_opt cdnBaseUrl); [apply reads_lift_sum|].
  reads_bind (fun _ : option (list N) => True).
  - destruct name as [n|]; [|by apply reads_ret].
    destruct (truthy n); [|by apply reads_ret].
    reads_bind (fun _ : list N => True); [apply reads_lift_sum|].
    intros d _. by apply reads_ret.
  - intros d _. apply reads_generatePresignedDownloadUrl.
Qed.

Lemma reads_urlOf (item : MediaObject) :
  reads (fun _ => True) (urlOf item).
Proof.
  unfold urlOf. destruct (status item).
  - reads_bind (fun _ : list N => True); [apply reads_buildDownloadUrl|].
    intros u _. by apply reads_ret.
  - by apply reads_ret.
Qed.

Lemma reads_itemsWithUrls (rows : list MediaObject) :
  reads (fun listed => listed_record <$> listed = rows) (itemsWithUrls rows).
Proof.
  induction rows as [|item rows IH]; simpl.
  - by apply reads_ret.
  - reads_bind (fun _ : option (list N) => True); [apply reads_urlOf|].
    intros url _.
    eapply (spec_bind _ _ only_logged_trans); [exact IH|].
    intros others Hrec. apply reads_ret. rewrite fmap_cons. simpl.
    by rewrite Hrec.
Qed.

(** The query [listHandler] sends for a validated request. *)
Definition list_params (user : User) (limit : nat)
    (cursor : option (list N)) (scope : Scope) : ListParams :=
  mkListParams
    (match scope with
     | self => Some (user_id user)
     | all => if is_admin user then None else Some (user_id user)
     end)
    limit cursor
    (match scope with all => is_admin user | self => false end).

(** What [GET /media] answers, and from which query. *)
Definition list_answer (req : Request) (w : World) (o : Outcome Response)
  : Prop :=
  match o with
  | Returned response =>
      (listSchema req = None /\ response = mkResponse 400 JsonSchemaError)
      \/ exists user limit cursor scope page listed,
           req_user req = Some user
           /\ listSchema req = Some (limit, cursor, scope)
           /\ listMediaObjects (list_params user limit cursor scope)
                (media_objects w) = inl page
           /\ listed_record <$> listed = items page
           /\ response = mkResponse 200 (JsonList listed (nextCursor page))
  | Thrown e =>
      (req_user req = None /\ e = mkError (lit "Unauthorized") (Some 401))
      \/ statusCode e = None
  end.

Lemma listHandler_answer (req : Request) (w : World) :
  only_logged w (listHandler req w).2
  /\ list_answer req w (listHandler req w).1.
Proof.
  change (wp (listHandler req)
            (fun o w' => only_logged w w' /\ list_answer req w o) w).
  unfold listHandler. apply wp_bind. unfold ensureUser.
  destruct (req_user req) as [user|] eqn:Huser;
    [apply wp_ret|apply wp_throw; split; [auto with handlers|by left]].
  destruct (listSchema req) as [[[limit cursor] scope]|] eqn:Hschema;
    [|apply wp_ret; split; [auto with handlers|by left]].
  fold (list_params user limit cursor scope).
  apply wp_bind. unfold db_listMediaObjects, wp at 1.
  destruct (listMediaObjects _ (media_objects w)) as [page|msg] eqn:Hpage;
    [|split; [auto with handlers|by right]].
  apply wp_perform.
  { intros msg _. split; [auto with handlers|by right]. }
  intros _. cbn beta iota. apply wp_bind.
  eapply wp_of_spec; [apply reads_itemsWithUrls|].
  intros [listed|e] w' Hw' Hlisted.
  - apply wp_ret. split.
    + eapply only_logged_trans; [apply only_logged_log|done].
    + right. by exists user, limit, cursor, scope, page, listed.
  - split.
    + eapply only_logged_trans; [apply only_logged_log|done].
    + by right.
Qed.

(** The authorisation test of [GET /media/:id] and [DELETE /media/:id]. *)
Definition may_access (user : User) (media : MediaObject) : Prop :=
  ownerId media = user_id user \/ user_role user = lit "ADMIN".

Lemma access_check (user : User) (media : MediaObject) :
  negb (streq (ownerId media) (user_id user)) && negb (is_admin user) = false
  <-> may_access user media.
Proof.
  unfold may_access, is_admin.
  rewrite andb_false_iff, !negb_false_iff, !streq_eq. done.
Qed.

Lemma access_check_true (user : User) (media : MediaObject) :
  negb (streq (ownerId media) (user_id user)) && negb (is_admin user) = true
  <-> ~ may_access user media.
Proof.
  rewrite <- access_check. by destruct (_ && _).
Qed.

Definition unauthorized : JsError := mkError (lit "Unauthorized") (Some 401).

Definition not_found : Response :=
  mkResponse 404 (JsonMessage (lit "Not found")).

Definition forbidden : Response :=
  mkResponse 403 (JsonMessage (lit "Forbidden")).

(** What [GET /media/:id] answers, and the world it leaves. *)
Definition get_answer (req : Request) (w : World) (o : Outcome Response)
    (w' : World) : Prop :=
  let found := getMediaObjectById (param_id req) (media_objects w) in
  let looked_up := log (Done (PgGetById (param_id req))) w in
  match o with
  | Returned response =>
      (found = None /\ response = not_found /\ w' = looked_up)
      \/ (exists user media,
            req_user req = Some user /\ found = Some media
            /\ ~ may_access user media
            /\ response = forbidden /\ w' = looked_up)
      \/ (exists user media url presignedUrl,
            req_user req = Some user /\ found = Some media
            /\ may_access user media
            /\ response = mkResponse 200 (JsonMedia media url presignedUrl)
            /\ (presign_true req = false -> presignedUrl = None)
            /\ (status media = DELETED -> url = None))
  | Thrown e =>
      (req_user req = None /\ e = unauthorized /\ w' = w)
      \/ statusCode e = None
  end.

Lemma getHandler_answer (req : Request) (w : World) :
  only_logged w (getHandler req w).2
  /\ get_answer req w (getHandler req w).1 (getHandler req w).2.
Proof.
  change (wp (getHandler req)
            (fun o w' => only_logged w w' /\ get_answer req w o w') w).
  unfold getHandler. apply wp_bind. unfold ensureUser.
  destruct (req_user req) as [user|] eqn:Huser;
    [apply wp_ret|apply wp_throw; split; [auto with handlers|by left]].
  apply wp_bind, wp_perform.
  { intros msg _. split; [auto with handlers|by right]. }
  intros _. cbn beta iota.
  destruct (getMediaObjectById (param_id req) (media_objects w))
    as [media|] eqn:Hfound.
  2:{ apply wp_ret. split; [auto with handlers|]. unfold get_answer.
      rewrite Hfound. by left. }
  destruct (negb (streq (ownerId media) (user_id user)) && negb (is_admin user))
    eqn:Hcheck.
  { apply wp_ret. split; [auto with handlers|]. unfold get_answer.
    rewrite Hfound. right; left. exists user, media.
    by apply access_check_true in Hcheck. }
  apply access_check in Hcheck.
  apply wp_bind.
  assert (Hfinish : forall (presignedUrl : option (list N)) (w1 : World),
             only_logged w w1 ->
             (presign_true req = false -> presignedUrl = None) ->
             wp (url <- urlOf media ;;
                 ret (mkResponse 200 (JsonMedia media url presignedUrl)))%handler
               (fun o w' => only_logged w w' /\ get_answer req w o w') w1).
  { intros presignedUrl w1 Hw1 Hflag. apply wp_bind. unfold urlOf.
    destruct (status media) eqn:Hstatus.
    - apply wp_bind.
      eapply wp_of_spec; [apply reads_buildDownloadUrl|].
      intros [u|e] w2 Hw2 He.
      + apply wp_ret, wp_ret. split; [by eapply only_logged_trans|].
        unfold get_answer. rewrite Hfound. right; right.
        exists user, media, (Some u), presignedUrl.
        split_and!; try done. intros Hdel. congruence.
      + split; [by eapply only_logged_trans|by right].
    - apply wp_ret, wp_ret. split; [done|].
      unfold get_answer. rewrite Hfound. right; right.
      exists user, media, None, presignedUrl. by repeat split. }
  destruct (presign_true req) eqn:Hflag.
  - apply wp_bind, wp_lift_sum.
    + intros d _. apply wp_bind.
      eapply wp_of_spec; [apply reads_generatePresignedDownloadUrl|].
      intros [u|e] w2 Hw2 He.
      * apply wp_ret, Hfinish; [|done].
        eapply only_logged_trans; [apply only_logged_log|done].
      * split; [|by right].
        eapply only_logged_trans; [apply only_logged_log|done].
    + intros msg _. split; [auto with handlers|by right].
  - apply wp_ret, Hfinish; [auto with handlers|done].
Qed.

(** The event [DELETE /media/:id] announces for a row it marked. *)
Definition deletion_event (record : MediaObject) (w : World)
  : list N * MediaEventPayload :=
  (lit "photo:deleted",
   mkEvent (id record) (ownerId record) (storedKey record) deleted
     (Date_toISOString (clock w))).

(** What a completed [DELETE /media/:id] of [target] leaves behind. *)
Definition deleted_effects (req : Request) (target : MediaObject)
    (w w' : World) : Prop :=
  let result := softDeleteMediaObject (clock w) (id target) (media_objects w) in
  media_objects w' = result.2
  /\ published w'
     = published w
       ++ match result.1 with
          | Some record => [deletion_event record w]
          | None => []
          end
  /\ bucket w'
     = (if purge_true req then delete (storedKey target) (bucket w)
        else bucket w)
  /\ redis w' = redis w /\ clock w' = clock w
  /\ uuids_drawn w' = uuids_drawn w.

Definition delete_answer (req : Request) (w : World) (o : Outcome Response)
    (w' : World) : Prop :=
  let found := getMediaObjectById (param_id req) (media_objects w) in
  match o with
  | Returned response =>
      (found = None /\ response = not_found /\ only_logged w w')
      \/ (exists user target,
            req_user req = Some user /\ found = Some target
            /\ ~ may_access user target
            /\ response = forbidden /\ only_logged w w')
      \/ (exists user target,
            req_user req = Some user /\ found = Some target
            /\ may_access user target
            /\ response = mkResponse 200 (JsonMessage (lit "Deleted"))
            /\ deleted_effects req target w w')
  | Thrown e =>
      (req_user req = None /\ e = unauthorized /\ w' = w)
      \/ (statusCode e = None
          /\ (only_logged w w'
              \/ exists user target,
                   req_user req = Some user /\ found = Some target
                   /\ may_access user target
                   /\ bucket w' = bucket w /\ redis w' = redis w))
  end.

Lemma deleteHandler_answer (req : Request) (w : World) :
  delete_answer req w (deleteHandler req w).1 (deleteHandler req w).2.
Proof.
  change (wp (deleteHandler req) (delete_answer req w) w).
  unfold deleteHandler. apply wp_bind. unfold ensureUser.
  destruct (req_user req) as [user|] eqn:Huser;
    [apply wp_ret|apply wp_throw; unfold delete_answer; rewrite Huser; by left].
  apply wp_bind, wp_perform.
  { intros msg _. right. split; [done|]. left. auto with handlers. }
  intros _. cbn beta iota.
  destruct (getMediaObjectById (param_id req) (media_objects w))
    as [target|] eqn:Hfound.
  2:{ apply wp_ret. unfold delete_answer. rewrite Hfound. left.
      split_and!; auto with handlers. }
  destruct (negb (streq (ownerId target) (user_id user)) && negb (is_admin user))
    eqn:Hcheck.
  { apply wp_ret. unfold delete_answer. rewrite Hfound. right; left.
    exists user, target.
    apply access_check_true in Hcheck. split_and!; auto with handlers. }
  apply access_check in Hcheck.
  assert (Hpartial : forall (e : JsError) (w1 : World),
             statusCode e = None -> bucket w1 = bucket w ->
             redis w1 = redis w ->
             delete_answer req w (Thrown e) w1).
  { intros e w1 He Hb Hr. unfold delete_answer. rewrite Hfound, Huser.
    right. split; [done|]. right. by exists user, target. }
  apply wp_bind, wp_perform.
  { intros msg _. by apply Hpartial. }
  intros _. cbn beta iota. cbn [log clock media_objects].
  destruct (softDeleteMediaObject (clock w) (id target) (media_objects w))
    as [removed tbl'] eqn:Hsoft.
  cbn beta iota. apply wp_bind.
  assert (Hpurge : forall w2,
             media_objects w2 = tbl' ->
             published w2
             = published w
               ++ match removed with
                  | Some record => [deletion_event record w]
                  | None => []
                  end ->
             bucket w2 = bucket w -> redis w2 = redis w ->
             clock w2 = clock w -> uuids_drawn w2 = uuids_drawn w ->
             wp ((if purge_true req then deleteObject (storedKey target)
                  else ret tt) ;;;
                 ret (mkResponse 200 (JsonMessage (lit "Deleted"))))%handler
               (delete_answer req w) w2).
  { intros w2 Htbl Hpub Hbucket Hredis Hclock Huuid. apply wp_bind.
    assert (Hdone : forall w3,
               media_objects w3 = media_objects w2 ->
               published w3 = published w2 ->
               bucket w3 = (if purge_true req
                            then delete (storedKey target) (bucket w)
                            else bucket w) ->
               redis w3 = redis w2 -> clock w3 = clock w2 ->
               uuids_drawn w3 = uuids_drawn w2 ->
               delete_answer req w
                 (Returned (mkResponse 200 (JsonMessage (lit "Deleted")))) w3).
    { intros w3 E1 E2 E3 E4 E5 E6. unfold delete_answer.
      rewrite Hfound, Huser. right; right. exists user, target.
      unfold deleted_effects. rewrite Hsoft. cbn [fst snd].
      split_and!; congruence. }
    destruct (purge_true req) eqn:Hflag.
    - apply wp_perform.
      + intros msg _. by apply Hpartial.
      + intros _. cbn beta iota. apply wp_ret, Hdone; try done.
        cbn. by rewrite Hbucket.
    - apply wp_ret, wp_ret, Hdone; done. }
  destruct removed as [record|].
  - apply wp_bind. unfold now_iso, wp at 1. cbn [fst snd].
    apply wp_perform.
    + intros msg _. by apply Hpartial.
    + intros _. cbn beta iota. by apply Hpurge.
  - apply wp_ret. apply Hpurge; try done. cbn. by rewrite app_nil_r.
Qed.

(** X10.  [GET /media] and [GET /media/:id] only read: whatever the
    request and whichever collaborator calls fail, the rows, the
    bucket, the published events, the limiter's counters, the clock and
    the identifiers drawn are as before; the log of calls only grew.
    (A GET on another path is answered 404 and changes nothing
    either.) *)
Theorem get_routes_change_nothing :
  forall (pattern : Pattern) (req : Request) (w : World),
    let served := serve GET pattern req w in
    media_objects served.2 = media_objects w
    /\ bucket served.2 = bucket w
    /\ published served.2 = published w
    /\ redis served.2 = redis w
    /\ clock served.2 = clock w
    /\ uuids_drawn served.2 = uuids_drawn w
    /\ calls w `prefix_of` calls served.2.
Proof.
  intros pattern req w served.
  change (only_logged w served.2). subst served. unfold serve.
  destruct pattern; cbn [List.find routes route_method route_pattern
    method_eqb pattern_eqb andb route_chain route_handler run_chain
    run_handler]; try apply only_logged_refl.
  - pose proof (proj1 (listHandler_answer req w)) as Hl.
    by destruct (listHandler req w) as [[response|e] w'].
  - pose proof (proj1 (getHandler_answer req w)) as Hg.
    by destruct (getHandler req w) as [[response|e] w'].
Qed.

(** The page size [listSchema] grants. *)
Definition granted_limit (req : Request) : nat :=
  match query_limit req with
  | LimitInteger n => Z.to_nat n
  | _ => 20
  end.

Lemma listSchema_limit (req : Request) (limit : nat)
    (cursor : option (list N)) (scope : Scope) :
  listSchema req = Some (limit, cursor, scope) ->
  limit = granted_limit req /\ (1 <= limit <= 50)%nat
  /\ cursor = query_cursor req.
Proof.
  unfold listSchema, granted_limit.
  destruct (query_limit req) as [|n|]; [| |done].
  - destruct (query_scope req); intros [= <- <- <-]; split_and!; try done; lia.
  - destruct (_ && _) eqn:Hn; [|done].
    apply andb_prop in Hn as [?%Z.leb_le ?%Z.leb_le].
    destruct (query_scope req); intros [= <- <- <-]; split_and!; try done; lia.
Qed.

(** X11.  A list answered by [GET /media] holds at most as many
    items as the [limit] parameter asked for (20 when it is absent),
    never more than 50, each a row of the table, newest first; when it
    comes with no [nextCursor] and the request had no cursor, it holds
    every ACTIVE record of a requester who is no administrator. *)
Theorem list_page_is_bounded :
  forall (req : Request) (w : World) (code : Z) (listed : list ListedItem)
         (next : option (list N)),
    (listHandler req w).1 = Returned (mkResponse code (JsonList listed next)) ->
    code = 200
    /\ (length listed <= granted_limit req)%nat
    /\ (length listed <= 50)%nat
    /\ Forall (fun li => listed_record li ∈ media_objects w) listed
    /\ newest_first (listed_record <$> listed)
    /\ (next = None -> query_cursor req = None ->
        forall user row,
          req_user req = Some user -> is_admin user = false ->
          row ∈ media_objects w -> ownerId row = user_id user ->
          status row = ACTIVE ->
          row ∈ listed_record <$> listed).
Proof.
  intros req w code listed next Hrun.
  pose proof (proj2 (listHandler_answer req w)) as Hans.
  rewrite Hrun in Hans.
  destruct Hans as [[_ [=]]|(user & limit & cursor & scope & page & listed'
                             & Huser & Hschema & Hpage & Hrec & [= -> <- ->])].
  apply listSchema_limit in Hschema as (-> & Hlim & ->).
  pose proof (listMediaObjects_inl _ _ _ Hpage) as Hpage_eq.
  assert (Hlen : length listed = length (items page)).
  { by rewrite <- Hrec, length_fmap. }
  assert (Hitems : (length (items page) <= granted_limit req)%nat).
  { rewrite Hpage_eq, page_of_items, length_take. cbn [lp_limit list_params]. lia. }
  split; [done|]. split; [lia|]. split; [lia|]. split; [|split].
  - apply Forall_forall. intros li Hli.
    assert (Hin : listed_record li ∈ items page).
    { rewrite <- Hrec. by apply list_elem_of_fmap_2. }
    rewrite Hpage_eq, page_of_items in Hin.
    apply (subseteq_take _ _) in Hin.
    by apply list_query_spec in Hin as [Hin _].
  - rewrite Hrec, Hpage_eq, page_of_items.
    apply newest_first_take. unfold list_query.
    apply newest_first_take, order_by_sorted.
  - intros Hnext Hcursor user' row Huser' Hadmin Hrow Howner Hactive.
    assert (user' = user) as -> by congruence.
    rewrite Hrec, Hpage_eq, page_of_items.
    rewrite Hpage_eq, page_of_nextCursor in Hnext.
    set (params := list_params user (granted_limit req) (query_cursor req) scope)
      in *.
    assert (Hdate : cursor_date params = None).
    { unfold cursor_date, params. cbn [lp_cursor list_params]. by rewrite Hcursor. }
    rewrite Hdate in *.
    destruct (list_query params None (media_objects w) !! lp_limit params)
      eqn:Elim; [done|].
    apply lookup_ge_None in Elim. rewrite take_ge by done.
    unfold list_query in *. rewrite length_take in Elim.
    rewrite take_ge by lia. rewrite order_by_perm.
    apply list_elem_of_In, filter_In. split; [by apply list_elem_of_In|].
    unfold list_where, params. cbn [lp_includeDeleted lp_ownerId list_params].
    rewrite Hactive, Howner, Hadmin.
    destruct scope; cbn; rewrite ?streq_refl;
      by destruct (truthy (user_id user)).
Qed.

(** Every item of an answered list matches the query built for the
    requester. *)
Lemma listed_rows_match_query (req : Request) (w : World) (code : Z)
    (listed : list ListedItem) (next : option (list N)) :
  (listHandler req w).1 = Returned (mkResponse code (JsonList listed next)) ->
  exists user limit cursor scope,
    req_user req = Some user
    /\ Forall (fun li =>
                 list_where (list_params user limit cursor scope)
                   (cursor_date (list_params user limit cursor scope))
                   (listed_record li) = true) listed.
Proof.
  intros Hrun. pose proof (proj2 (listHandler_answer req w)) as Hans.
  rewrite Hrun in Hans.
  destruct Hans as [[_ [=]]|(user & limit & cursor & scope & page & listed'
                             & Huser & Hschema & Hpage & Hrec & [= -> <- ->])].
  exists user, limit, cursor, scope. split; [done|].
  apply listMediaObjects_inl in Hpage.
  apply Forall_forall. intros li Hli.
  assert (Hin : listed_record li ∈ items page).
  { rewrite <- Hrec. by apply list_elem_of_fmap_2. }
  rewrite Hpage, page_of_items in Hin.
  apply (subseteq_take _ _) in Hin.
  by apply list_query_spec in Hin as [_ Hw].
Qed.

(** For a requester who is no administrator the query selects their
    own ACTIVE rows only. *)
Lemma query_of_non_admin (user : User) (limit : nat)
    (cursor : option (list N)) (scope : Scope) (d : option Z)
    (r : MediaObject) :
  user_id user <> [] -> is_admin user = false ->
  list_where (list_params user limit cursor scope) d r = true ->
  ownerId r = user_id user /\ status r = ACTIVE.
Proof.
  intros Hid Hadmin Hw. unfold list_where, list_params in Hw.
  cbn [lp_includeDeleted lp_ownerId] in Hw. rewrite Hadmin in Hw.
  assert (Hparams : (match scope with
                     | self => Some (user_id user)
                     | all => Some (user_id user)
                     end) = Some (user_id user)) by (by destruct scope).
  rewrite Hparams in Hw. cbn [truthy_opt default from_option] in Hw.
  unfold Datatypes.id in Hw.
  destruct (user_id user) as [|c ident] eqn:Euid; [done|].
  cbn [truthy] in Hw.
  apply andb_prop in Hw as [[Hst Hown]%andb_prop _].
  apply streq_eq in Hown. split; [done|].
  destruct scope, (status r); done.
Qed.

(** X12.  A requester who is no administrator and whose identifier is
    not empty sees only their own ACTIVE records in [GET /media],
    whatever [scope] they ask for. *)
Theorem list_shows_own_active_records :
  forall (req : Request) (w : World) (user : User) (code : Z)
         (listed : list ListedItem) (next : option (list N)),
    req_user req = Some user -> user_id user <> [] ->
    is_admin user = false ->
    (listHandler req w).1 = Returned (mkResponse code (JsonList listed next)) ->
    Forall (fun li =>
              ownerId (listed_record li) = user_id user
              /\ status (listed_record li) = ACTIVE) listed.
Proof.
  intros req w user code listed next Huser Hid Hadmin Hrun.
  destruct (listed_rows_match_query req w code listed next Hrun)
    as (user' & limit & cursor & scope & Huser' & Hrows).
  assert (user' = user) as -> by congruence.
  eapply Forall_impl; [exact Hrows|].
  intros li Hw. cbv beta in Hw.
  by apply (query_of_non_admin user limit cursor scope _ _ Hid Hadmin) in Hw.
Qed.

(** X13.  [GET /media/:id] answers with a record only to its owner
    or to an administrator: the record is the row stored under the
    requested identifier, the status is 200, and [presignedUrl] is set
    only when [presign=true] was asked.  A requester who is neither is
    answered 403 after the one lookup, before any URL is built or
    signed. *)
Theorem get_by_id_requires_owner_or_admin :
  forall (req : Request) (w : World),
    let out := getHandler req w in
    match out.1 with
    | Returned (mkResponse code (JsonMedia media url presignedUrl)) =>
        code = 200 /\ id media = param_id req /\ media ∈ media_objects w
        /\ (exists user, req_user req = Some user
              /\ (ownerId media = user_id user
                  \/ user_role user = lit "ADMIN"))
        /\ (presign_true req = false -> presignedUrl = None)
        /\ (status media = DELETED -> url = None)
    | Returned response =>
        (response = not_found
         /\ getMediaObjectById (param_id req) (media_objects w) = None
         \/ response = forbidden
            /\ exists user media,
                 req_user req = Some user
                 /\ getMediaObjectById (param_id req) (media_objects w)
                    = Some media
                 /\ ownerId media <> user_id user
                 /\ user_role user <> lit "ADMIN")
        /\ out.2 = log (Done (PgGetById (param_id req))) w
    | Thrown e =>
        e = unauthorized /\ req_user req = None /\ out.2 = w
        \/ statusCode e = None
    end.
Proof.
  intros req w out. subst out.
  pose proof (proj2 (getHandler_answer req w)) as Hans.
  destruct (getHandler req w) as [[response|e] w'].
  - cbn [fst snd] in *. unfold get_answer in Hans.
    destruct Hans as [(Hnone & -> & ->)
                     |[(user & media & Hu & Hf & Hno & -> & ->)
                      |(user & media & url & presignedUrl & Hu & Hf & Hmay
                        & -> & Hflag & Hdel)]].
    + cbn. split; [|done]. by left.
    + cbn. split; [|done]. right. split; [done|].
      exists user, media. unfold may_access in Hno. split_and!; tauto.
    + apply getMediaObjectById_Some in Hf as [Hin Hid].
      split_and!; try done. by exists user.
  - cbn [fst snd] in *. destruct Hans as [(?&?&?)|?]; [by left|by right].
Qed.

(** X14.  [DELETE /media/:id] changes something only for the owner
    of the record or an administrator: for every other request (no
    user, no such record, somebody else's record) the rows, the bucket
    and the published events are as before, and the answer is 404, 403
    or an error. *)
Theorem delete_requires_owner_or_admin :
  forall (req : Request) (w : World),
    let out := deleteHandler req w in
    (exists user target,
       req_user req = Some user
       /\ getMediaObjectById (param_id req) (media_objects w) = Some target
       /\ (ownerId target = user_id user \/ user_role user = lit "ADMIN"))
    \/ (media_objects out.2 = media_objects w
        /\ bucket out.2 = bucket w
        /\ published out.2 = published w
        /\ match out.1 with
           | Returned response => response = not_found \/ response = forbidden
           | Thrown e => e = unauthorized \/ statusCode e = None
           end).
Proof.
  intros req w out. subst out.
  pose proof (deleteHandler_answer req w) as Hans.
  destruct (deleteHandler req w) as [[response|e] w'];
    cbn [fst snd] in *; unfold delete_answer in Hans.
  - destruct Hans as [(Hnone & -> & Hw)
                     |[(user & target & Hu & Hf & Hno & -> & Hw)
                      |(user & target & Hu & Hf & Hmay & _)]].
    + right. destruct Hw as (?&?&?&_). split_and!; auto.
    + right. destruct Hw as (?&?&?&_). split_and!; auto.
    + left. by exists user, target.
  - destruct Hans as [(Hnone & -> & ->)
                     |[He [Hw|(user & target & Hu & Hf & Hmay & _)]]].
    + right. split_and!; auto.
    + right. destruct Hw as (?&?&?&_). split_and!; auto.
    + left. by exists user, target.
Qed.

(** X15.  A [DELETE /media/:id] answered 200 soft-deletes: on a
    table with its primary key, an ACTIVE record becomes DELETED at the
    current time, stays retrievable by its identifier, and exactly one
    [photo:deleted] event carrying its identifier, owner and key is
    published; a record that was DELETED already is left as it is and
    nothing is published.  Every other record is untouched.  The stored
    object is removed when [purge=true] and kept otherwise; no other
    object is touched. *)
Theorem delete_soft_deletes :
  forall (req : Request) (w : World) (response : Response),
    NoDup (id <$> media_objects w) ->
    (deleteHandler req w).1 = Returned response ->
    res_status response = 200 ->
    let w' := (deleteHandler req w).2 in
    exists target,
      getMediaObjectById (param_id req) (media_objects w) = Some target
      /\ length (media_objects w') = length (media_objects w)
      /\ (forall other, other <> param_id req ->
            getMediaObjectById other (media_objects w')
            = getMediaObjectById other (media_objects w))
      /\ match status target with
         | ACTIVE =>
             getMediaObjectById (param_id req) (media_objects w')
             = Some (mark_deleted (clock w) target)
             /\ published w'
                = published w
                  ++ [(lit "photo:deleted",
                       mkEvent (id target) (ownerId target)
                         (storedKey target) deleted
                         (Date_toISOString (clock w)))]
         | DELETED =>
             media_objects w' = media_objects w
             /\ published w' = published w
         end
      /\ bucket w'
         = (if purge_true req then delete (storedKey target) (bucket w)
            else bucket w).
Proof.
  intros req w response Hnd Hrun Hcode w'. subst w'.
  pose proof (deleteHandler_answer req w) as Hans.
  rewrite Hrun in Hans. unfold delete_answer in Hans.
  destruct Hans as [(_ & -> & _)|[(? & ? & _ & _ & _ & -> & _)
                    |(user & target & Hu & Hf & Hmay & -> & Heff)]];
    [done|done|].
  destruct Heff as (Htbl & Hpub & Hbucket & _).
  exists target. split; [done|].
  destruct (getMediaObjectById_Some _ _ _ Hf) as [Hin Hid].
  rewrite Htbl, Hpub, Hbucket, <- Hid.
  split. { unfold softDeleteMediaObject. cbn [snd]. by rewrite length_fmap. }
  split. { intros other Hother. by apply getMediaObjectById_softDelete_other. }
  split; [|done].
  destruct (status target) eqn:Hstatus.
  - rewrite softDelete_returns by done.
    split; [by apply getMediaObjectById_after_softDelete|done].
  - rewrite softDelete_no_hit; [by rewrite app_nil_r|].
    intros r Hr. unfold soft_delete_hits.
    destruct (streq (id r) (id target)) eqn:E; [|done].
    apply streq_eq in E.
    assert (r = target) as ->; [|by rewrite Hstatus].
    apply list_elem_of_lookup_1 in Hr as [i Hi].
    apply list_elem_of_lookup_1 in Hin as [j Hj].
    assert (i = j) as ->; [|congruence].
    eapply NoDup_lookup; [exact Hnd| |];
      rewrite list_lookup_fmap; [by rewrite Hi|by rewrite Hj, E].
Qed.

Lemma elem_of_set_of (x : list N) (xs seen : list (list N)) :
  x ∈ set_of xs seen <-> x ∈ xs /\ x ∉ seen.
Proof.
  revert seen. induction xs as [|y xs IH]; intros seen; simpl.
  - rewrite elem_of_nil. tauto.
  - case_bool_decide as Hy.
    + rewrite IH, elem_of_cons. split; [tauto|].
      intros [[->|?] ?]; [done|tauto].
    + rewrite !elem_of_cons, IH, not_elem_of_cons.
      destruct (decide (x = y)) as [->|Hne]; tauto.
Qed.

Lemma elem_of_allowedMimeTypeSet (mime : list N) :
  mime ∈ allowedMimeTypeSet <-> mime ∈ allowedMimeTypes.
Proof.
  unfold allowedMimeTypeSet. rewrite elem_of_set_of, elem_of_nil. tauto.
Qed.

(** Rows, bucket, events, counters and clock are as before. *)
Definition stores_kept (w w' : World) : Prop :=
  media_objects w' = media_objects w /\ bucket w' = bucket w
  /\ published w' = published w /\ redis w' = redis w
  /\ clock w' = clock w.

Definition presign_answer (req : Request) (w : World)
    (o : Outcome Response) : Prop :=
  match o with
  | Returned (mkResponse code
                (JsonPresigned ident uploadUrl key expiresIn owner mime
                   bytes)) =>
      code = 201
      /\ mime ∈ allowedMimeTypes
      /\ 0 < bytes <= maxUploadBytes
      /\ ident = uuid_v4 (uuids_drawn w)
      /\ (exists user data,
            req_user req = Some user /\ owner = user_id user
            /\ req_body req = Some data /\ body_mimeType data = mime
            /\ body_sizeBytes data = bytes
            /\ key = buildObjectKey owner ident
                       (extensionFrom mime (Some (body_fileName data))))
      /\ uploadUrl = sign_put key mime presignExpirationSeconds
      /\ expiresIn = presignExpirationSeconds
  | Returned response => res_status response = 400
  | Thrown e =>
      statusCode e = Some 401 \/ statusCode e = Some 400
      \/ statusCode e = None
  end.

Lemma presignHandler_answer (req : Request) (w : World) :
  wp (presignHandler req)
    (fun o w' => stores_kept w w' /\ presign_answer req w o) w.
Proof.
  unfold presignHandler. apply wp_bind. unfold ensureUser.
  destruct (req_user req) as [user|] eqn:Huser;
    [apply wp_ret|apply wp_throw; split; [done|by left]].
  unfold presignSchema.
  destruct (req_body req) as [data|] eqn:Hbody; [|by apply wp_ret].
  destruct (truthy (body_fileName data) && truthy (body_mimeType data)
            && (0 <? body_sizeBytes data)) eqn:Hschema; [|by apply wp_ret].
  apply andb_prop in Hschema as [_ Hpos%Z.ltb_lt].
  apply wp_bind. unfold assertMimeType.
  case_bool_decide as Hmime;
    [apply wp_ret|apply wp_throw; split; [done|right; by left]].
  apply elem_of_allowedMimeTypeSet in Hmime.
  destruct (maxUploadBytes <? body_sizeBytes data) eqn:Hsize;
    [by apply wp_ret|].
  apply Z.ltb_ge in Hsize.
  apply wp_bind. unfold uuid, wp at 1. cbn [fst snd].
  apply wp_bind, wp_perform.
  { intros msg _. split; [done|]. right; by right. }
  intros _. cbn beta iota. apply wp_ret. split; [done|].
  cbn. split_and!; try done. by exists user, data.
Qed.

(** X16.  The handler of [POST /media/presign] stores nothing:
    whatever it answers, it leaves the rows, the bucket, the published
    events, the limiter's counters and the clock as they are when it
    starts (the rate-limit middleware registered in front of it has by
    then counted the request).  It answers 201 only for a MIME type of
    the allow-list and a size between 1 and [maxUploadBytes], and then
    the key it hands out is [buildObjectKey] of the requester, a fresh
    identifier and the inferred extension, signed for the configured
    lifetime; every other answer is 400 or an error. *)
Theorem presign_checks_and_stores_nothing :
  forall (req : Request) (w : World),
    let out := presignHandler req w in
    media_objects out.2 = media_objects w
    /\ bucket out.2 = bucket w
    /\ published out.2 = published w
    /\ redis out.2 = redis w
    /\ clock out.2 = clock w
    /\ presign_answer req w out.1.
Proof.
  intros req w out. subst out.
  by destruct (presignHandler_answer req w) as ((?&?&?&?&?)&?).
Qed.

(** X9.  A cursor that [new Date] cannot read is answered 500, not
    400: for an authenticated request that passes [listSchema] and
    carries a non-empty cursor that does not parse as a date,
    [GET /media] answers 500 with the message [Invalid cursor] and
    calls no collaborator, so the world is as before.  An empty cursor
    is ignored like a missing one. *)
Theorem invalid_cursor_is_answered_500 :
  forall (req : Request) (w : World) (user : User) (cursor : list N),
    req_user req = Some user ->
    listSchema req <> None ->
    query_cursor req = Some cursor ->
    (cursor <> [] -> Date_parse cursor = None ->
     serve GET path_media req w
     = (mkResponse 500 (JsonMessage (lit "Invalid cursor")), w))
    /\ (cursor = [] ->
        forall req',
          req_user req' = Some user -> query_limit req' = query_limit req ->
          query_scope req' = query_scope req -> query_cursor req' = None ->
          serve GET path_media req w = serve GET path_media req' w).
Proof.
  intros req w user cursor Huser Hschema Hcursor.
  destruct (listSchema req) as [[[limit cursor'] scope]|] eqn:Hs; [|done].
  destruct (listSchema_limit _ _ _ _ Hs) as (-> & _ & ->).
  unfold serve.
  cbn [List.find routes route_method route_pattern method_eqb pattern_eqb
       andb route_chain route_handler run_chain run_handler].
  split.
  - intros Hne Hparse.
    unfold listHandler, ensureUser, bind. rewrite Huser, Hs. cbn [ret].
    unfold db_listMediaObjects, listMediaObjects.
    cbn [lp_cursor]. rewrite Hcursor. destruct cursor as [|c cursor]; [done|].
    cbn [truthy_opt truthy default from_option]. unfold Datatypes.id.
    by rewrite Hparse.
  - intros -> req' Huser' Hlimit Hscope Hcursor'.
    assert (Hs' : listSchema req'
                  = Some (granted_limit req, None, scope)).
    { unfold listSchema in Hs |- *. unfold granted_limit.
      rewrite Hlimit, Hscope, Hcursor'.
      destruct (query_limit req) as [|n|]; [| |done].
      - destruct (query_scope req); by simplify_eq.
      - destruct (_ && _); [|done]. destruct (query_scope req); by simplify_eq. }
    unfold listHandler, ensureUser, bind.
    rewrite Huser, Huser', Hs, Hs', Hcursor. cbn [ret].
    unfold db_listMediaObjects, listMediaObjects. done.
Qed.
End Handlers.

(** X28.  The public URL of an object does not depend on a trailing
    slash of the configured base: two configurations whose CDN base
    differs by one final slash give the same URL for every key, namely
    the base, a slash and the key as it is; and with [publicRead] and a
    CDN base, [buildDownloadUrl] returns that URL for every display name
    without calling the object store. *)
Theorem public_url_ignores_trailing_slash :
  forall (B : Builtins) (F : Faults) (c1 c2 : Config) (base key : list N),
    base <> [] -> last base <> Some 47%N ->
    @cdnBaseUrl c1 = Some base ->
    @cdnBaseUrl c2 = Some (base ++ [47%N]) ->
    @buildPublicUrl B c1 key = inl (base ++ lit "/" ++ key)
    /\ @buildPublicUrl B c2 key = inl (base ++ lit "/" ++ key)
    /\ (@publicRead c2 = true ->
        forall (name : option (list N)) (w : World),
          @buildDownloadUrl B c2 F key name w
          = (Returned (base ++ lit "/" ++ key), w)).
Proof.
  intros B F c1 c2 base key Hne Hlast H1 H2.
  assert (Hstrip1 : strip_trailing_slash base = base).
  { unfold strip_trailing_slash. rewrite <- FilenameFacts.head_rev in Hlast.
    destruct (rev base) as [|c r]; [done|].
    destruct (c =? 47)%N eqn:E; [|done].
    apply N.eqb_eq in E. by subst c. }
  assert (Hstrip2 : strip_trailing_slash (base ++ [47%N]) = base).
  { unfold strip_trailing_slash. rewrite rev_app_distr. simpl.
    apply rev_involutive. }
  assert (Htruthy : truthy (base ++ [47%N]) = true) by (by destruct base).
  assert (Hp1 : @buildPublicUrl B c1 key = inl (base ++ lit "/" ++ key)).
  { unfold buildPublicUrl. rewrite H1. cbn [truthy_opt default from_option].
    unfold Datatypes.id. destruct base; [done|]. cbn [truthy].
    by rewrite Hstrip1. }
  assert (Hp2 : @buildPublicUrl B c2 key = inl (base ++ lit "/" ++ key)).
  { unfold buildPublicUrl. rewrite H2. cbn [truthy_opt default from_option].
    unfold Datatypes.id. by rewrite Htruthy, Hstrip2. }
  split; [done|]. split; [done|].
  intros Hpublic name w. unfold buildDownloadUrl.
  rewrite Hpublic, H2. cbn [truthy_opt andb]. rewrite Htruthy.
  by rewrite Hp2.
Qed.
End HandlerExtras.
(** ** Upload: what a batch writes *)

Module UploadExtras.
Import JS Filename Database Runtime Collaborators Routes Router HandlerLogic Wp.
Import DatabaseFacts HandlerExtras UploadFacts.

Section Upload.
Context `{Builtins} `{Config} `{Faults}.

(** The bucket changed only at keys [buildObjectKey] makes for [user],
    where it now holds an object with that owner recorded. *)
Definition bucket_written (user : User) (w w' : World) : Prop :=
  forall k,
    bucket w' !! k = bucket w !! k
    \/ exists obj ident extension,
         bucket w' !! k = Some obj /\ so_owner obj = user_id user
         /\ k = buildObjectKey (user_id user) ident extension.

(** A row as an upload of [user] writes it, with its object stored. *)
Definition uploaded_row (user : User) (w' : World) (r : MediaObject) : Prop :=
  ownerId r = user_id user /\ status r = ACTIVE /\ deletedAt r = None
  /\ uploadedAt r = clock w'
  /\ mimeType r ∈ allowedMimeTypes
  /\ storedKey r
     = buildObjectKey (user_id user) (id r)
         (extensionFrom (mimeType r) (Some (originalName r)))
  /\ is_Some (bucket w' !! storedKey r).

(** The columns a row takes from the file it was made for. *)
Definition row_of_file (file : File) (r : MediaObject) : Prop :=
  originalName r
  = normalizeUploadFilename (default (lit "unknown") (originalname file))
  /\ mimeType r = mimetype file /\ sizeBytes r = size file.

(** The event announced for an uploaded row. *)
Definition upload_event_of (r : MediaObject) (w : World)
  : list N * MediaEventPayload :=
  (lit "photo:uploaded",
   mkEvent (id r) (ownerId r) (storedKey r) uploaded
     (Date_toISOString (clock w))).

(** What processing [files] for [user] did between [w] and [w'],
    having answered the items [its]. *)
Definition upload_progress (user : User) (files : list File)
    (its : list UploadedItem) (w w' : World) : Prop :=
  redis w' = redis w /\ clock w' = clock w /\ bucket_written user w w'
  /\ exists new evs,
       media_objects w' = media_objects w ++ new
       /\ published w' = published w ++ evs
       /\ Forall (fun r => uploaded_row user w' r
                           /\ exists f, f ∈ files /\ row_of_file f r) new
       /\ Forall (fun ce => exists r, r ∈ new /\ ce = upload_event_of r w) evs
       /\ (item_record <$> its) `sublist_of` new
       /\ ((fun it => upload_event_of (item_record it) w) <$> its)
            `sublist_of` evs.

Lemma bucket_written_refl (user : User) (w : World) : bucket_written user w w.
Proof. intros k. by left. Qed.

Lemma bucket_written_trans (user : User) (w1 w2 w3 : World) :
  bucket_written user w1 w2 -> bucket_written user w2 w3 ->
  bucket_written user w1 w3.
Proof.
  intros H12 H23 k. destruct (H23 k) as [E23|Hnew]; [|by right].
  destruct (H12 k) as [E12|(obj & ident & ext & Hobj & Hrest)].
  - left. congruence.
  - right. exists obj, ident, ext. by rewrite E23.
Qed.

Lemma bucket_written_keeps (user : User) (w w' : World) (k : list N) :
  bucket_written user w w' -> is_Some (bucket w !! k) ->
  is_Some (bucket w' !! k).
Proof.
  intros Hb Hk. destruct (Hb k) as [E|(obj & ? & ? & E & _)];
    rewrite E; [done|by eexists].
Qed.

Lemma bucket_written_same (user : User) (w w' : World) :
  bucket w' = bucket w -> bucket_written user w w'.
Proof. intros E k. left. by rewrite E. Qed.

Lemma uploaded_row_later (user : User) (w w' : World) (r : MediaObject) :
  bucket_written user w w' -> clock w' = clock w ->
  uploaded_row user w r -> uploaded_row user w' r.
Proof.
  intros Hb Hc (?&?&?&?&?&?&?). unfold uploaded_row. rewrite Hc.
  split_and!; try done. by eapply bucket_written_keeps.
Qed.

Lemma upload_progress_nothing (user : User) (files : list File) (w w' : World) :
  media_objects w' = media_objects w -> bucket_written user w w' ->
  published w' = published w -> redis w' = redis w -> clock w' = clock w ->
  upload_progress user files [] w w'.
Proof.
  intros Hm Hb Hp Hr Hc. split_and!; try done.
  exists [], []. rewrite !app_nil_r. by split_and!.
Qed.

Lemma upload_progress_trans (user : User) (fs1 fs2 : list File)
    (its1 its2 : list UploadedItem) (w1 w2 w3 : World) :
  upload_progress user fs1 its1 w1 w2 ->
  upload_progress user fs2 its2 w2 w3 ->
  upload_progress user (fs1 ++ fs2) (its1 ++ its2) w1 w3.
Proof.
  intros (Hr1 & Hc1 & Hb1 & new1 & evs1 & Hm1 & Hp1 & Hn1 & He1 & Hs1 & Ht1)
         (Hr2 & Hc2 & Hb2 & new2 & evs2 & Hm2 & Hp2 & Hn2 & He2 & Hs2 & Ht2).
  split; [congruence|]. split; [congruence|].
  split; [by eapply bucket_written_trans|].
  exists (new1 ++ new2), (evs1 ++ evs2).
  split; [by rewrite Hm2, Hm1, app_assoc|].
  split; [by rewrite Hp2, Hp1, app_assoc|].
  split.
  { apply Forall_app. split.
    - eapply Forall_impl; [exact Hn1|]. intros r [Hrow (f & Hf & Hrf)].
      split; [by eapply uploaded_row_later|].
      exists f. split; [|done]. apply elem_of_app. by left.
    - eapply Forall_impl; [exact Hn2|]. intros r [Hrow (f & Hf & Hrf)].
      split; [done|]. exists f. split; [|done]. apply elem_of_app. by right. }
  split.
  { apply Forall_app. split.
    - eapply Forall_impl; [exact He1|]. intros ce (r & Hr & ->).
      exists r. split; [|done]. apply elem_of_app. by left.
    - eapply Forall_impl; [exact He2|]. intros ce (r & Hr & ->).
      exists r. split; [apply elem_of_app; by right|].
      unfold upload_event_of. by rewrite Hc1. }
  split.
  { rewrite fmap_app. by apply sublist_app. }
  rewrite fmap_app. apply sublist_app; [done|].
  erewrite list_fmap_ext; [exact Ht2|].
  intros i it _. unfold upload_event_of. by rewrite Hc1.
Qed.

(** [storeFile]: either nothing but (possibly) an object was written,
    or the object and its row. *)
Definition store_step (user : User) (file : File) (w : World)
    (o : Outcome MediaObject) (w1 : World) : Prop :=
  redis w1 = redis w /\ clock w1 = clock w /\ published w1 = published w
  /\ bucket_written user w w1
  /\ match o with
     | Returned r =>
         media_objects w1 = media_objects w ++ [r]
         /\ uploaded_row user w1 r /\ row_of_file file r
     | Thrown e => media_objects w1 = media_objects w
     end.

Lemma storeFile_step (user : User) (file : File) (w : World) :
  wp (storeFile user file) (store_step user file w) w.
Proof.
  assert (Hnothing : forall e w1,
             media_objects w1 = media_objects w -> bucket w1 = bucket w ->
             published w1 = published w -> redis w1 = redis w ->
             clock w1 = clock w -> store_step user file w (Thrown e) w1).
  { intros e w1 ? Hb ? ? ?. split_and!; try done.
    by apply bucket_written_same. }
  unfold storeFile. apply wp_bind. unfold assertMimeType.
  case_bool_decide as Hmime; [apply wp_ret|by apply wp_throw, Hnothing].
  apply elem_of_allowedMimeTypeSet in Hmime.
  apply wp_bind. unfold probeImage.
  destruct (sharp_metadata (buffer file)) as [metadata|details];
    [apply wp_ret|by apply wp_throw, Hnothing].
  apply wp_bind. unfold uuid, wp at 1. cbn [fst snd].
  set (ident := uuid_v4 (uuids_drawn w)).
  set (name := normalizeUploadFilename
                 (default (lit "unknown") (originalname file))).
  set (extension := extensionFrom (mimetype file) (Some name)).
  set (key := buildObjectKey (user_id user) ident extension).
  apply wp_bind, wp_lift_sum; [intros disposition _|intros msg _; by apply Hnothing].
  assert (Hwritten : forall w1 obj,
             bucket w1 = <[key := obj]> (bucket w) ->
             so_owner obj = user_id user -> bucket_written user w w1).
  { intros w1 obj Hb Ho k. rewrite Hb.
    destruct (decide (k = key)) as [->|Hk].
    - right. exists obj, ident, extension. by rewrite lookup_insert_eq.
    - left. by rewrite lookup_insert_ne. }
  apply wp_bind, wp_perform; [intros msg _; by apply Hnothing|].
  intros _. cbn beta iota. apply wp_perform.
  { intros msg _. split_and!; try done. by eapply Hwritten. }
  intros _. cbn [clock media_objects log set_bucket set_uuids_drawn].
  unfold createMediaObject.
  destruct (existsb _ (media_objects w)).
  { split_and!; try done. by eapply Hwritten. }
  cbn [in_id in_ownerId in_originalName in_storedKey in_mimeType
       in_sizeBytes in_width in_height].
  split_and!; try done; [by eapply Hwritten|].
  unfold uploaded_row. cbn. split_and!; try done.
  rewrite lookup_insert_eq. by eexists.
Qed.

Lemma uploadOne_step (user : User) (file : File) (w : World) :
  wp (uploadOne user file)
    (fun o w' =>
       upload_progress user [file]
         (match o with Returned item => [item] | Thrown _ => [] end) w w'
       /\ match o with
          | Returned item => row_of_file file (item_record item)
          | Thrown _ => True
          end) w.
Proof.
  unfold uploadOne. apply wp_bind.
  eapply wp_mono; [apply storeFile_step|].
  intros [r|e] w1 (Hr & Hc & Hp & Hb & Hrow).
  2:{ split; [|done]. by apply upload_progress_nothing. }
  destruct Hrow as (Hm & Hrow & Hfile).
  assert (Hprogress : forall (its : list UploadedItem) evs w2,
             media_objects w2 = media_objects w1 -> bucket w2 = bucket w1 ->
             redis w2 = redis w1 -> clock w2 = clock w1 ->
             published w2 = published w1 ++ evs ->
             Forall (fun ce => ce = upload_event_of r w) evs ->
             (item_record <$> its) `sublist_of` [r] ->
             ((fun it => upload_event_of (item_record it) w) <$> its)
               `sublist_of` evs ->
             upload_progress user [file] its w w2).
  { intros its evs w2 Em Eb Er Ec Ep Hevs Hits Hitevs.
    split; [congruence|]. split; [congruence|]. split.
    { eapply bucket_written_trans; [exact Hb|by apply bucket_written_same]. }
    exists [r], evs. split; [congruence|]. split; [congruence|].
    split.
    { constructor; [|done]. split.
      - eapply uploaded_row_later; [|exact Ec|exact Hrow].
        by apply bucket_written_same.
      - exists file. split; [by left|done]. }
    split; [|done].
    eapply Forall_impl; [exact Hevs|]. intros ce ->. exists r. split; [by left|done]. }
  apply wp_bind. unfold announceUpload. apply wp_bind.
  unfold now_iso, wp at 1. cbn [fst snd].
  apply wp_perform.
  { intros msg _. split; [|done].
    apply (Hprogress [] []); try done; try apply sublist_nil_l.
    by rewrite app_nil_r. }
  intros _. cbn beta iota. apply wp_bind.
  eapply wp_of_spec; [apply reads_buildDownloadUrl|].
  intros [u|e] w2 (Em & Eb & Ep & Er & Ec & _) _.
  - apply wp_ret. split; [|done].
    apply (Hprogress _ [upload_event_of r w]); try done;
      first [ by repeat constructor
            | rewrite Ep;
              cbn [published log set_published channel_of ev_action];
              unfold upload_event_of; by rewrite Hc ].
  - split; [|done].
    apply (Hprogress [] [upload_event_of r w]); try done;
      first [ by repeat constructor
            | apply sublist_nil_l
            | rewrite Ep;
              cbn [published log set_published channel_of ev_action];
              unfold upload_event_of; by rewrite Hc ].
Qed.

(** The name an upload stores for a file. *)
Definition display_name (file : File) : list N :=
  normalizeUploadFilename (default (lit "unknown") (originalname file)).

Lemma uploadLoop_progress (user : User) (files : list File) (w : World) :
  let '(its, fl, w') := uploadLoop user files [] [] w in
  upload_progress user files its w w'
  /\ ((fun it => originalName (item_record it)) <$> its)
       `sublist_of` (display_name <$> files)
  /\ (fileName <$> fl) `sublist_of` (originalname <$> files).
Proof.
  revert w. induction files as [|file files IH]; intros w.
  - cbn. split; [|done]. apply upload_progress_nothing; try done; apply bucket_written_refl.
  - rewrite uploadLoop_cons. pose proof (uploadOne_step user file w) as Hone.
    unfold wp in Hone.
    destruct (uploadOne user file w) as [[item|e] w1]; cbn [fst snd] in Hone;
      rewrite uploadLoop_acc; specialize (IH w1);
      destruct (uploadLoop user files [] [] w1) as [[its fl] w2];
      destruct Hone as [Hone Hfile], IH as (Hrest & Hnames & Hfailed).
    + split; [apply (upload_progress_trans user [file] files [item] its
                       w w1 w2 Hone Hrest)|].
      split.
      * cbn. destruct Hfile as [-> _]. by apply sublist_skip.
      * cbn. by apply sublist_cons.
    + split; [apply (upload_progress_trans user [file] files [] its
                       w w1 w2 Hone Hrest)|].
      split.
      * cbn. by apply sublist_cons.
      * cbn. by apply sublist_skip.
Qed.

(** The files [uploadHandler] processes. *)
Definition files_of (req : Request) : list File :=
  match multipart req with
  | MulterParsed field_file field_files req_file =>
      gatherFiles field_file field_files req_file
  | _ => []
  end.

(** The items and the failures a response reports. *)
Definition answered_items (response : Response) : list UploadedItem :=
  match res_body response with
  | JsonUploaded item => [item]
  | JsonUploadBatch its _ => its
  | _ => []
  end.

Definition answered_failures (response : Response) : list FailedEntry :=
  match res_body response with
  | JsonUploadRejected _ fl | JsonUploadBatch _ fl => fl
  | _ => []
  end.

Lemma uploadResponse_reports (its : list UploadedItem) (fl : list FailedEntry) :
  answered_items (uploadResponse its fl) = its
  /\ answered_failures (uploadResponse its fl) = fl.
Proof. by destruct its as [|? [|? ?]], fl. Qed.

(** [uploadHandler], as the loop over the request's files. *)
Lemma uploadHandler_cases (req : Request) (w : World) :
  match req_user req with
  | None => uploadHandler req w = (Thrown unauthorized, w)
  | Some user =>
      match files_of req with
      | [] =>
          uploadHandler req w
          = (Returned
               (mkResponse 400 (JsonMessage (lit "file field is required"))),
             w)
      | _ :: _ =>
          uploadHandler req w
          = let '(its, fl, w') := uploadLoop user (files_of req) [] [] w in
            (Returned (uploadResponse its fl), w')
      end
  end.
Proof.
  unfold uploadHandler, ensureUser, bind, files_of.
  destruct (req_user req) as [user|]; [|done]. cbn [ret].
  by destruct (match multipart req with
               | MulterParsed a b c => gatherFiles a b c
               | _ => []
               end).
Qed.

(** The progress of a whole request. *)
Lemma uploadHandler_progress (req : Request) (w : World) (user : User) :
  req_user req = Some user ->
  exists response,
    (uploadHandler req w).1 = Returned response
    /\ upload_progress user (files_of req) (answered_items response) w
         (uploadHandler req w).2
    /\ ((fun it => originalName (item_record it)) <$> answered_items response)
         `sublist_of` (display_name <$> files_of req)
    /\ (fileName <$> answered_failures response)
         `sublist_of` (originalname <$> files_of req)
    /\ (length (answered_items response)
        + length (answered_failures response) = length (files_of req))%nat
    /\ res_status response
       = match answered_items response with [] => 400 | _ :: _ => 201 end.
Proof.
  intros Huser. pose proof (uploadHandler_cases req w) as Hcases.
  rewrite Huser in Hcases.
  destruct (files_of req) as [|f fs] eqn:Hfiles.
  - rewrite Hcases. eexists. split; [done|]. cbn. split_and!; try done.
    apply upload_progress_nothing; try done; apply bucket_written_refl.
  - rewrite Hcases.
    pose proof (uploadLoop_progress user (f :: fs) w) as Hloop.
    pose proof (uploadLoop_count user (f :: fs) w) as Hcount.
    destruct (uploadLoop user (f :: fs) [] [] w) as [[its fl] w'].
    destruct Hloop as (Hprog & Hnames & Hfailed).
    eexists. split; [done|]. cbn [fst snd].
    destruct (uploadResponse_reports its fl) as [-> ->].
    split_and!; try done. apply uploadResponse_status.
Qed.

(** X17.  An upload keeps every row backed by an object: if each row
    of the table has an object stored under its key before
    [POST /media/upload] runs, so has each row afterwards, whatever the
    files are and whichever collaborator calls fail.  (The object is
    written before the row; a row whose write fails leaves at most an
    object without row.) *)
Theorem upload_keeps_rows_backed_by_objects :
  forall (req : Request) (w : World),
    (forall r, r ∈ media_objects w -> is_Some (bucket w !! storedKey r)) ->
    forall r, r ∈ media_objects (uploadHandler req w).2 ->
              is_Some (bucket (uploadHandler req w).2 !! storedKey r).
Proof.
  intros req w Hbacked r Hr.
  destruct (req_user req) as [user|] eqn:Huser.
  - destruct (uploadHandler_progress req w user Huser)
      as (response & _ & (_ & _ & Hb & new & evs & Hm & _ & Hnew & _) & _).
    rewrite Hm in Hr. apply elem_of_app in Hr as [Hr|Hr].
    + eapply bucket_written_keeps; [exact Hb|by apply Hbacked].
    + rewrite Forall_forall in Hnew.
      destruct (Hnew r Hr) as [(_&_&_&_&_&_&Hobj) _]. done.
  - pose proof (uploadHandler_cases req w) as Hcases. rewrite Huser in Hcases.
    rewrite Hcases in Hr |- *. by apply Hbacked.
Qed.

(** X18.  [POST /media/upload] only adds, and only for the requester:
    the rows that were there are still there, unchanged and in place;
    every row added is ACTIVE, owned by the requester, stamped with the
    current time, has a MIME type of the allow-list and the key
    [buildObjectKey] makes from the requester, its identifier and the
    inferred extension; the bucket changed only at keys of that form,
    where it holds an object recorded for the requester; the limiter's
    counters are untouched.  Without a user nothing changes. *)
Theorem upload_only_adds_for_requester :
  forall (req : Request) (w : World),
    let w' := (uploadHandler req w).2 in
    match req_user req with
    | None => w' = w
    | Some user =>
        redis w' = redis w
        /\ (exists new,
              media_objects w' = media_objects w ++ new
              /\ Forall (fun r =>
                           ownerId r = user_id user /\ status r = ACTIVE
                           /\ deletedAt r = None /\ uploadedAt r = clock w
                           /\ mimeType r ∈ allowedMimeTypes
                           /\ storedKey r
                              = buildObjectKey (user_id user) (id r)
                                  (extensionFrom (mimeType r)
                                     (Some (originalName r)))) new)
        /\ (forall k,
              bucket w' !! k = bucket w !! k
              \/ exists obj ident extension,
                   bucket w' !! k = Some obj /\ so_owner obj = user_id user
                   /\ k = buildObjectKey (user_id user) ident extension)
    end.
Proof.
  intros req w w'. subst w'.
  destruct (req_user req) as [user|] eqn:Huser.
  - destruct (uploadHandler_progress req w user Huser)
      as (response & _ & (Hr & Hc & Hb & new & evs & Hm & _ & Hnew & _) & _).
    split; [done|]. split; [|done].
    exists new. split; [done|].
    eapply Forall_impl; [exact Hnew|].
    intros r [(?&?&?&?&?&?&?) _]. split_and!; try done. congruence.
  - pose proof (uploadHandler_cases req w) as Hcases. rewrite Huser in Hcases.
    by rewrite Hcases.
Qed.

(** X19.  Every item [POST /media/upload] answers is stored and
    announced: its record is a row of the table, owned by the requester,
    its object is in the bucket, and its [photo:uploaded] event, carrying
    the record's identifier, owner and key, has been published.  Items
    and failures come in the order the files were sent, one entry per
    file; the status is 201 when there is an item and 400 otherwise. *)
Theorem uploaded_items_are_stored_and_announced :
  forall (req : Request) (w : World) (user : User),
    req_user req = Some user ->
    let w' := (uploadHandler req w).2 in
    exists response,
      (uploadHandler req w).1 = Returned response
      /\ Forall (fun it =>
                   item_record it ∈ media_objects w'
                   /\ ownerId (item_record it) = user_id user
                   /\ is_Some (bucket w' !! storedKey (item_record it))
                   /\ (lit "photo:uploaded",
                       mkEvent (id (item_record it)) (ownerId (item_record it))
                         (storedKey (item_record it)) uploaded
                         (Date_toISOString (clock w))) ∈ published w')
           (answered_items response)
      /\ ((fun it => originalName (item_record it)) <$> answered_items response)
           `sublist_of` (display_name <$> files_of req)
      /\ (fileName <$> answered_failures response)
           `sublist_of` (originalname <$> files_of req)
      /\ (length (answered_items response)
          + length (answered_failures response) = length (files_of req))%nat
      /\ res_status response
         = match answered_items response with [] => 400 | _ :: _ => 201 end.
Proof.
  intros req w user Huser w'. subst w'.
  destruct (uploadHandler_progress req w user Huser)
    as (response & Hrun & Hprog & Hnames & Hfailed & Hcount & Hstatus).
  exists response. split; [done|]. split; [|done].
  destruct Hprog as (_ & _ & _ & new & evs & Hm & Hp & Hnew & _ & Hits & Hevs).
  apply Forall_forall. intros it Hit.
  assert (Hin : item_record it ∈ new).
  { eapply elem_of_sublist; [|exact Hits]. by apply list_elem_of_fmap_2. }
  rewrite Forall_forall in Hnew.
  destruct (Hnew _ Hin) as [(Ho&_&_&_&_&_&Hobj) _].
  split; [rewrite Hm; apply elem_of_app; by right|].
  split; [done|]. split; [done|].
  rewrite Hp. apply elem_of_app. right.
  eapply elem_of_sublist; [|exact Hevs].
  by apply (list_elem_of_fmap_2
              (fun it => upload_event_of (item_record it) w)).
Qed.

(** X20.  A file that fails validation leaves no trace: when its MIME
    type is outside the allow-list, or the image probe rejects its
    content, the file's pipeline throws before any identifier is drawn
    and before any collaborator is called, so the world is exactly as
    before.  The MIME error carries status 400; the probe error's
    message in production is [Invalid image file] without the probe's
    details. *)
Theorem rejected_file_leaves_no_trace :
  forall (user : User) (file : File) (w : World),
    mimetype file ∉ allowedMimeTypes
    \/ (exists details, sharp_metadata (buffer file) = inr details) ->
    exists e,
      uploadOne user file w = (Thrown e, w)
      /\ (mimetype file ∉ allowedMimeTypes ->
          e = mkError unsupported_mime_message (Some 400))
      /\ (mimetype file ∈ allowedMimeTypes ->
          statusCode e = None
          /\ (nodeEnv = lit "production" ->
              message e = lit "Invalid image file")).
Proof.
  intros user file w Hbad.
  unfold uploadOne, storeFile, assertMimeType, probeImage, bind.
  case_bool_decide as Hmime.
  - apply elem_of_allowedMimeTypeSet in Hmime.
    destruct Hbad as [Hno|[details Hprobe]]; [done|].
    rewrite Hprobe. cbn [ret throw]. eexists. split; [done|].
    split; [done|]. intros _. cbn. split; [done|].
    intros ->. by rewrite streq_refl.
  - rewrite elem_of_allowedMimeTypeSet in Hmime.
    cbn [throw]. eexists. split; [done|]. split; [done|]. done.
Qed.
End Upload.
End UploadExtras.
(** ** The routes behind their middleware *)

Module MiddlewareExtras.
Import JS Filename Database Runtime Collaborators Routes Router HandlerLogic Wp.
Import RateLimiterFacts RetrievalFacts HandlerExtras UploadExtras.

(** The three routes registered with the rate-limit middleware. *)
Definition limited_routes : list (Method * Pattern) :=
  [(POST, path_media_upload); (POST, path_media_presign);
   (DELETE, path_media_id)].

(** Rows, bucket and published events are as before. *)
Definition nothing_stored (w w' : World) : Prop :=
  media_objects w' = media_objects w /\ bucket w' = bucket w
  /\ published w' = published w.

Section Chain.
Context `{Builtins} `{Config} `{Faults}.

(** X21.  The limiter fails closed: when Redis rejects the limiter's
    [INCR]/[TTL] transaction, a request to a rate-limited route is
    answered by the error handler (500 with the error's message, or 429
    when the message happens to be [RATE_LIMITED]) and nothing else
    runs: the world is as before but for the failed call in the log. *)
Theorem limiter_outage_fails_closed :
  forall (method : Method) (pattern : Pattern) (req : Request) (w : World)
         (msg : list N),
    (method, pattern) ∈ limited_routes ->
    fault w (RedisMulti (lit "rate:" ++ requester req)) = Some msg ->
    serve method pattern req w
    = (if streq msg (lit "RATE_LIMITED")
       then mkResponse 429 (JsonMessage (lit "Too many requests"))
       else mkResponse 500
              (JsonMessage (if truthy msg then msg
                            else lit "Internal server error")),
       log (Failed (RedisMulti (lit "rate:" ++ requester req))) w).
Proof.
  intros method pattern req w msg Hroute Hfault.
  assert (Hchain : forall chain h,
             run_chain (rateLimitMiddleware :: chain) h req w
             = (if streq msg (lit "RATE_LIMITED")
                then Returned (mkResponse 429
                                 (JsonMessage (lit "Too many requests")))
                else Thrown (mkError msg None),
                log (Failed (RedisMulti (lit "rate:" ++ requester req))) w)).
  { intros chain h. cbn [run_chain run_middleware].
    unfold bind at 1, run_rateLimitMiddleware. fold (requester req).
    unfold RateLimiter.rateLimiter, RateLimiter.consume,
      RateLimiter.incr_and_ttl, bind, perform.
    rewrite Hfault. cbn [message].
    by destruct (streq msg (lit "RATE_LIMITED")). }
  unfold limited_routes in Hroute.
  repeat (apply elem_of_cons in Hroute as [[= -> ->]|Hroute];
          [unfold serve; cbn [List.find routes route_method route_pattern
             method_eqb pattern_eqb andb route_chain route_handler];
           rewrite Hchain; by destruct (streq msg (lit "RATE_LIMITED"))|]).
  by apply elem_of_nil in Hroute.
Qed.

Lemma same_stores_nothing_stored (w w' : World) :
  same_stores w w' -> nothing_stored w w'.
Proof. intros (?&?&?&_). by split_and!. Qed.

Lemma nothing_stored_trans (w1 w2 w3 : World) :
  nothing_stored w1 w2 -> nothing_stored w2 w3 -> nothing_stored w1 w3.
Proof. intros (?&?&?) (?&?&?). split_and!; congruence. Qed.

Lemma run_rateLimitMiddleware_frame (req : Request) (w : World) :
  nothing_stored w (run_rateLimitMiddleware req w).2.
Proof.
  unfold run_rateLimitMiddleware. fold (requester req).
  pose proof (proj1 (consume_frame rateLimit_windowSeconds
                       rateLimit_maxRequests (requester req) w)) as Hf.
  unfold RateLimiter.rateLimiter.
  destruct (RateLimiter.consume _ _ _ w) as [[[]|e] w1]; cbn [snd] in *.
  - by apply same_stores_nothing_stored.
  - destruct (streq _ _); by apply same_stores_nothing_stored.
Qed.

(** The status each handler can answer with, once the error handler
    has turned a thrown error into a response. *)
Definition answered_status (o : Outcome Response) : Z :=
  match o with
  | Returned response => res_status response
  | Thrown e => res_status (errorHandler e)
  end.

Lemma handler_status_or_nothing_stored (h : Handler) (req : Request)
    (w : World) :
  answered_status (run_handler h req w).1 <> 429
  \/ nothing_stored w (run_handler h req w).2.
Proof.
  destruct h; cbn [run_handler].
  - destruct (req_user req) as [user|] eqn:Huser.
    + destruct (uploadHandler_progress req w user Huser)
        as (response & Hrun & _ & _ & _ & _ & Hstatus).
      left. rewrite Hrun. cbn. rewrite Hstatus.
      by destruct (answered_items response).
    + pose proof (uploadHandler_cases req w) as Hcases.
      rewrite Huser in Hcases. rewrite Hcases. by left.
  - right. destruct (presignHandler_answer req w) as ((?&?&?&_)&_).
    by split_and!.
  - right. destruct (proj1 (listHandler_answer req w)) as (?&?&?&_).
    by split_and!.
  - right. destruct (proj1 (getHandler_answer req w)) as (?&?&?&_).
    by split_and!.
  - pose proof (deleteHandler_answer req w) as Hans.
    destruct (deleteHandler req w) as [[response|e] w']; cbn [fst snd] in *;
      unfold delete_answer in Hans.
    + left. destruct Hans as [(_ & -> & _)|[(?&?&_&_&_& -> &_)
                              |(?&?&_&_&_& -> &_)]]; done.
    + left. destruct Hans as [(_ & -> & _)|[He _]]; [done|].
      cbn. unfold errorHandler. by rewrite He.
Qed.

Lemma chain_status_or_nothing_stored (chain : list Middleware) (h : Handler)
    (req : Request) (w : World) :
  answered_status (run_chain chain h req w).1 <> 429
  \/ nothing_stored w (run_chain chain h req w).2.
Proof.
  revert w. induction chain as [|m chain IH]; intros w.
  - apply handler_status_or_nothing_stored.
  - cbn [run_chain]. unfold bind.
    assert (Hm : nothing_stored w (run_middleware m req w).2).
    { destruct m; cbn [run_middleware].
      - apply run_rateLimitMiddleware_frame.
      - unfold run_uploadMultipleFiles. by destruct (multipart req). }
    destruct (run_middleware m req w) as [[[response|]|e] w1];
      cbn [fst snd] in *; [by right| |by right].
    destruct (IH w1) as [Hs|Hn]; [by left|right].
    by eapply nothing_stored_trans.
Qed.

(** X22.  A request answered 429 stored nothing: on every route, when
    the status of the response is 429 the rows, the bucket and the
    published events are as they were before the request. *)
Theorem too_many_requests_stores_nothing :
  forall (method : Method) (pattern : Pattern) (req : Request) (w : World),
    res_status (serve method pattern req w).1 = 429 ->
    media_objects (serve method pattern req w).2 = media_objects w
    /\ bucket (serve method pattern req w).2 = bucket w
    /\ published (serve method pattern req w).2 = published w.
Proof.
  intros method pattern req w. unfold serve.
  destruct (List.find _ routes) as [r|]; [|done].
  pose proof (chain_status_or_nothing_stored (route_chain r)
                (route_handler r) req w) as Hchain.
  destruct (run_chain _ _ req w) as [[response|e] w']; cbn [fst snd] in *;
    intros Hcode; by destruct Hchain.
Qed.

Lemma handler_keeps_counters (h : Handler) (req : Request) (w : World) :
  redis (run_handler h req w).2 = redis w.
Proof.
  destruct h; cbn [run_handler].
  - destruct (req_user req) as [user|] eqn:Huser.
    + by destruct (uploadHandler_progress req w user Huser)
        as (response & _ & (Hr & _) & _).
    + pose proof (uploadHandler_cases req w) as Hcases.
      rewrite Huser in Hcases. by rewrite Hcases.
  - by destruct (presignHandler_answer req w) as ((_&_&_&?&_)&_).
  - by destruct (proj1 (listHandler_answer req w)) as (_&_&_&?&_).
  - by destruct (proj1 (getHandler_answer req w)) as (_&_&_&?&_).
  - pose proof (deleteHandler_answer req w) as Hans.
    destruct (deleteHandler req w) as [[response|e] w']; cbn [fst snd] in *;
      unfold delete_answer in Hans.
    + destruct Hans as [(_ & _ & Hw)|[(?&?&_&_&_&_& Hw)
                        |(?&?&_&_&_&_& Heff)]].
      * by destruct Hw as (_&_&_&?&_).
      * by destruct Hw as (_&_&_&?&_).
      * by destruct Heff as (_&_&_&?&_).
    + destruct Hans as [(_ & _ & ->)|[_ [Hw|(?&?&_&_&_&_&?)]]]; [done| |done].
      by destruct Hw as (_&_&_&?&_).
Qed.

Lemma chain_keeps_other_counters (chain : list Middleware) (h : Handler)
    (req : Request) (w : World) (other : list N) :
  other <> counter_key (requester req) ->
  redis (run_chain chain h req w).2 !! other = redis w !! other.
Proof.
  intros Hother. revert w. induction chain as [|m chain IH]; intros w.
  - cbn [run_chain]. by rewrite handler_keeps_counters.
  - cbn [run_chain]. unfold bind.
    assert (Hm : redis (run_middleware m req w).2 !! other = redis w !! other).
    { destruct m; cbn [run_middleware].
      - unfold run_rateLimitMiddleware. fold (requester req).
        pose proof (proj2 (consume_frame rateLimit_windowSeconds
                             rateLimit_maxRequests (requester req) w)
                      other Hother) as Hf.
        unfold RateLimiter.rateLimiter.
        destruct (RateLimiter.consume _ _ _ w) as [[[]|e] w1];
          cbn [snd] in *; [done|]. by destruct (streq _ _).
      - unfold run_uploadMultipleFiles. by destruct (multipart req). }
    destruct (run_middleware m req w) as [[[response|]|e] w1];
      cbn [fst snd] in *; [done| |done].
    by rewrite IH.
Qed.

(** X29.  Requests of one identity never touch the rate-limit counter
    of another: for every route, request and world, and whichever
    collaborator calls fail, the counter [rate:<other>] of every identity
    other than the requester's (the user's id, or [anonymous] without
    user) is after the request what it was before. *)
Theorem other_identities_counters_untouched :
  forall (method : Method) (pattern : Pattern) (req : Request) (w : World)
         (other : list N),
    other <> requester req ->
    redis (serve method pattern req w).2 !! (lit "rate:" ++ other)
    = redis w !! (lit "rate:" ++ other).
Proof.
  intros method pattern req w other Hother. unfold serve.
  destruct (List.find _ routes) as [r|]; [|done].
  assert (Hkey : lit "rate:" ++ other <> counter_key (requester req)).
  { unfold counter_key. intros E. by apply app_inv_head in E. }
  pose proof (chain_keeps_other_counters (route_chain r) (route_handler r)
                req w _ Hkey) as Hchain.
  by destruct (run_chain _ _ req w) as [[response|e] w'].
Qed.

(** The statuses the service answers with. *)
Definition api_statuses : list Z :=
  [200; 201; 400; 401; 403; 404; 413; 429; 500].

Lemma plain_error_status (e : JsError) :
  statusCode e = None -> res_status (errorHandler e) ∈ api_statuses.
Proof. intros He. unfold errorHandler. rewrite He. compute_done. Qed.

Lemma handler_statuses (h : Handler) (req : Request) (w : World) :
  answered_status (run_handler h req w).1 ∈ api_statuses.
Proof.
  destruct h; cbn [run_handler].
  - destruct (req_user req) as [user|] eqn:Huser.
    + destruct (uploadHandler_progress req w user Huser)
        as (response & Hrun & _ & _ & _ & _ & Hstatus).
      rewrite Hrun. cbn [answered_status]. rewrite Hstatus.
      destruct (answered_items response); compute_done.
    + pose proof (uploadHandler_cases req w) as Hcases.
      rewrite Huser in Hcases. rewrite Hcases. compute_done.
  - destruct (presignHandler_answer req w) as (_ & Hans).
    destruct (presignHandler req w) as [[[code body]|e] w'];
      cbn [fst snd answered_status] in *.
    + destruct body; cbn in Hans; try (rewrite Hans; compute_done).
      destruct Hans as [-> _]. compute_done.
    + unfold errorHandler.
      destruct Hans as [-> |[-> | ->]]; compute_done.
  - pose proof (proj2 (listHandler_answer req w)) as Hans.
    destruct (listHandler req w) as [[response|e] w'];
      cbn [fst snd answered_status] in *.
    + destruct Hans as [[_ ->]|(?&?&?&?&?&?&_&_&_&_& ->)]; compute_done.
    + destruct Hans as [[_ ->]|He]; [compute_done|by apply plain_error_status].
  - pose proof (proj2 (getHandler_answer req w)) as Hans.
    destruct (getHandler req w) as [[response|e] w'];
      cbn [fst snd answered_status] in *; unfold get_answer in Hans.
    + destruct Hans as [(_ & -> & _)|[(?&?&_&_&_& -> &_)
                        |(?&?&?&?&_&_&_& -> &_)]]; compute_done.
    + destruct Hans as [(_ & -> & _)|He];
        [compute_done|by apply plain_error_status].
  - pose proof (deleteHandler_answer req w) as Hans.
    destruct (deleteHandler req w) as [[response|e] w'];
      cbn [fst snd answered_status] in *; unfold delete_answer in Hans.
    + destruct Hans as [(_ & -> & _)|[(?&?&_&_&_& -> &_)
                        |(?&?&_&_&_& -> &_)]]; compute_done.
    + destruct Hans as [(_ & -> & _)|[He _]];
        [compute_done|by apply plain_error_status].
Qed.

(** The limiter's middleware answers 429 itself or passes on an error
    without status code. *)
Lemma run_rateLimitMiddleware_answers (req : Request) (w : World) :
  match (run_rateLimitMiddleware req w).1 with
  | Returned (Some response) => res_status response = 429
  | Returned None => True
  | Thrown e => statusCode e = None
  end.
Proof.
  unfold run_rateLimitMiddleware.
  assert (Hplain : match (RateLimiter.rateLimiter (requester req) w).1 with
                   | Returned _ => True
                   | Thrown e => statusCode e = None
                   end).
  { change (wp (RateLimiter.rateLimiter (requester req))
              (fun o _ => match o with
                          | Returned _ => True
                          | Thrown e => statusCode e = None
                          end) w).
    unfold RateLimiter.rateLimiter, RateLimiter.consume.
    apply wp_bind, wp_perform; [done|]. intros _.
    destruct (Redis.INCR _ _ _) as [n db]. cbn beta iota.
    apply wp_bind.
    destruct (_ || _).
    - apply wp_perform; [done|]. intros _. cbn beta iota.
      destruct (_ <? _); [by apply wp_throw|by apply wp_ret].
    - apply wp_ret. destruct (_ <? _); [by apply wp_throw|by apply wp_ret]. }
  fold (requester req).
  destruct (RateLimiter.rateLimiter (requester req) w) as [[[]|e] w1];
    cbn [fst] in *; [done|].
  by destruct (streq (message e) (lit "RATE_LIMITED")).
Qed.

Lemma chain_statuses (chain : list Middleware) (h : Handler)
    (req : Request) (w : World) :
  (forall e, multipart req <> MulterFailure e) ->
  answered_status (run_chain chain h req w).1 ∈ api_statuses.
Proof.
  intros Hmulter. revert w. induction chain as [|m chain IH]; intros w.
  - apply handler_statuses.
  - cbn [run_chain]. unfold bind.
    assert (Hm : match (run_middleware m req w).1 with
                 | Returned (Some response) =>
                     res_status response ∈ api_statuses
                 | Returned None => True
                 | Thrown e => statusCode e = None
                 end).
    { destruct m; cbn [run_middleware].
      - pose proof (run_rateLimitMiddleware_answers req w) as Ha.
        destruct (run_rateLimitMiddleware req w) as [[[response|]|e] w1];
          cbn [fst] in *; try done. rewrite Ha. compute_done.
      - unfold run_uploadMultipleFiles.
        destruct (multipart req) eqn:Hmp; cbn; try done; try compute_done.
        by destruct (Hmulter e). }
    destruct (run_middleware m req w) as [[[response|]|e] w1];
      cbn [fst snd answered_status] in *.
    + done.
    + apply IH.
    + by apply plain_error_status.
Qed.

(** X30.  The media router answers with nine status codes: for
    every route, request and world, and whichever collaborator calls
    fail, the status of the response the router's middleware, handlers
    and the error handler produce is one of 200, 201, 400, 401, 403,
    404, 413, 429 and 500 (unless multer hands over an error of its own
    that is not a [MulterError], whose status code the error handler
    would take). *)
Theorem statuses_answered :
  forall (method : Method) (pattern : Pattern) (req : Request) (w : World),
    (forall e, multipart req <> MulterFailure e) ->
    res_status (serve method pattern req w).1 ∈ api_statuses.
Proof.
  intros method pattern req w Hmulter. unfold serve.
  destruct (List.find _ routes) as [r|]; [|compute_done].
  pose proof (chain_statuses (route_chain r) (route_handler r) req w Hmulter)
    as Hchain.
  by destruct (run_chain _ _ req w) as [[response|e] w'].
Qed.
End Chain.
End MiddlewareExtras.
(** ** Settings and authentication *)

Module SettingsExtras.
Import JS Settings.

Lemma split_nonempty (sep : N) (s : list N) : split sep s <> [].
Proof.
  destruct s as [|c s]; simpl; [done|].
  destruct (c =? sep)%N; [done|]. by destruct (split sep s).
Qed.

Lemma split_pieces (sep : N) (s : list N) (piece : list N) :
  piece ∈ split sep s -> (sep ∉ piece) /\ (piece ⊆ s).
Proof.
  revert piece. induction s as [|c s IH]; intros piece; simpl.
  - intros ->%list_elem_of_singleton. split; [apply not_elem_of_nil|done].
  - destruct (c =? sep)%N eqn:E.
    + intros [->|Hp]%elem_of_cons.
      * split; [apply not_elem_of_nil|]. apply list_subseteq_nil.
      * destruct (IH _ Hp) as [? ?]. split; [done|].
        by apply list_subseteq_cons.
    + apply N.eqb_neq in E.
      destruct (split sep s) as [|p ps];
        intros [->|Hp]%elem_of_cons.
      * split; [by intros ->%list_elem_of_singleton|].
        apply list_subseteq_skip, list_subseteq_nil.
      * by apply elem_of_nil in Hp.
      * destruct (IH p) as [? ?]; [by left|]. split.
        -- rewrite not_elem_of_cons. auto.
        -- by apply list_subseteq_skip.
      * destruct (IH piece) as [? ?]; [by right|]. split; [done|].
        by apply list_subseteq_cons.
Qed.

Lemma join_split (sep : N) (s : list N) : join [sep] (split sep s) = s.
Proof.
  induction s as [|c s IH]; simpl; [done|].
  pose proof (split_nonempty sep s) as Hne.
  destruct (c =? sep)%N eqn:E.
  - apply N.eqb_eq in E. subst c.
    destruct (split sep s) as [|p ps]; [done|]. simpl in *. by rewrite IH.
  - destruct (split sep s) as [|p ps]; [done|].
    destruct ps; simpl in *; by rewrite <- IH.
Qed.

Lemma split_free (sep : N) (s : list N) : sep ∉ s -> split sep s = [s].
Proof.
  induction s as [|c s IH]; [done|].
  intros [Hc Hs]%not_elem_of_cons. simpl.
  rewrite (proj2 (N.eqb_neq c sep)) by done. by rewrite IH.
Qed.

Lemma split_app_sep (sep : N) (piece s : list N) :
  sep ∉ piece -> split sep (piece ++ sep :: s) = piece :: split sep s.
Proof.
  induction piece as [|c piece IH]; simpl.
  - intros _. by rewrite N.eqb_refl.
  - intros [Hc Hp]%not_elem_of_cons.
    rewrite (proj2 (N.eqb_neq c sep)) by done. by rewrite IH.
Qed.

Lemma split_join (sep : N) (pieces : list (list N)) :
  pieces <> [] -> Forall (fun piece => sep ∉ piece) pieces ->
  split sep (join [sep] pieces) = pieces.
Proof.
  induction pieces as [|p pieces IH]; [done|]. intros _ Hfree.
  apply Forall_cons in Hfree as [Hp Hfree].
  destruct pieces as [|q pieces]; [by apply split_free|].
  change (join [sep] (p :: q :: pieces))
    with (p ++ sep :: join [sep] (q :: pieces)).
  rewrite split_app_sep by done. by rewrite IH.
Qed.

Lemma drop_leading_space_suffix (s : list N) :
  exists n, drop_leading_space s = drop n s.
Proof.
  induction s as [|c s [n IH]]; simpl.
  - by exists 0%nat.
  - destruct (is_space c); [by exists (S n)|by exists 0%nat].
Qed.

Lemma drop_leading_space_head (s : list N) (c : N) :
  head (drop_leading_space s) = Some c -> is_space c = false.
Proof.
  induction s as [|x s IH]; simpl; [done|].
  destruct (is_space x) eqn:E; [done|]. simpl. by intros [= <-].
Qed.

Lemma drop_leading_space_id (s : list N) :
  (forall c, head s = Some c -> is_space c = false) ->
  drop_leading_space s = s.
Proof.
  destruct s as [|c s]; [done|]. intros Hc. simpl. by rewrite (Hc c).
Qed.

Lemma drop_leading_space_all (s : list N) :
  Forall (fun c => is_space c = true) s -> drop_leading_space s = [].
Proof. induction 1 as [|c s Hc _ IH]; simpl; [done|]. by rewrite Hc. Qed.

Lemma elem_of_rev (c : N) (s : list N) : c ∈ rev s <-> c ∈ s.
Proof. rewrite rev_alt. apply elem_of_reverse. Qed.

Lemma trim_subseteq (s : list N) : trim s ⊆ s.
Proof.
  unfold trim. intros c Hc. rewrite elem_of_rev in Hc.
  destruct (drop_leading_space_suffix (rev (drop_leading_space s))) as [n Hn].
  rewrite Hn in Hc. apply (subseteq_drop n) in Hc.
  rewrite elem_of_rev in Hc.
  destruct (drop_leading_space_suffix s) as [m Hm].
  rewrite Hm in Hc. by apply (subseteq_drop m) in Hc.
Qed.

(** A trimmed string neither starts nor ends with white space. *)
Definition trimmed (s : list N) : Prop :=
  (forall c, head s = Some c -> is_space c = false)
  /\ (forall c, last s = Some c -> is_space c = false).

Lemma trim_trimmed (s : list N) : trimmed (trim s).
Proof.
  unfold trim. set (a := drop_leading_space s).
  set (b := drop_leading_space (rev a)). split; intros c.
  - rewrite FilenameFacts.head_rev.
    destruct (drop_leading_space_suffix (rev a)) as [n Hn]. fold b in Hn.
    destruct b as [|x b'] eqn:Eb; [done|].
    rewrite Hn, FilenameFacts.last_drop_nonempty by (by rewrite <- Hn).
    rewrite FilenameFacts.last_rev. apply drop_leading_space_head.
  - rewrite FilenameFacts.last_rev. apply drop_leading_space_head.
Qed.

Lemma trim_id (s : list N) : trimmed s -> trim s = s.
Proof.
  intros [Hh Hl]. unfold trim. rewrite (drop_leading_space_id s) by done.
  rewrite drop_leading_space_id; [apply rev_involutive|].
  intros c. rewrite FilenameFacts.head_rev. apply Hl.
Qed.

Lemma trim_all_space (s : list N) :
  Forall (fun c => is_space c = true) s -> trim s = [].
Proof. intros Hs. unfold trim. by rewrite (drop_leading_space_all s). Qed.

(** X23.  Every entry of the allow-list read from [ALLOWED_MIME_TYPES]
    is a non-empty piece of the variable's value without comma and
    without white space at either end.  A value made of commas and white
    space only (the empty string included) gives the empty list, not the
    default list; only an unset variable gives the five default types. *)
Theorem allowedTypes_entries_are_clean :
  (forall (raw entry : list N),
     entry ∈ allowedTypes (Some raw) ->
     entry <> [] /\ (44%N ∉ entry) /\ trimmed entry /\ (entry ⊆ raw))
  /\ (forall raw : list N,
        Forall (fun c => c = 44%N \/ is_space c = true) raw ->
        allowedTypes (Some raw) = [])
  /\ allowedTypes None
     = [lit "image/jpeg"; lit "image/png"; lit "image/webp"; lit "image/gif";
        lit "image/avif"].
Proof.
  split; [|split; [|done]].
  - intros raw entry Hin. unfold allowedTypes in Hin.
    apply list_elem_of_In, filter_In in Hin as [Hin Hne].
    apply list_elem_of_In, list_elem_of_fmap in Hin as (piece & -> & Hpiece).
    apply split_pieces in Hpiece as [Hfree Hsub].
    split; [by destruct (trim piece)|]. split.
    { intros Hc. apply Hfree. by apply trim_subseteq. }
    split; [apply trim_trimmed|].
    etrans; [apply trim_subseteq|done].
  - intros raw Hblank. unfold allowedTypes.
    assert (Hall : Forall (fun piece => trim piece = []) (split 44 raw)).
    { apply Forall_forall. intros piece Hpiece.
      apply split_pieces in Hpiece as [Hfree Hsub].
      apply trim_all_space, Forall_forall. intros c Hc.
      rewrite Forall_forall in Hblank.
      destruct (Hblank c (Hsub c Hc)) as [->|Hs]; [done|done]. }
    induction Hall as [|piece pieces Hp _ IH]; [done|].
    rewrite fmap_cons. simpl. by rewrite Hp.
Qed.

(** X24.  Writing a list of types separated by commas and reading it
    back gives the list: for entries that are not empty, hold no comma
    and neither start nor end with white space,
    [allowedTypes (entries.join(','))] is the list of entries, in order
    and with its duplicates. *)
Theorem allowedTypes_reads_back :
  forall entries : list (list N),
    Forall (fun entry => entry <> [] /\ (44%N ∉ entry) /\ trimmed entry) entries ->
    allowedTypes (Some (join (lit ",") entries)) = entries.
Proof.
  intros entries Hclean. unfold allowedTypes.
  destruct entries as [|e entries]; [done|].
  change (lit ",") with [44%N].
  rewrite split_join; [|done|].
  2:{ eapply Forall_impl; [exact Hclean|]. by intros entry (_ & ? & _). }
  induction Hclean as [|entry rest (Hne & _ & Htrim) _ IH]; [done|].
  rewrite fmap_cons. simpl. rewrite trim_id by done.
  destruct entry; [done|]. simpl. by rewrite IH.
Qed.

Lemma allowedTypes_reads_back_witness :
  Forall (fun entry => entry <> [] /\ (44%N ∉ entry) /\ trimmed entry)
    DEFAULT_ALLOWED_TYPES
  /\ allowedTypes
       (Some (lit "image/jpeg,image/png,image/webp,image/gif,image/avif"))
     = DEFAULT_ALLOWED_TYPES.
Proof.
  assert (Hclean : Forall (fun entry => entry <> [] /\ (44%N ∉ entry)
                                        /\ trimmed entry)
                     DEFAULT_ALLOWED_TYPES).
  { unfold DEFAULT_ALLOWED_TYPES.
    repeat (constructor;
            [split; [done|]; split; [compute_done|];
             split; intros c [= <-]; reflexivity|]).
    constructor. }
  exact (conj Hclean (allowedTypes_reads_back DEFAULT_ALLOWED_TYPES Hclean)).
Defined.

End SettingsExtras.

Module AuthExtras.
Import JS Database Runtime Routes Router Settings Auth.
Import DatabaseFacts SettingsExtras HandlerExtras.

Section Middleware.
Context `{Builtins} `{AuthEnvironment}.

(** X25.  [extractToken] accepts exactly the headers of the form
    [scheme token] or [scheme token rest...], the parts separated by
    single spaces, where [scheme] lower-cases to [bearer] and [token] is
    not empty; it returns that token, which holds no space.  In
    particular a header with two spaces after the scheme is refused. *)
Theorem extractToken_accepts :
  forall (header token : list N),
    extractToken (Some header) = Some token
    <-> exists scheme rest,
          (32%N ∉ scheme) /\ String_toLowerCase scheme = lit "bearer"
          /\ token <> [] /\ (32%N ∉ token)
          /\ (header = scheme ++ 32%N :: token
              \/ header = scheme ++ 32%N :: token ++ 32%N :: rest).
Proof.
  intros header token. unfold extractToken. split.
  - destruct (truthy_opt (Some header)) eqn:Hheader; [|done].
    cbn [negb default from_option]. unfold Datatypes.id.
    pose proof (join_split 32 header) as Hjoin.
    assert (Hfree : forall piece, piece ∈ split 32 header -> 32%N ∉ piece).
    { intros piece Hp. by apply split_pieces in Hp as [? _]. }
    destruct (split 32 header) as [|scheme [|tok more]]; cbn; try done.
    { by rewrite orb_true_r. }
    case_bool_decide as Hscheme; [|done]. cbn.
    destruct tok as [|c tok]; [done|]. cbn. intros [= <-].
    injection Hscheme as Hscheme.
    exists scheme, (join [32%N] more).
    split; [apply Hfree; by left|]. split; [done|]. split; [done|].
    split; [apply Hfree; right; by left|].
    rewrite <- Hjoin. destruct more as [|m more]; [by left|right].
    reflexivity.
  - intros (scheme & rest & Hs & Hlower & Hne & Ht & Hheader).
    assert (Htruthy : truthy_opt (Some header) = true).
    { destruct Hheader as [-> | ->]; by destruct scheme. }
    rewrite Htruthy. cbn [negb default from_option]. unfold Datatypes.id.
    assert (Hsplit : exists more, split 32 header = scheme :: token :: more).
    { destruct Hheader as [-> | ->]; rewrite split_app_sep by done.
      - exists []. by rewrite split_free.
      - exists (split 32 rest). by rewrite split_app_sep. }
    destruct Hsplit as [more ->]. cbn. rewrite Hlower.
    rewrite bool_decide_eq_true_2 by done. by destruct token.
Qed.

(** X26.  [authMiddleware] lets a request through only with an
    identity: either the [x-user-id] header is present and not empty,
    and then the user is that identifier with the upper-cased
    [x-user-role] (USER when absent), whatever the [Authorization]
    header and the JWT settings are; or there is no such header, a
    public key is configured, and the bearer token of the
    [Authorization] header verified against it, and then the user is the
    token's subject with its role (USER when absent, not upper-cased).
    Every other request is answered 401. *)
Theorem authMiddleware_admits_only_identified :
  (forall (headers : Headers) (ident : list N),
     x_user_id headers = Some ident -> ident <> [] ->
     authMiddleware headers
     = Next (mkUser ident
               (String_toUpperCase
                  (default (lit "USER") (x_user_role headers)))))
  /\ (forall (headers : Headers) (user : User),
        authMiddleware headers = Next user ->
        truthy_opt (x_user_id headers) = false ->
        exists key token payload,
          jwt_publicKey = Some key /\ key <> []
          /\ extractToken (authorization headers) = Some token
          /\ jwt_verify token key jwt_audience jwt_issuer = Some payload
          /\ user = mkUser (payload_sub payload)
                      (default (lit "USER") (payload_role payload)))
  /\ (forall (headers : Headers) (response : Response),
        authMiddleware headers = Rejected response ->
        res_status response = 401
        /\ truthy_opt (x_user_id headers) = false).
Proof.
  unfold authMiddleware. split; [|split].
  - intros headers ident -> Hne. by destruct ident.
  - intros headers user Hnext Hid. rewrite Hid in Hnext. cbn [negb andb] in Hnext.
    destruct jwt_publicKey as [[|c key]|] eqn:Hkey; cbn in Hnext; try done.
    destruct (extractToken (authorization headers)) as [token|]; [|done].
    destruct (jwt_verify token (c :: key) jwt_audience jwt_issuer)
      as [payload|] eqn:Hverify; [|done].
    injection Hnext as <-. by exists (c :: key), token, payload.
  - intros headers response.
    destruct (truthy_opt (x_user_id headers)); cbn [negb andb]; [done|].
    destruct (truthy_opt jwt_publicKey).
    + destruct (extractToken _); [|by intros [= <-]].
      destruct (jwt_verify _ _ _ _); [done|by intros [= <-]].
    + by intros [= <-].
Qed.

Context `{Config} `{Faults}.

(** X27.  Through the application's pipeline, a caller identified by
    a non-empty [x-user-id] whose role does not upper-case to ADMIN is
    listed only their own ACTIVE records by [GET /media], whatever
    [scope], cursor and [Authorization] header they send; and a request
    the authentication middleware rejects reaches no route: it is
    answered 401 and the world stays as it is. *)
Theorem header_identity_lists_own_records :
  (forall (headers : Headers) (req : Request) (w : World) (ident : list N)
          (code : Z) (listed : list ListedItem) (next : option (list N)),
     x_user_id headers = Some ident -> ident <> [] ->
     String_toUpperCase (default (lit "USER") (x_user_role headers))
     <> lit "ADMIN" ->
     (app GET path_media headers req w).1
     = mkResponse code (JsonList listed next) ->
     Forall (fun li =>
               ownerId (listed_record li) = ident
               /\ status (listed_record li) = ACTIVE) listed)
  /\ (forall (method : Method) (pattern : Pattern) (headers : Headers)
             (req : Request) (w : World),
        x_user_id headers = None \/ x_user_id headers = Some [] ->
        jwt_publicKey = None
        \/ extractToken (authorization headers) = None ->
        res_status (app method pattern headers req w).1 = 401
        /\ (app method pattern headers req w).2 = w).
Proof.
  split.
  - intros headers req w ident code listed next Hid Hne Hrole Hrun.
    unfold app in Hrun.
    assert (Hauth : authMiddleware headers
                    = Next (mkUser ident
                              (String_toUpperCase
                                 (default (lit "USER") (x_user_role headers))))).
    { unfold authMiddleware. rewrite Hid. by destruct ident. }
    rewrite Hauth in Hrun. unfold serve in Hrun.
    cbn [List.find routes route_method route_pattern method_eqb pattern_eqb
         andb route_chain route_handler run_chain run_handler] in Hrun.
    set (user := mkUser ident _) in *.
    destruct (listHandler (with_user user req) w) as [[response|e] w'] eqn:Hlist;
      cbn [fst] in Hrun; [|done].
    subst response.
    destruct (listed_rows_match_query (with_user user req) w code listed next)
      as (user' & limit & cursor & scope & Huser' & Hrows);
      [by rewrite Hlist|].
    injection Huser' as <-.
    eapply Forall_impl; [exact Hrows|].
    intros li Hw. cbv beta in Hw.
    apply (query_of_non_admin user limit cursor scope _ _ Hne) in Hw; [done|].
    unfold is_admin. by apply streq_neq.
  - intros method pattern headers req w Hid Hjwt. unfold app, authMiddleware.
    assert (Hfalsy : truthy_opt (x_user_id headers) = false).
    { by destruct Hid as [-> | ->]. }
    rewrite Hfalsy. cbn [negb andb].
    destruct Hjwt as [-> | ->]; [done|].
    by destruct (truthy_opt jwt_publicKey).
Qed.
End Middleware.
End AuthExtras.
(** ** The further properties at concrete requests *)

Module ExtraRuns.
Import JS Filename Database Runtime Collaborators Routes Router.
Import HandlerExtras UploadExtras MiddlewareExtras.

Section Runs.
Import Sample.
#[local] Existing Instance healthy.

(** Four records: three of alice (one of them DELETED), one of bob. *)
Definition library : World :=
  mkWorld [row "m1" "alice" ACTIVE 1000; row "m2" "bob" ACTIVE 2000;
           row "m3" "alice" DELETED 3000; row "m4" "alice" ACTIVE 4000]
    ∅ [] ∅ 5000 0 [].

Definition list_request (limit : RawLimit) (cursor : option (list N))
    (scope : RawScope) : Request :=
  mkRequest (Some alice) [] limit cursor scope false false None
    (MulterParsed [] [] None).

Definition delete_m1 : Request :=
  mkRequest (Some alice) (lit "m1") LimitAbsent None ScopeAbsent false true
    None (MulterParsed [] [] None).

Lemma list_page_is_bounded_witness :
  exists code listed next,
    (listHandler (list_request (LimitInteger 1) None ScopeAll) library).1
    = Returned (mkResponse code (JsonList listed next))
    /\ code = 200 /\ (length listed <= 1)%nat.
Proof.
  let v := eval vm_compute in
    (listHandler (list_request (LimitInteger 1) None ScopeAll) library).1 in
  lazymatch v with
  | Returned (mkResponse ?c (JsonList ?l ?n)) =>
      assert (Hrun : (listHandler (list_request (LimitInteger 1) None ScopeAll)
                        library).1
                     = Returned (mkResponse c (JsonList l n)))
        by (vm_compute; reflexivity);
      destruct (list_page_is_bounded _ _ _ _ _ Hrun) as (Hc & Hl & _);
      exact (ex_intro _ c (ex_intro _ l (ex_intro _ n
               (conj Hrun (conj Hc Hl)))))
  end.
Defined.

Lemma list_shows_own_active_records_witness :
  req_user (list_request LimitAbsent None ScopeAll) = Some alice
  /\ user_id alice <> [] /\ is_admin alice = false
  /\ exists code listed next,
       (listHandler (list_request LimitAbsent None ScopeAll) library).1
       = Returned (mkResponse code (JsonList listed next))
       /\ length listed = 2%nat
       /\ Forall (fun li =>
                    ownerId (listed_record li) = user_id alice
                    /\ status (listed_record li) = ACTIVE) listed.
Proof.
  assert (Hid : user_id alice <> []) by discriminate.
  split; [reflexivity|]. split; [exact Hid|]. split; [reflexivity|].
  let v := eval vm_compute in
    (listHandler (list_request LimitAbsent None ScopeAll) library).1 in
  lazymatch v with
  | Returned (mkResponse ?c (JsonList ?l ?n)) =>
      assert (Hrun : (listHandler (list_request LimitAbsent None ScopeAll)
                        library).1
                     = Returned (mkResponse c (JsonList l n)))
        by (vm_compute; reflexivity);
      exact (ex_intro _ c (ex_intro _ l (ex_intro _ n
               (conj Hrun (conj eq_refl
                  (list_shows_own_active_records
                     (list_request LimitAbsent None ScopeAll) library alice
                     c l n eq_refl Hid eq_refl Hrun))))))
  end.
Defined.

Lemma delete_soft_deletes_witness :
  NoDup (id <$> media_objects library)
  /\ (deleteHandler delete_m1 library).1
     = Returned (mkResponse 200 (JsonMessage (lit "Deleted")))
  /\ exists target,
       getMediaObjectById (lit "m1") (media_objects library) = Some target
       /\ length (media_objects (deleteHandler delete_m1 library).2)
          = length (media_objects library).
Proof.
  assert (Hnd : NoDup (id <$> media_objects library)) by compute_done.
  assert (Hrun : (deleteHandler delete_m1 library).1
                 = Returned (mkResponse 200 (JsonMessage (lit "Deleted"))))
    by (vm_compute; reflexivity).
  destruct (delete_soft_deletes delete_m1 library _ Hnd Hrun eq_refl)
    as (target & Hget & Hlen & _).
  exact (conj Hnd (conj Hrun (ex_intro _ target (conj Hget Hlen)))).
Defined.

Definition bad_cursor_request : Request :=
  list_request LimitAbsent (Some (lit "tomorrow")) ScopeAbsent.

Lemma invalid_cursor_is_answered_500_witness :
  req_user bad_cursor_request = Some alice
  /\ listSchema bad_cursor_request <> None
  /\ query_cursor bad_cursor_request = Some (lit "tomorrow")
  /\ Date_parse (lit "tomorrow") = None
  /\ serve GET path_media bad_cursor_request library
     = (mkResponse 500 (JsonMessage (lit "Invalid cursor")), library).
Proof.
  assert (Hschema : listSchema bad_cursor_request <> None) by discriminate.
  assert (Hne : lit "tomorrow" <> []) by discriminate.
  assert (Hparse : Date_parse (lit "tomorrow") = None) by reflexivity.
  exact (conj eq_refl (conj Hschema (conj eq_refl (conj Hparse
           (proj1 (invalid_cursor_is_answered_500 bad_cursor_request library
                     alice (lit "tomorrow") eq_refl Hschema eq_refl)
              Hne Hparse))))).
Defined.

Lemma upload_keeps_rows_backed_by_objects_witness :
  (forall r, r ∈ media_objects empty_world ->
             is_Some (bucket empty_world !! storedKey r))
  /\ length (media_objects
               (uploadHandler (UploadFacts.upload_request UploadFacts.three_files)
                  empty_world).2) = 2%nat
  /\ (forall r,
        r ∈ media_objects
              (uploadHandler (UploadFacts.upload_request UploadFacts.three_files)
                 empty_world).2 ->
        is_Some (bucket
                   (uploadHandler
                      (UploadFacts.upload_request UploadFacts.three_files)
                      empty_world).2 !! storedKey r)).
Proof.
  assert (Hbacked : forall r, r ∈ media_objects empty_world ->
                              is_Some (bucket empty_world !! storedKey r)).
  { intros r Hr. by apply elem_of_nil in Hr. }
  assert (Hlen : length (media_objects
                           (uploadHandler
                              (UploadFacts.upload_request UploadFacts.three_files)
                              empty_world).2) = 2%nat)
    by (vm_compute; reflexivity).
  exact (conj Hbacked (conj Hlen
           (upload_keeps_rows_backed_by_objects
              (UploadFacts.upload_request UploadFacts.three_files)
              empty_world Hbacked))).
Defined.

Lemma uploaded_items_are_stored_and_announced_witness :
  req_user (UploadFacts.upload_request UploadFacts.three_files) = Some alice
  /\ exists response,
       (uploadHandler (UploadFacts.upload_request UploadFacts.three_files)
          empty_world).1 = Returned response
       /\ (length (answered_items response)
           + length (answered_failures response)
           = length (files_of
                       (UploadFacts.upload_request UploadFacts.three_files)))%nat.
Proof.
  destruct (uploaded_items_are_stored_and_announced
              (UploadFacts.upload_request UploadFacts.three_files)
              empty_world alice eq_refl)
    as (response & Hrun & _ & _ & _ & Hcount & _).
  exact (conj eq_refl (ex_intro _ response (conj Hrun Hcount))).
Defined.

Lemma rejected_file_leaves_no_trace_witness :
  (mimetype (photo "b.pdf" "application/pdf") ∉ allowedMimeTypes)
  /\ exists e,
       uploadOne alice (photo "b.pdf" "application/pdf") library
       = (Thrown e, library)
       /\ statusCode e = Some 400.
Proof.
  assert (Hmime : mimetype (photo "b.pdf" "application/pdf")
                  ∉ allowedMimeTypes) by compute_done.
  destruct (rejected_file_leaves_no_trace alice
              (photo "b.pdf" "application/pdf") library (or_introl Hmime))
    as (e & Hrun & Hbad & _).
  exact (conj Hmime (ex_intro _ e
           (conj Hrun (f_equal statusCode (Hbad Hmime))))).
Defined.

(** Redis refuses the limiter's transaction; everything else works. *)
Definition limiter_down : Faults := {|
  fault := fun _ c =>
    match c with
    | RedisMulti _ => Some (lit "Connection is closed.")
    | _ => None
    end
|}.

Lemma limiter_outage_fails_closed_witness :
  ((POST, path_media_upload) ∈ limited_routes)
  /\ @fault limiter_down empty_world (RedisMulti (lit "rate:alice"))
     = Some (lit "Connection is closed.")
  /\ @serve builtins config limiter_down POST path_media_upload
       UploadFacts.single_upload_request empty_world
     = (mkResponse 500 (JsonMessage (lit "Connection is closed.")),
        log (Failed (RedisMulti (lit "rate:alice"))) empty_world).
Proof.
  assert (Hroute : (POST, path_media_upload) ∈ limited_routes) by (by left).
  exact (conj Hroute (conj eq_refl
           (@limiter_outage_fails_closed builtins config limiter_down
              POST path_media_upload UploadFacts.single_upload_request
              empty_world (lit "Connection is closed.") Hroute eq_refl))).
Defined.

(** Alice has used up her two requests of the current window. *)
Definition busy : World :=
  mkWorld [] ∅ [] {[ lit "rate:alice" := Redis.mkEntry 2 (Some 10000) ]}
    0 0 [].

Lemma too_many_requests_stores_nothing_witness :
  res_status (serve POST path_media_upload UploadFacts.single_upload_request
                busy).1 = 429
  /\ media_objects
       (serve POST path_media_upload UploadFacts.single_upload_request busy).2
     = media_objects busy
  /\ bucket
       (serve POST path_media_upload UploadFacts.single_upload_request busy).2
     = bucket busy.
Proof.
  assert (Hcode : res_status
                    (serve POST path_media_upload
                       UploadFacts.single_upload_request busy).1 = 429)
    by (vm_compute; reflexivity).
  destruct (too_many_requests_stores_nothing POST path_media_upload
              UploadFacts.single_upload_request busy Hcode)
    as (Hm & Hb & _).
  exact (conj Hcode (conj Hm Hb)).
Defined.

(** Alice and bob both have a counter running. *)
Definition two_counters : World :=
  mkWorld [] ∅ []
    (<[ lit "rate:bob" := Redis.mkEntry 1 (Some 10000) ]>
       {[ lit "rate:alice" := Redis.mkEntry 1 (Some 10000) ]})
    0 0 [].

Lemma other_identities_counters_untouched_witness :
  lit "bob" <> RetrievalFacts.requester UploadFacts.single_upload_request
  /\ redis two_counters !! lit "rate:bob"
     = Some (Redis.mkEntry 1 (Some 10000))
  /\ redis (serve POST path_media_upload UploadFacts.single_upload_request
              two_counters).2 !! (lit "rate:" ++ lit "bob")
     = redis two_counters !! (lit "rate:" ++ lit "bob").
Proof.
  assert (Hother : lit "bob" <> RetrievalFacts.requester UploadFacts.single_upload_request)
    by discriminate.
  assert (Hbob : redis two_counters !! lit "rate:bob"
                 = Some (Redis.mkEntry 1 (Some 10000)))
    by (vm_compute; reflexivity).
  exact (conj Hother (conj Hbob
           (other_identities_counters_untouched POST path_media_upload
              UploadFacts.single_upload_request two_counters (lit "bob")
              Hother))).
Defined.

Lemma statuses_answered_witness :
  (forall e, multipart UploadFacts.single_upload_request <> MulterFailure e)
  /\ res_status (serve POST path_media_upload
                   UploadFacts.single_upload_request busy).1 = 429
  /\ res_status (serve POST path_media_upload
                   UploadFacts.single_upload_request busy).1 ∈ api_statuses.
Proof.
  assert (Hmulter : forall e, multipart UploadFacts.single_upload_request
                              <> MulterFailure e) by discriminate.
  assert (Hcode : res_status
                    (serve POST path_media_upload
                       UploadFacts.single_upload_request busy).1 = 429)
    by (vm_compute; reflexivity).
  exact (conj Hmulter (conj Hcode
           (statuses_answered POST path_media_upload
              UploadFacts.single_upload_request busy Hmulter))).
Defined.

(** Public reads through a CDN, its base given without and with a final
    slash. *)
Definition cdn_config (base : string) : Config := {|
  nodeEnv := lit "production";
  publicRead := true;
  cdnBaseUrl := Some (lit base);
  storage_endpoint := None;
  storage_bucket := lit "media-uploads";
  storage_region := lit "us-east-1";
  presignExpirationSeconds := 900;
  rateLimit_windowSeconds := 10;
  rateLimit_maxRequests := 2;
  maxUploadBytes := 10485760;
  allowedMimeTypes := [lit "image/png"]
|}.

Lemma public_url_ignores_trailing_slash_witness :
  lit "https://cdn.test" <> []
  /\ last (lit "https://cdn.test") <> Some 47%N
  /\ @buildPublicUrl builtins (cdn_config "https://cdn.test")
       (lit "uploads/alice/id-0.png")
     = inl (lit "https://cdn.test/uploads/alice/id-0.png")
  /\ @buildPublicUrl builtins (cdn_config "https://cdn.test/")
       (lit "uploads/alice/id-0.png")
     = inl (lit "https://cdn.test/uploads/alice/id-0.png").
Proof.
  assert (Hne : lit "https://cdn.test" <> []) by discriminate.
  assert (Hlast : last (lit "https://cdn.test") <> Some 47%N) by discriminate.
  destruct (public_url_ignores_trailing_slash builtins healthy
              (cdn_config "https://cdn.test") (cdn_config "https://cdn.test/")
              (lit "https://cdn.test") (lit "uploads/alice/id-0.png")
              Hne Hlast eq_refl eq_refl) as (H1 & H2 & _).
  exact (conj Hne (conj Hlast (conj H1 H2))).
Defined.
End Runs.
End ExtraRuns.
